(** * A shallow embedding of the Sokoban solver [sokoban.py]

    The board class [skb_map], its validation, the flood fill that computes
    the reachability grid, the move generator, the state transition and the
    depth-first search are translated function by function.  Python integers
    are [Z]; the [array.array('i')] holding the cells is a [list Z] read and
    written through Python's sequence indexing (negative indices count from
    the end, anything else out of range raises [IndexError]). *)

From Stdlib Require Import ZArith Lia Bool List.
From stdpp Require Import base gmap sets list.
Local Open Scope Z_scope.

(** ** Outcomes of a call *)

(** [class Dir(Enum)]: UP = 1, RIGHT = 2, DOWN = 3, LEFT = 4. *)
Inductive Dir : Type := UP | RIGHT | DOWN | LEFT.

#[global] Instance Dir_eq_dec : EqDecision Dir.
Proof. solve_decision. Defined.

(** Every [print(...); exit(-1)] of the source, with the values it formats. *)
Inductive fatal : Type :=
| InvalidElement (x y : Z)
| OpenOnBorder (x y : Z)
| AdjacentToInvalid (x y : Z)
| UnmovableBox (x y : Z)
| CharacterOnBox (x y : Z)
| BadCharacterCount (n : Z)
| NoBoxes
| BoxDestMismatch
| InconsistentCounts
| InconsistentCharacter
| BadMoveNoBox (x y : Z) (d : Dir).

(** The Python exceptions the code can run into. *)
Inductive exn : Type := IndexError | OverflowError | TypeError.

(** [Timeout] is not an outcome of the program: it is what a loop of the
    model answers when the fuel it was given is used up. *)
Inductive result (A : Type) : Type :=
| Ok (a : A)
| Exit (f : fatal)
| Raise (e : exn)
| Timeout.
Arguments Ok {A} a.
Arguments Exit {A} f.
Arguments Raise {A} e.
Arguments Timeout {A}.

Definition bind {A B : Type} (m : result A) (k : A -> result B) : result B :=
  match m with
  | Ok a => k a
  | Exit f => Exit f
  | Raise e => Raise e
  | Timeout => Timeout
  end.

Notation "x <- m ;; k" := (bind m (fun x => k))
  (at level 20, m at level 99, k at level 200, only parsing).
Notation "' p <- m ;; k" := (bind m (fun x => match x with p => k end))
  (at level 20, p pattern, m at level 99, k at level 200, only parsing).

(** Python's [a and b] and [a or b] on calls that may raise: the right
    operand is evaluated only when the left one does not decide. *)
Definition andM (a b : result bool) : result bool :=
  x <- a ;; if x then b else Ok false.
Definition orM (a b : result bool) : result bool :=
  x <- a ;; if x then Ok true else b.
Definition notM (a : result bool) : result bool :=
  x <- a ;; Ok (negb x).

(** [for c in l: acc = body(c, acc)], stopping at the first failure. *)
Fixpoint foldM {A C : Type} (body : C -> A -> result A) (l : list C) (acc : A)
  : result A :=
  match l with
  | [] => Ok acc
  | c :: l' => acc' <- body c acc ;; foldM body l' acc'
  end.

(** [range(n)]. *)
Definition range (n : Z) : list Z := map Z.of_nat (seq 0 (Z.to_nat n)).

(** [[f(c) for c in l]], stopping at the first failure. *)
Fixpoint mapM {A C : Type} (f : C -> result A) (l : list C) : result (list A) :=
  match l with
  | [] => Ok []
  | c :: l' => a <- f c ;; r <- mapM f l' ;; Ok (a :: r)
  end.

(** ** Python sequence indexing *)

Definition len {A : Type} (a : list A) : Z := Z.of_nat (length a).

(** [a[i]] *)
Definition getitem {A : Type} (a : list A) (i : Z) : result A :=
  let j := if i <? 0 then i + len a else i in
  if (0 <=? j) && (j <? len a) then
    match a !! Z.to_nat j with
    | Some v => Ok v
    | None => Raise IndexError
    end
  else Raise IndexError.

(** The items of an [array.array('i')] are C ints. *)
Definition INT_MIN : Z := -2147483648.
Definition INT_MAX : Z := 2147483647.
Definition is_c_int (v : Z) : bool := (INT_MIN <=? v) && (v <=? INT_MAX).

(** [a[i] = v]: the index is checked first, then the value. *)
Definition setitem (a : list Z) (i : Z) (v : Z) : result (list Z) :=
  let j := if i <? 0 then i + len a else i in
  if (0 <=? j) && (j <? len a) then
    if is_c_int v then Ok (<[Z.to_nat j := v]> a) else Raise OverflowError
  else Raise IndexError.

(** [array.array('i', l)] *)
Definition array_of_list (l : list Z) : result (list Z) :=
  if forallb is_c_int l then Ok l else Raise OverflowError.

(** ** The board *)

(** An instance of [class skb_map].  [character] is [None] for Python's
    [None]. *)
Record skb_map : Type := mk_skb_map {
  height : Z;
  width : Z;
  array : list Z;
  box : Z;
  dest : Z;
  unsolved : Z;
  character : option (Z * Z);
  reachable : list Z
}.

Definition set_array (self : skb_map) (a : list Z) : skb_map :=
  mk_skb_map (height self) (width self) a (box self) (dest self)
             (unsolved self) (character self) (reachable self).
Definition set_unsolved (self : skb_map) (u : Z) : skb_map :=
  mk_skb_map (height self) (width self) (array self) (box self) (dest self)
             u (character self) (reachable self).
Definition set_character (self : skb_map) (c : option (Z * Z)) : skb_map :=
  mk_skb_map (height self) (width self) (array self) (box self) (dest self)
             (unsolved self) c (reachable self).
Definition set_reachable (self : skb_map) (r : list Z) : skb_map :=
  mk_skb_map (height self) (width self) (array self) (box self) (dest self)
             (unsolved self) (character self) r.
Definition set_counts (self : skb_map) (b d u : Z) (c : option (Z * Z))
  : skb_map :=
  mk_skb_map (height self) (width self) (array self) b d u c (reachable self).

(** [def element(self, x, y)] *)
Definition element (self : skb_map) (x y : Z) : result Z :=
  getitem (array self) (x + y * width self).

(** [def update_element(self, x, y, value)] *)
Definition update_element (self : skb_map) (x y value : Z) : result skb_map :=
  a <- setitem (array self) (x + y * width self) value ;;
  Ok (set_array self a).

(** [def is_reachable(self, x, y)] *)
Definition is_reachable (self : skb_map) (x y : Z) : result bool :=
  t <- getitem (reachable self) (x + y * width self) ;;
  Ok (Z.land t 0x80 =? 0x80).

(** [def is_blocked(self, x, y)] *)
Definition is_blocked (self : skb_map) (x y : Z) : result bool :=
  orM (e <- element self x y ;; Ok (e =? 0))
      (e <- element self x y ;; Ok (Z.land e 0x40 =? 0x40)).

(** [def is_wall(self, x, y)] *)
Definition is_wall (self : skb_map) (x y : Z) : result bool :=
  e <- element self x y ;; Ok (e =? 0).

(** [def is_dead_corner(self, x, y)] *)
Definition is_dead_corner (self : skb_map) (x y : Z) : result bool :=
  e <- element self x y ;;
  if negb (Z.land e 0x20 =? 0) then Ok false
  else
    c <- orM (andM (is_wall self (x + 1) y) (is_wall self x (y + 1)))
        (orM (andM (is_wall self (x + 1) y) (is_wall self x (y - 1)))
        (orM (andM (is_wall self (x - 1) y) (is_wall self x (y + 1)))
             (andM (is_wall self (x - 1) y) (is_wall self x (y - 1))))) ;;
    if c then Ok true else Ok false.

(** [def compare(self, another_map)] *)
Definition compare (self another_map : skb_map) : bool :=
  bool_decide (reachable self = reachable another_map).

(** [def completed(self)] *)
Definition completed (self : skb_map) : bool := unsolved self =? 0.

(** ** Validation *)

(** The local counters of [validate]. *)
Record tally : Type := mk_tally {
  total_box : Z;
  total_dest : Z;
  total_unsolved : Z;
  total_character : Z;
  tally_character : option (Z * Z)
}.

Definition tally0 : tally := mk_tally 0 0 0 0 None.

(** The body of the two nested [for] loops of [validate] at [(x, y)]. *)
Definition validate_cell (self : skb_map) (x y : Z) (t : tally)
  : result tally :=
  e <- element self x y ;;
  if (e =? 0) || (e =? -1) then Ok t
  else if (Z.land e 1 =? 0) || negb (Z.land e (Z.lnot 0x71) =? 0)
  then Exit (InvalidElement x y)
  else if (x =? 0) || (x =? width self - 1) || (y =? 0)
          || (y =? height self - 1)
  then Exit (OpenOnBorder x y)
  else
    adj <- andM (Ok (Z.land e 0x1 =? 1))
             (orM (n <- element self (x - 1) y ;; Ok (n =? -1))
             (orM (n <- element self (x + 1) y ;; Ok (n =? -1))
             (orM (n <- element self x (y - 1) ;; Ok (n =? -1))
                  (n <- element self x (y + 1) ;; Ok (n =? -1))))) ;;
    if adj then Exit (AdjacentToInvalid x y)
    else
      let t1 :=
        if negb (Z.land e 0x10 =? 0)
        then mk_tally (total_box t) (total_dest t) (total_unsolved t)
                      (total_character t + 1) (Some (x, y))
        else t in
      let t2 :=
        if negb (Z.land e 0x20 =? 0)
        then mk_tally (total_box t1) (total_dest t1 + 1) (total_unsolved t1)
                      (total_character t1) (tally_character t1)
        else t1 in
      t3 <- (if negb (Z.land e 0x40 =? 0)
             then
               let u := if Z.land e 0x20 =? 0 then total_unsolved t2 + 1
                        else total_unsolved t2 in
               dc <- is_dead_corner self x y ;;
               if dc then Exit (UnmovableBox x y)
               else Ok (mk_tally (total_box t2 + 1) (total_dest t2) u
                                 (total_character t2) (tally_character t2))
             else Ok t2) ;;
      if negb (Z.land e 0x10 =? 0) && negb (Z.land e 0x40 =? 0)
      then Exit (CharacterOnBox x y)
      else Ok t3.

(** [def validate(self, no_update=False)]: the scan, then the checks on
    the totals. *)
Definition validate_scan (self : skb_map) : result tally :=
  foldM (fun y t =>
           foldM (fun x t => validate_cell self x y t) (range (width self)) t)
        (range (height self)) tally0.

Definition validate (no_update : bool) (self : skb_map) : result skb_map :=
  t <- validate_scan self ;;
  if negb (total_character t =? 1)
  then Exit (BadCharacterCount (total_character t))
  else if total_box t =? 0 then Exit NoBoxes
  else if negb (total_box t =? total_dest t) then Exit BoxDestMismatch
  else if no_update then
    if negb (box self =? total_box t) || negb (dest self =? total_dest t)
       || negb (unsolved self =? total_unsolved t)
    then Exit InconsistentCounts
    else if negb (bool_decide (character self = tally_character t))
    then Exit InconsistentCharacter
    else Ok self
  else Ok (set_counts self (total_box t) (total_dest t) (total_unsolved t)
                      (tally_character t)).

(** ** The reachability resolver *)

(** The state of the flood fill: the grid being marked and the work-set. *)
Record fill : Type := mk_fill {
  grid : list Z;
  todo : gset (Z * Z)
}.

(** The nested [def check_xy(x, y)] *)
Definition check_xy (w : Z) (st : fill) (x y : Z) : result fill :=
  t <- getitem (grid st) (x + y * w) ;;
  if negb (t =? 0) && (Z.land t 0x40 =? 0) && (Z.land t 0x80 =? 0)
  then Ok (mk_fill (grid st) ({[ (x, y) ]} ∪ todo st))
  else Ok st.

(** The body of the [while] loop once [todo.pop()] has answered [c] and
    left [rest] in the set. *)
Definition visit (w : Z) (g : list Z) (rest : gset (Z * Z)) (c : Z * Z)
  : result fill :=
  let '(x, y) := c in
  t <- getitem g (x + y * w) ;;
  g' <- setitem g (x + y * w) (Z.lor t 0x80) ;;
  st <- check_xy w (mk_fill g' rest) (x + 1) y ;;
  st <- check_xy w st (x - 1) y ;;
  st <- check_xy w st x (y + 1) ;;
  check_xy w st x (y - 1).

(** [set.pop()] removes an arbitrary element: one iteration of the loop,
    for any element the set may give. *)
Inductive fill_step (w : Z) : fill -> fill -> Prop :=
| fill_pop (st st' : fill) (c : Z * Z) :
    c ∈ todo st ->
    visit w (grid st) (todo st ∖ {[ c ]}) c = Ok st' ->
    fill_step w st st'.

(** A run of [n] iterations. *)
Inductive fill_run (w : Z) : nat -> fill -> fill -> Prop :=
| fill_run_O (st : fill) : fill_run w O st st
| fill_run_S (n : nat) (st st' st'' : fill) :
    fill_step w st st' -> fill_run w n st' st'' ->
    fill_run w (S n) st st''.

(** The loop with one fixed choice for [pop]: the first element of the
    set's enumeration. *)
Fixpoint fill_loop (fuel : nat) (w : Z) (st : fill) : result fill :=
  match elements (todo st) with
  | [] => Ok st
  | c :: _ =>
      match fuel with
      | O => Timeout
      | S n =>
          st' <- visit w (grid st) (todo st ∖ {[ c ]}) c ;;
          fill_loop n w st'
      end
  end.

(** The statements of [resolve_reachable] before the loop. *)
Definition resolve_start (self : skb_map) : result fill :=
  match character self with
  | None => Raise TypeError
  | Some (x, y) =>
      let r := array self in
      t <- getitem r (x + y * width self) ;;
      r' <- setitem r (x + y * width self) (Z.land t (Z.lnot 0x10)) ;;
      Ok (mk_fill r' {[ (x, y) ]})
  end.

(** [def resolve_reachable(self)]; no cell is visited twice, so the loop is
    given one iteration per cell. *)
Definition resolve_reachable (self : skb_map) : result skb_map :=
  st <- resolve_start self ;;
  st' <- fill_loop (length (array self)) (width self) st ;;
  Ok (set_reachable self (grid st')).

(** [def __init__(self, mapl)]: the attributes that [validate] and
    [resolve_reachable] assign start out unset. *)
Definition widest (mapl : list (list Z)) : Z :=
  fold_left (fun w i => if len i >? w then len i else w) mapl 0.

Definition flatten_rows (w : Z) (mapl : list (list Z)) : list Z :=
  flat_map (fun i => i ++ replicate (Z.to_nat (w - len i)) (-1)) mapl.

Definition skb_map_init (mapl : list (list Z)) : result skb_map :=
  let h := len mapl in
  let w := widest mapl in
  a <- array_of_list (flatten_rows w mapl) ;;
  self <- validate false (mk_skb_map h w a 0 0 0 None []) ;;
  resolve_reachable self.

(** The two boards of the source file. *)
Definition m : list (list Z) :=
  [[0;    0;    0;    0;    0;    0];
   [0;    1;    1;    1; 0x21;    0];
   [0;    1; 0x21;    1; 0x11;    0];
   [0;    1;    0;    1;    0;    0;    0];
   [0;    1;    0;    1; 0x41;    1;    0;    0];
   [0;    1; 0x41; 0x21;    1;    1;    1;    0;    0];
   [0;    0;    0;    0;    1; 0x41;    1;    1;    0;    0];
   [-1;  -1;   -1;    0;    0;    1;    1;    1;    1;    0];
   [-1;  -1;   -1;   -1;    0;    0;    1;    1;    1;    0];
   [-1;  -1;   -1;   -1;   -1;    0;    0;    0;    0;    0]].

Definition m2 : list (list Z) :=
  [[-1;  -1;   -1;    0;    0;    0;    0;    0;    0];
   [0;    0;    0;    0; 0x21;    1;    1; 0x11;    0];
   [0;    1;    1; 0x41; 0x41; 0x41;    1;    1;    0];
   [0; 0x21;    0;    0; 0x21;    0;    0; 0x21;    0];
   [0;    1;    1;    1; 0x41;    1;    1;    1;    0];
   [0;    1;    1; 0x41; 0x21;    0;    1;    0;    0];
   [0;    0;    0;    0;    1;    1;    1;    0];
   [-1;  -1;   -1;    0;    0;    0;    0;    0]].

(** ** The legal-move generator *)

Definition move : Type := Z * Z * Dir.

(** The body of the two nested [for] loops of [find_all_possible_moves]. *)
Definition moves_cell (self : skb_map) (x y : Z) (moves : list move)
  : result (list move) :=
  skip <- orM (e <- element self x y ;; Ok (e =? -1))
              (e <- element self x y ;; Ok (Z.land e 0x40 =? 0)) ;;
  if skip then Ok moves
  else
    up <- andM (andM (is_reachable self x (y + 1))
                     (notM (is_blocked self x (y - 1))))
               (notM (is_dead_corner self x (y - 1))) ;;
    let moves := if up then moves ++ [(x, y, UP)] else moves in
    right <- andM (andM (is_reachable self (x - 1) y)
                        (notM (is_blocked self (x + 1) y)))
                  (notM (is_dead_corner self (x + 1) y)) ;;
    let moves := if right then moves ++ [(x, y, RIGHT)] else moves in
    down <- andM (andM (is_reachable self x (y - 1))
                       (notM (is_blocked self x (y + 1))))
                 (notM (is_dead_corner self x (y + 1))) ;;
    let moves := if down then moves ++ [(x, y, DOWN)] else moves in
    left <- andM (andM (is_reachable self (x + 1) y)
                       (notM (is_blocked self (x - 1) y)))
                 (notM (is_dead_corner self (x - 1) y)) ;;
    let moves := if left then moves ++ [(x, y, LEFT)] else moves in
    Ok moves.

(** [def find_all_possible_moves(self)] *)
Definition find_all_possible_moves (self : skb_map) : result (list move) :=
  foldM (fun y moves =>
           foldM (fun x moves => moves_cell self x y moves)
                 (range (width self)) moves)
        (range (height self)) [].

(** ** The state transition *)

(** [def create_new_map_by_move(self, x, y, direction)], steps 0 to 4 up to
    the call of [resolve_reachable].  [new_map] starts as
    [copy.deepcopy(self)]; [direction] being a [Dir], the branch for a bad
    direction is not there. *)
Definition move_box (self : skb_map) (x y : Z) (direction : Dir)
  : result skb_map :=
  let new_map := self in
  e <- element new_map x y ;;
  if Z.land e 0x40 =? 0 then Exit (BadMoveNoBox x y direction)
  else
    '(cx, cy) <- match character new_map with
                 | Some c => Ok c
                 | None => Raise TypeError
                 end ;;
    e <- element new_map cx cy ;;
    new_map <- update_element new_map cx cy (Z.land e (Z.lnot 0x10)) ;;
    e <- element new_map x y ;;
    new_map <- update_element new_map x y (Z.land e (Z.lnot 0x40)) ;;
    e <- element new_map x y ;;
    let new_map :=
      if negb (Z.land e 0x20 =? 0)
      then set_unsolved new_map (unsolved new_map + 1) else new_map in
    let '(nx, ny) :=
      match direction with
      | UP => (x, y - 1)
      | RIGHT => (x + 1, y)
      | DOWN => (x, y + 1)
      | LEFT => (x - 1, y)
      end in
    e <- element new_map nx ny ;;
    new_map <- update_element new_map nx ny (Z.lor e 0x40) ;;
    e <- element new_map nx ny ;;
    let new_map :=
      if negb (Z.land e 0x20 =? 0)
      then set_unsolved new_map (unsolved new_map - 1) else new_map in
    let new_map := set_character new_map (Some (x, y)) in
    e <- element new_map x y ;;
    update_element new_map x y (Z.lor e 0x10).

(** [def create_new_map_by_move(self, x, y, direction)] *)
Definition create_new_map_by_move (self : skb_map) (x y : Z) (direction : Dir)
  : result skb_map :=
  new_map <- move_box self x y direction ;;
  new_map <- resolve_reachable new_map ;;
  new_map <- validate true new_map ;;
  Ok new_map.

(** ** The search engine *)

(** One level of [history]: [[skbmap, all_moves, current move]]. *)
Record frame : Type := mk_frame {
  f_map : skb_map;
  f_moves : list move;
  f_cursor : Z
}.

(** The variables of [find_skb_map_solutions].  [history] is kept top
    first: [history[-1]] is the head of the list.  [printed] collects the
    paths the function prints for the solutions. *)
Record search : Type := mk_search {
  history : list frame;
  seen : list skb_map;
  moves : Z;
  solutions : Z;
  printed : list (list move)
}.

(** One iteration of the [while (history)] loop. *)
Definition search_step (st : search) : result search :=
  match history st with
  | [] => Ok st
  | h :: below =>
      let h := mk_frame (f_map h) (f_moves h) (f_cursor h + 1) in
      if f_cursor h >=? len (f_moves h)
      then Ok (mk_search below (seen st) (moves st) (solutions st) (printed st))
      else
        let moves := moves st + 1 in
        '(x, y, dir) <- getitem (f_moves h) (f_cursor h) ;;
        nm <- create_new_map_by_move (f_map h) x y dir ;;
        '(solutions, printed) <-
          (if completed nm
           then
             path <- mapM (fun t => getitem (f_moves t) (f_cursor t))
                          (rev (h :: below)) ;;
             Ok (solutions st + 1, printed st ++ [path])
           else Ok (solutions st, printed st)) ;;
        if existsb (compare nm) (seen st)
        then Ok (mk_search (h :: below) (seen st) moves solutions printed)
        else
          let seen := seen st ++ [nm] in
          if completed nm
          then Ok (mk_search (h :: below) seen moves solutions printed)
          else
            ms <- find_all_possible_moves nm ;;
            Ok (mk_search (mk_frame nm ms (-1) :: h :: below) seen moves
                          solutions printed)
  end.

Fixpoint search_loop (fuel : nat) (st : search) : result search :=
  match history st with
  | [] => Ok st
  | _ :: _ =>
      match fuel with
      | O => Timeout
      | S n => st' <- search_step st ;; search_loop n st'
      end
  end.

(** The three numbers of the last [print]. *)
Record report : Type := mk_report {
  moves_evaluated : Z;
  solutions_found : Z;
  frames_seen : Z
}.

(** [def find_skb_map_solutions(skbmap)]: [None] when the function returns
    early on a solved board. *)
Definition search_start (skbmap : skb_map) : result search :=
  ms <- find_all_possible_moves skbmap ;;
  Ok (mk_search [mk_frame skbmap ms (-1)] [skbmap] 0 0 []).

Definition find_skb_map_solutions (fuel : nat) (skbmap : skb_map)
  : result (option (report * list (list move))) :=
  if completed skbmap then Ok None
  else
    st <- search_start skbmap ;;
    st <- search_loop fuel st ;;
    Ok (Some (mk_report (moves st) (solutions st) (len (seen st)), printed st)).

(** The board of the source's [skbmap = skb_map(m)]. *)
Definition board_m : skb_map :=
  Eval vm_compute in
    match skb_map_init m with
    | Ok b => b
    | _ => mk_skb_map 0 0 [] 0 0 0 None []
    end.

(** * Properties *)

(** ** Outcomes *)

Lemma bind_Ok {A B : Type} (e : result A) (k : A -> result B) (b : B) :
  bind e k = Ok b -> exists a, e = Ok a /\ k a = Ok b.
Proof. destruct e; simpl; intros H; try discriminate. eauto. Qed.

Lemma foldM_app {A C : Type} (body : C -> A -> result A) (l1 l2 : list C)
  (acc : A) :
  foldM body (l1 ++ l2) acc = bind (foldM body l1 acc) (foldM body l2).
Proof.
  revert acc. induction l1 as [|c l1 IH]; intros acc; simpl; [reflexivity|].
  destruct (body c acc); simpl; auto.
Qed.

(** ** Indexing *)

Lemma getitem_nonneg {A : Type} (a : list A) (i : Z) (v : A) :
  0 <= i -> a !! Z.to_nat i = Some v -> getitem a i = Ok v.
Proof.
  intros Hi Hv. unfold getitem, len.
  pose proof (lookup_lt_Some _ _ _ Hv) as Hlt.
  destruct (Z.ltb_spec i 0); [lia|].
  destruct (Z.leb_spec 0 i); [|lia].
  destruct (Z.ltb_spec i (Z.of_nat (length a))); [|lia].
  simpl. rewrite Hv. reflexivity.
Qed.

Lemma getitem_Ok_inv {A : Type} (a : list A) (i : Z) (v : A) :
  getitem a i = Ok v ->
  - len a <= i < len a /\ a !! Z.to_nat (i mod len a) = Some v.
Proof.
  unfold getitem. intros H.
  destruct (Z.ltb_spec i 0) as [Hn|Hn].
  - destruct (Z.leb_spec 0 (i + len a)); [|discriminate].
    destruct (Z.ltb_spec (i + len a) (len a)); [|discriminate].
    simpl in H. split; [lia|].
    replace (i mod len a) with (i + len a).
    + destruct (a !! Z.to_nat (i + len a)); congruence.
    + apply Z.mod_unique with (-1); lia.
  - destruct (Z.leb_spec 0 i); [|discriminate].
    destruct (Z.ltb_spec i (len a)); [|discriminate].
    simpl in H. split; [lia|].
    rewrite Z.mod_small by lia.
    destruct (a !! Z.to_nat i); congruence.
Qed.

Lemma getitem_out_of_range {A : Type} (a : list A) (i : Z) :
  ~ (- len a <= i < len a) -> getitem a i = Raise IndexError.
Proof.
  intros H. unfold getitem.
  destruct (Z.ltb_spec i 0).
  - destruct (Z.leb_spec 0 (i + len a)); [|reflexivity].
    destruct (Z.ltb_spec (i + len a) (len a)); [lia|reflexivity].
  - destruct (Z.leb_spec 0 i); [|lia].
    destruct (Z.ltb_spec i (len a)); [lia|reflexivity].
Qed.

Lemma getitem_in_range {A : Type} (a : list A) (i : Z) :
  - len a <= i < len a -> exists v, getitem a i = Ok v.
Proof.
  intros H. unfold getitem, len in *.
  destruct (Z.ltb_spec i 0).
  - destruct (Z.leb_spec 0 (i + Z.of_nat (length a))); [|lia].
    destruct (Z.ltb_spec (i + Z.of_nat (length a)) (Z.of_nat (length a)));
      [|lia].
    simpl.
    destruct (lookup_lt_is_Some_2 a (Z.to_nat (i + Z.of_nat (length a))))
      as [v Hv]; [lia|].
    rewrite Hv. eauto.
  - destruct (Z.leb_spec 0 i); [|lia].
    destruct (Z.ltb_spec i (Z.of_nat (length a))); [|lia].
    simpl.
    destruct (lookup_lt_is_Some_2 a (Z.to_nat i)) as [v Hv]; [lia|].
    rewrite Hv. eauto.
Qed.

(** ** Geometry of a board *)

(** The cell array holds [width * height] items. *)
Definition geometry (self : skb_map) : Prop :=
  0 <= width self /\ 0 <= height self /\
  len (array self) = width self * height self.

Definition in_bounds (self : skb_map) (x y : Z) : Prop :=
  (0 <= x < width self) /\ (0 <= y < height self).

Definition in_boundsb (self : skb_map) (x y : Z) : bool :=
  (0 <=? x) && (x <? width self) && (0 <=? y) && (y <? height self).

Lemma in_boundsb_spec (self : skb_map) (x y : Z) :
  in_boundsb self x y = true <-> in_bounds self x y.
Proof.
  unfold in_boundsb, in_bounds.
  rewrite !andb_true_iff, !Z.leb_le, !Z.ltb_lt. lia.
Qed.

(** The cell of a grid [a] of the board's shape at an in-bounds coordinate,
    and the sentinel outside. *)
Definition grid_at (self : skb_map) (a : list Z) (x y : Z) : Z :=
  if in_boundsb self x y
  then default (-1) (a !! Z.to_nat (x + y * width self))
  else -1.

Definition cell_at (self : skb_map) (x y : Z) : Z :=
  grid_at self (array self) x y.

Lemma index_in_range (self : skb_map) (x y : Z) :
  in_bounds self x y ->
  0 <= x + y * width self < width self * height self.
Proof.
  unfold in_bounds. intros [Hx Hy].
  assert (y * width self <= (height self - 1) * width self) by nia.
  nia.
Qed.

Lemma index_inj (self : skb_map) (x y x' y' : Z) :
  in_bounds self x y -> in_bounds self x' y' ->
  x + y * width self = x' + y' * width self -> x = x' /\ y = y'.
Proof.
  unfold in_bounds. intros [Hx Hy] [Hx' Hy'] Heq.
  destruct (Z.lt_trichotomy y y') as [Hlt|[->|Hlt]].
  - assert ((y + 1) * width self <= y' * width self) by nia. lia.
  - lia.
  - assert ((y' + 1) * width self <= y * width self) by nia. lia.
Qed.

Lemma getitem_grid_at (self : skb_map) (a : list Z) (x y : Z) :
  len a = width self * height self -> in_bounds self x y ->
  getitem a (x + y * width self) = Ok (grid_at self a x y).
Proof.
  intros Hlen Hb. pose proof (index_in_range _ _ _ Hb) as Hi.
  unfold grid_at. apply in_boundsb_spec in Hb as ->.
  destruct (lookup_lt_is_Some_2 a (Z.to_nat (x + y * width self)))
    as [v Hv]; [unfold len in Hlen; lia|].
  rewrite Hv. simpl. apply getitem_nonneg; [lia|exact Hv].
Qed.

Lemma element_in_bounds (self : skb_map) (x y : Z) :
  geometry self -> in_bounds self x y ->
  element self x y = Ok (cell_at self x y).
Proof.
  intros (_ & _ & Hlen) Hb. apply getitem_grid_at; assumption.
Qed.

(** ** C6: a destination is never a dead corner *)

(** C6. For every board and every cell whose value carries the destination
    flag 0x20, [is_dead_corner] answers [False] at that cell, whatever its
    four neighbours are: they are not even read. *)
Theorem is_dead_corner_destination (self : skb_map) (x y e : Z) :
  element self x y = Ok e -> Z.land e 0x20 <> 0 ->
  is_dead_corner self x y = Ok false.
Proof.
  intros He Hd. unfold is_dead_corner. rewrite He. simpl.
  destruct (Z.eqb_spec (Z.land e 32) 0); [contradiction|reflexivity].
Qed.

(** The destination at (4, 1) of board [m] has a wall to its right and a
    wall above. *)
Lemma is_dead_corner_destination_witness :
  (is_wall board_m 5 1 = Ok true /\ is_wall board_m 4 0 = Ok true) /\
  is_dead_corner board_m 4 1 = Ok false.
Proof.
  split; [split; reflexivity|].
  apply (is_dead_corner_destination board_m 4 1 0x21);
    [reflexivity|discriminate].
Defined.

(** ** C5: reads outside the bounds *)

Definition out_of_bounds (self : skb_map) (x y : Z) : Prop :=
  x < 0 \/ x >= width self \/ y < 0 \/ y >= height self.

(** C5 as stated fails: on board [m], one column past the right end of row
    0 is the first cell of row 1, a wall, and one row past the bottom is an
    [IndexError]. *)
Lemma element_out_of_bounds_counterexample :
  ~ (forall (self : skb_map) (x y : Z),
        out_of_bounds self x y -> element self x y = Ok (-1)).
Proof.
  intros H. specialize (H board_m 10 0).
  assert (Hread : element board_m 10 0 = Ok 0) by reflexivity.
  rewrite Hread in H.
  assert (Hne : @Ok Z 0 <> Ok (-1)) by discriminate.
  apply Hne, H. unfold out_of_bounds. simpl. lia.
Qed.

(** C5, amended. [element] checks no bounds.  For a coordinate outside the
    bounds, with [i = x + y * width] and [n = width * height] the number of
    cells: when [-n <= i < n] the read answers the value of the in-bounds
    cell whose flat index is [i mod n], a cell other than [(x, y)]; otherwise
    it raises [IndexError]. *)
Theorem element_out_of_bounds (self : skb_map) (x y : Z) :
  geometry self -> out_of_bounds self x y ->
  let i := x + y * width self in
  let n := width self * height self in
  (- n <= i < n ->
   exists x' y', in_bounds self x' y' /\ (x', y') <> (x, y) /\
     x' + y' * width self = i mod n /\
     element self x y = Ok (cell_at self x' y')) /\
  (~ (- n <= i < n) -> element self x y = Raise IndexError).
Proof.
  intros Hg Hout i n. pose proof Hg as (Hw & Hh & Hlen). split.
  - intros Hi.
    assert (Hn : 0 < n) by lia.
    assert (Hw0 : 0 < width self) by (subst n; nia).
    pose proof (Z.mod_pos_bound i n Hn) as Hm.
    pose proof (Z.div_mod (i mod n) (width self) ltac:(lia)) as Hdm.
    pose proof (Z.mod_pos_bound (i mod n) (width self) Hw0) as Hx.
    assert (Hy : 0 <= (i mod n) / width self < height self).
    { split; [apply Z.div_pos; lia|].
      apply Z.div_lt_upper_bound; [lia|]. subst n. lia. }
    exists ((i mod n) mod width self), ((i mod n) / width self).
    assert (Hb : in_bounds self ((i mod n) mod width self)
                                 ((i mod n) / width self)).
    { split; assumption. }
    split; [exact Hb|]. split.
    { intros Heq. injection Heq as Hx1 Hy1.
      unfold out_of_bounds in Hout. lia. }
    split; [lia|].
    rewrite <- (element_in_bounds _ _ _ Hg Hb). unfold element.
    destruct (getitem_in_range (array self) i) as [v Hv];
      [rewrite Hlen; exact Hi|].
    fold i. rewrite Hv.
    apply getitem_Ok_inv in Hv as [_ Hv]. rewrite Hlen in Hv. fold n in Hv.
    symmetry. apply getitem_nonneg; [lia|].
    replace ((i mod n) mod width self + (i mod n) / width self * width self)
      with (i mod n) by lia.
    exact Hv.
  - intros Hi. unfold element. fold i. apply getitem_out_of_range.
    rewrite Hlen. exact Hi.
Qed.

Lemma element_out_of_bounds_witness :
  geometry board_m /\ out_of_bounds board_m 10 0 /\
  exists x' y', in_bounds board_m x' y' /\ (x', y') <> (10, 0) /\
    x' + y' * width board_m = 10 /\
    element board_m 10 0 = Ok (cell_at board_m x' y').
Proof.
  assert (Hg : geometry board_m)
    by (repeat split; vm_compute; congruence).
  assert (Ho : out_of_bounds board_m 10 0)
    by (right; left; vm_compute; congruence).
  split; [exact Hg|]. split; [exact Ho|].
  destruct (element_out_of_bounds board_m 10 0 Hg Ho) as [H _].
  apply H. split; vm_compute; congruence.
Defined.

(** ** The raster scan *)

(** The coordinates in the order the nested loops visit them. *)
Definition raster (self : skb_map) : list (Z * Z) :=
  flat_map (fun y => List.map (fun x => (x, y)) (range (width self)))
           (range (height self)).

Lemma in_range (n i : Z) : List.In i (range n) <-> 0 <= i < n.
Proof.
  unfold range. rewrite in_map_iff. split.
  - intros (k & <- & Hk). apply in_seq in Hk. lia.
  - intros H. exists (Z.to_nat i). split; [lia|]. apply in_seq. lia.
Qed.

Lemma NoDup_range (n : Z) : List.NoDup (range n).
Proof.
  unfold range. apply Finite.Injective_map_NoDup.
  - intros a b. lia.
  - apply seq_NoDup.
Qed.

Lemma in_raster (self : skb_map) (x y : Z) :
  List.In (x, y) (raster self) <-> in_bounds self x y.
Proof.
  unfold raster, in_bounds. rewrite in_flat_map. split.
  - intros (y' & Hy & Hin). apply in_map_iff in Hin as (x' & Heq & Hx).
    injection Heq as -> ->. apply in_range in Hy, Hx. lia.
  - intros [Hx Hy]. exists y. split; [apply in_range; lia|].
    apply in_map_iff. exists x. split; [reflexivity|apply in_range; lia].
Qed.

Lemma NoDup_raster (self : skb_map) : List.NoDup (raster self).
Proof.
  unfold raster. generalize (NoDup_range (height self)).
  generalize (range (height self)) as ys.
  induction ys as [|y ys IH]; intros Hnd; simpl; [constructor|].
  inversion Hnd as [|? ? Hy Hys]; subst.
  apply List.NoDup_app.
  - apply Finite.Injective_map_NoDup.
    + intros a b Hab. congruence.
    + apply NoDup_range.
  - apply IH. exact Hys.
  - intros [x' y'] Hin1 Hin2.
    apply in_map_iff in Hin1 as (x0 & Heq & _).
    apply in_flat_map in Hin2 as (y0 & Hy0 & Hin2).
    apply in_map_iff in Hin2 as (x1 & Heq1 & _).
    congruence.
Qed.

Lemma foldM_nested {A : Type} (body : Z -> Z -> A -> result A)
  (xs ys : list Z) (acc : A) :
  foldM (fun y t => foldM (fun x t => body x y t) xs t) ys acc =
  foldM (fun c t => body (fst c) (snd c) t)
        (flat_map (fun y => List.map (fun x => (x, y)) xs) ys) acc.
Proof.
  revert acc. induction ys as [|y ys IH]; intros acc; simpl; [reflexivity|].
  rewrite foldM_app.
  assert (Hrow : forall t,
    foldM (fun x t => body x y t) xs t =
    foldM (fun c t => body (fst c) (snd c) t)
          (List.map (fun x => (x, y)) xs) t).
  { clear IH. induction xs as [|x xs IHx]; intros t; simpl; [reflexivity|].
    destruct (body x y t); simpl; auto. }
  rewrite Hrow. destruct (foldM _ (List.map _ xs) acc); simpl; auto.
Qed.

(** A loop whose body checks its item and then updates the accumulator
    runs to the end exactly when every item passes. *)
Lemma foldM_checked {A C : Type} (body : C -> A -> result A)
  (ok : C -> bool) (step : C -> A -> A) (l : list C) :
  (forall c t, List.In c l -> ok c = true -> body c t = Ok (step c t)) ->
  (forall c t, List.In c l -> ok c = false -> exists f, body c t = Exit f) ->
  forall acc,
    (forallb ok l = true ->
     foldM body l acc = Ok (fold_left (fun t c => step c t) l acc)) /\
    (forallb ok l = false -> exists f, foldM body l acc = Exit f).
Proof.
  induction l as [|c l IH]; intros Hok Hbad acc; simpl.
  - split; [reflexivity|discriminate].
  - assert (Hok' : forall c t, List.In c l -> ok c = true ->
                               body c t = Ok (step c t))
      by (intros; apply Hok; [right|]; assumption).
    assert (Hbad' : forall c t, List.In c l -> ok c = false ->
                                exists f, body c t = Exit f)
      by (intros; apply Hbad; [right|]; assumption).
    destruct (ok c) eqn:Hc; simpl.
    + rewrite (Hok c acc (or_introl eq_refl) Hc). simpl.
      apply IH; assumption.
    + split; [discriminate|]. intros _.
      destruct (Hbad c acc (or_introl eq_refl) Hc) as [f Hf].
      exists f. rewrite Hf. reflexivity.
Qed.

(** ** Cell values *)

Definition has_character (e : Z) : bool := negb (Z.land e 0x10 =? 0).
Definition has_dest (e : Z) : bool := negb (Z.land e 0x20 =? 0).
Definition has_box (e : Z) : bool := negb (Z.land e 0x40 =? 0).

(** Neither a wall nor the sentinel. *)
Definition is_open (e : Z) : bool := negb ((e =? 0) || (e =? -1)).

(** What [validate] accepts on an open cell: bit 0, and of the flags only
    character, destination and box. *)
Definition open_value (e : Z) : bool :=
  negb (Z.land e 1 =? 0) && (Z.land e (Z.lnot 0x71) =? 0).

Definition open_values : list Z :=
  [0x01; 0x11; 0x21; 0x31; 0x41; 0x51; 0x61; 0x71].

Lemma forallb_range (P : Z -> bool) (n e : Z) :
  forallb P (range n) = true -> 0 <= e < n -> P e = true.
Proof.
  intros H He. rewrite forallb_forall in H. apply H, in_range, He.
Qed.

Lemma open_value_cases (e : Z) :
  open_value e = true -> List.In e open_values.
Proof.
  intros H. pose proof H as H0. unfold open_value in H0.
  apply andb_true_iff in H0 as [_ Hm]. apply Z.eqb_eq in Hm.
  assert (Hb : 0 <= e < 128).
  { rewrite <- Z.sub_land_same_l in Hm.
    assert (He : e = Z.land e 0x71) by lia.
    assert (Hl : Z.land e (Z.ones 7) = e).
    { rewrite He at 1. rewrite <- Z.land_assoc. exact (eq_sym He). }
    rewrite Z.land_ones in Hl by lia.
    pose proof (Z.mod_pos_bound e (2 ^ 7) ltac:(lia)). lia. }
  assert (Hall : forallb (fun e => implb (open_value e)
                             (existsb (Z.eqb e) open_values))
                         (range 128) = true) by (vm_compute; reflexivity).
  pose proof (forallb_range _ _ _ Hall Hb) as He. cbv beta in He.
  rewrite H in He. change (existsb (Z.eqb e) open_values = true) in He.
  apply existsb_exists in He as (v & Hv & Heq).
  apply Z.eqb_eq in Heq. subst v. exact Hv.
Qed.

(** Case analysis on an accepted cell value. *)
Ltac open_cases H :=
  let Hc := fresh "Hc" in
  pose proof (open_value_cases _ H) as Hc; simpl in Hc;
  repeat (destruct Hc as [Hc|Hc]; [symmetry in Hc|]); [..|contradiction].

Lemma andM_Ok (a b : bool) : andM (Ok a) (Ok b) = Ok (a && b).
Proof. destruct a; reflexivity. Qed.

Lemma orM_Ok (a b : bool) : orM (Ok a) (Ok b) = Ok (a || b).
Proof. destruct a; reflexivity. Qed.

Lemma notM_Ok (a : bool) : notM (Ok a) = Ok (negb a).
Proof. reflexivity. Qed.

(** ** What [validate] checks on a cell *)

Definition wall_at (self : skb_map) (x y : Z) : bool :=
  cell_at self x y =? 0.

Definition dead_corner_at (self : skb_map) (x y : Z) : bool :=
  negb (has_dest (cell_at self x y)) &&
  ((wall_at self (x + 1) y && wall_at self x (y + 1))
   || (wall_at self (x + 1) y && wall_at self x (y - 1))
   || (wall_at self (x - 1) y && wall_at self x (y + 1))
   || (wall_at self (x - 1) y && wall_at self x (y - 1))).

(** Not on the outer border. *)
Definition interior (self : skb_map) (x y : Z) : bool :=
  (0 <? x) && (x <? width self - 1) && (0 <? y) && (y <? height self - 1).

Definition cell_okb (self : skb_map) (x y : Z) : bool :=
  let e := cell_at self x y in
  negb (is_open e) ||
  (open_value e && interior self x y
   && negb (cell_at self (x - 1) y =? -1)
   && negb (cell_at self (x + 1) y =? -1)
   && negb (cell_at self x (y - 1) =? -1)
   && negb (cell_at self x (y + 1) =? -1)
   && negb (has_box e && dead_corner_at self x y)
   && negb (has_character e && has_box e)).

(** What an accepted cell adds to the counters. *)
Definition tally_step (e : Z) (c : Z * Z) (t : tally) : tally :=
  if is_open e then
    mk_tally (total_box t + Z.b2z (has_box e))
             (total_dest t + Z.b2z (has_dest e))
             (total_unsolved t + Z.b2z (has_box e && negb (has_dest e)))
             (total_character t + Z.b2z (has_character e))
             (if has_character e then Some c else tally_character t)
  else t.

Lemma interior_in_bounds (self : skb_map) (x y : Z) :
  interior self x y = true ->
  in_bounds self x y /\ in_bounds self (x + 1) y /\ in_bounds self (x - 1) y
  /\ in_bounds self x (y + 1) /\ in_bounds self x (y - 1).
Proof.
  unfold interior, in_bounds.
  rewrite !andb_true_iff, !Z.ltb_lt. lia.
Qed.

Lemma is_wall_in_bounds (self : skb_map) (x y : Z) :
  geometry self -> in_bounds self x y ->
  is_wall self x y = Ok (wall_at self x y).
Proof.
  intros Hg Hb. unfold is_wall. rewrite element_in_bounds by assumption.
  reflexivity.
Qed.

Lemma is_dead_corner_interior (self : skb_map) (x y : Z) :
  geometry self -> interior self x y = true ->
  is_dead_corner self x y = Ok (dead_corner_at self x y).
Proof.
  intros Hg Hi.
  apply interior_in_bounds in Hi as (H0 & H1 & H2 & H3 & H4).
  unfold is_dead_corner, dead_corner_at, has_dest.
  rewrite element_in_bounds by assumption. simpl.
  destruct (negb (Z.land (cell_at self x y) 32 =? 0)); [reflexivity|].
  rewrite !is_wall_in_bounds by assumption.
  rewrite !andM_Ok, !orM_Ok. simpl.
  rewrite !orb_assoc.
  destruct (_ || _); reflexivity.
Qed.

Lemma validate_cell_ok (self : skb_map) (x y : Z) (t : tally) :
  geometry self -> in_bounds self x y -> cell_okb self x y = true ->
  validate_cell self x y t = Ok (tally_step (cell_at self x y) (x, y) t).
Proof.
  intros Hg Hb Hok. unfold validate_cell, tally_step.
  rewrite element_in_bounds by assumption. simpl.
  unfold cell_okb in Hok. unfold is_open in *.
  destruct ((cell_at self x y =? 0) || (cell_at self x y =? -1)) eqn:Hopen;
    simpl in *; [reflexivity|].
  rewrite !andb_true_iff in Hok.
  destruct Hok as (((((((Hv & Hi) & Hn1) & Hn2) & Hn3) & Hn4) & Hdc) & Hcb).
  pose proof Hi as Hi'.
  apply interior_in_bounds in Hi' as (_ & H1 & H2 & H3 & H4).
  rewrite is_dead_corner_interior by assumption.
  rewrite !element_in_bounds by assumption.
  assert (Hborder : (x =? 0) || (x =? width self - 1) || (y =? 0)
                    || (y =? height self - 1) = false).
  { unfold interior in Hi. rewrite !andb_true_iff, !Z.ltb_lt in Hi.
    rewrite !orb_false_iff, !Z.eqb_neq. lia. }
  rewrite Hborder.
  apply negb_true_iff in Hn1, Hn2, Hn3, Hn4.
  simpl. rewrite Hn1, Hn2, Hn3, Hn4.
  unfold has_box, has_character, has_dest in *.
  destruct t as [tb td tu tc ch].
  open_cases Hv; rewrite Hc in *; simpl in *;
    try discriminate;
    try (apply negb_true_iff in Hdc; rewrite Hdc; simpl);
    f_equal; f_equal; lia.
Qed.

Lemma validate_cell_bad (self : skb_map) (x y : Z) (t : tally) :
  geometry self -> in_bounds self x y -> cell_okb self x y = false ->
  exists f, validate_cell self x y t = Exit f.
Proof.
  intros Hg Hb Hok. unfold validate_cell.
  rewrite element_in_bounds by assumption. simpl.
  unfold cell_okb in Hok. unfold is_open in *.
  destruct ((cell_at self x y =? 0) || (cell_at self x y =? -1)) eqn:Hopen;
    simpl in *; [discriminate|].
  destruct (open_value (cell_at self x y)) eqn:Hv.
  2:{ unfold open_value in Hv.
      destruct (Z.land (cell_at self x y) 1 =? 0); simpl in *;
        [eauto|]. rewrite Hv. simpl. eauto. }
  assert (Hv1 : (Z.land (cell_at self x y) 1 =? 0)
                || negb (Z.land (cell_at self x y) (Z.lnot 113) =? 0) = false).
  { unfold open_value in Hv. apply andb_true_iff in Hv as [Ha Hb'].
    apply negb_true_iff in Ha. rewrite Ha, Hb'. reflexivity. }
  rewrite Hv1.
  destruct (interior self x y) eqn:Hi.
  2:{ assert (Hborder : (x =? 0) || (x =? width self - 1) || (y =? 0)
                        || (y =? height self - 1) = true).
      { unfold interior in Hi. unfold in_bounds in Hb.
        rewrite !andb_false_iff, !Z.ltb_ge in Hi.
        rewrite !orb_true_iff, !Z.eqb_eq. lia. }
      rewrite Hborder. eauto. }
  assert (Hborder : (x =? 0) || (x =? width self - 1) || (y =? 0)
                    || (y =? height self - 1) = false).
  { unfold interior in Hi. rewrite !andb_true_iff, !Z.ltb_lt in Hi.
    rewrite !orb_false_iff, !Z.eqb_neq. lia. }
  rewrite Hborder.
  pose proof Hi as Hi'.
  apply interior_in_bounds in Hi' as (_ & H1 & H2 & H3 & H4).
  rewrite is_dead_corner_interior by assumption.
  rewrite !element_in_bounds by assumption.
  simpl in Hok. unfold has_box, has_character, has_dest in *.
  unfold andM, orM. simpl.
  destruct (cell_at self (x - 1) y =? -1), (cell_at self (x + 1) y =? -1),
    (cell_at self x (y - 1) =? -1), (cell_at self x (y + 1) =? -1);
    open_cases Hv; rewrite Hc in *; simpl in *; eauto;
    try discriminate;
    destruct (dead_corner_at self x y); simpl in *; eauto; discriminate.
Qed.

(** ** The totals of the scan *)

Definition cells_ok (self : skb_map) : bool :=
  forallb (fun c => cell_okb self (fst c) (snd c)) (raster self).

(** The counters after a scan in which every cell passed. *)
Definition tally_from (val : Z * Z -> Z) (l : list (Z * Z)) (t : tally)
  : tally :=
  fold_left (fun t c => tally_step (val c) c t) l t.

Definition tally_of (self : skb_map) : tally :=
  tally_from (fun c => cell_at self (fst c) (snd c)) (raster self) tally0.

Lemma validate_scan_ok (self : skb_map) :
  geometry self -> cells_ok self = true ->
  validate_scan self = Ok (tally_of self).
Proof.
  intros Hg Hok. unfold validate_scan. rewrite foldM_nested.
  fold (raster self).
  eapply (foldM_checked _ (fun c => cell_okb self (fst c) (snd c))
            (fun c t => tally_step (cell_at self (fst c) (snd c)) c t));
    [| |exact Hok].
  - intros [x y] t Hin Hc. simpl in *.
    apply validate_cell_ok; [assumption|apply in_raster; assumption|assumption].
  - intros [x y] t Hin Hc. simpl in *.
    apply validate_cell_bad;
      [assumption|apply in_raster; assumption|assumption].
Qed.

Lemma validate_scan_bad (self : skb_map) :
  geometry self -> cells_ok self = false ->
  exists f, validate_scan self = Exit f.
Proof.
  intros Hg Hok. unfold validate_scan. rewrite foldM_nested.
  fold (raster self).
  eapply (foldM_checked _ (fun c => cell_okb self (fst c) (snd c))
            (fun c t => tally_step (cell_at self (fst c) (snd c)) c t));
    [| |exact Hok].
  - intros [x y] t Hin Hc. simpl in *.
    apply validate_cell_ok; [assumption|apply in_raster; assumption|assumption].
  - intros [x y] t Hin Hc. simpl in *.
    apply validate_cell_bad;
      [assumption|apply in_raster; assumption|assumption].
Qed.

Lemma cells_ok_spec (self : skb_map) :
  cells_ok self = true <->
  forall x y, in_bounds self x y -> cell_okb self x y = true.
Proof.
  unfold cells_ok. rewrite forallb_forall. split.
  - intros H x y Hb. apply (H (x, y)), in_raster, Hb.
  - intros H [x y] Hin. apply H, in_raster, Hin.
Qed.

Section Sums.
Context {C : Type}.

Fixpoint sumZ (f : C -> Z) (l : list C) : Z :=
  match l with
  | [] => 0
  | c :: l' => f c + sumZ f l'
  end.

Lemma sumZ_nonneg (f : C -> Z) (l : list C) :
  (forall c, 0 <= f c) -> 0 <= sumZ f l.
Proof.
  intros Hf. induction l as [|c l IH]; simpl; [lia|].
  specialize (Hf c). lia.
Qed.

Lemma sumZ_ge (f : C -> Z) (l : list C) (c0 : C) :
  (forall c, 0 <= f c) -> List.In c0 l -> f c0 <= sumZ f l.
Proof.
  intros Hf. induction l as [|c l IH]; simpl; [contradiction|].
  intros [->|Hin].
  - pose proof (sumZ_nonneg f l Hf). lia.
  - specialize (IH Hin). specialize (Hf c). lia.
Qed.

Lemma sumZ_ext (f g : C -> Z) (l : list C) :
  (forall c, List.In c l -> g c = f c) -> sumZ g l = sumZ f l.
Proof.
  induction l as [|c l IH]; simpl; intros H; [reflexivity|].
  rewrite (H c (or_introl eq_refl)), IH; [reflexivity|].
  intros c' Hc'. apply H. right. exact Hc'.
Qed.

(** Changing the summand at one item of a duplicate-free list. *)
Lemma sumZ_update (f g : C -> Z) (l : list C) (c0 : C) :
  List.NoDup l -> List.In c0 l ->
  (forall c, List.In c l -> c <> c0 -> g c = f c) ->
  sumZ g l = sumZ f l - f c0 + g c0.
Proof.
  induction l as [|c l IH]; simpl; intros Hnd Hin Hext; [contradiction|].
  inversion Hnd as [|? ? Hc Hl]; subst.
  destruct Hin as [->|Hin].
  - rewrite (sumZ_ext f g l); [lia|].
    intros c Hcl. apply Hext; [right; exact Hcl|].
    intros ->. contradiction.
  - rewrite IH; [|assumption|assumption|].
    + rewrite (Hext c); [lia|left; reflexivity|].
      intros ->. contradiction.
    + intros c' Hc' Hne. apply Hext; [right; exact Hc'|exact Hne].
Qed.

(** When the total is the value at one item, every other summand is 0. *)
Lemma sumZ_unique (f : C -> Z) (l : list C) (c0 c : C) :
  (forall c, 0 <= f c) -> List.NoDup l ->
  List.In c0 l -> sumZ f l = f c0 -> List.In c l -> c <> c0 -> f c = 0.
Proof.
  intros Hf. induction l as [|c1 l IH]; simpl; intros Hnd Hin0 Hsum Hin Hne;
    [contradiction|].
  inversion Hnd as [|? ? Hc1 Hl]; subst.
  pose proof (sumZ_nonneg f l Hf) as Hnn.
  destruct Hin0 as [->|Hin0].
  - destruct Hin as [->|Hin]; [contradiction|].
    pose proof (sumZ_ge f l c Hf Hin). specialize (Hf c). lia.
  - pose proof (sumZ_ge f l c0 Hf Hin0) as Hge.
    pose proof (Hf c1) as Hf1.
    destruct Hin as [->|Hin]; [lia|].
    apply IH; try assumption. lia.
Qed.
End Sums.

Definition boxv (e : Z) : Z := if is_open e then Z.b2z (has_box e) else 0.
Definition destv (e : Z) : Z := if is_open e then Z.b2z (has_dest e) else 0.
Definition unsolvedv (e : Z) : Z :=
  if is_open e then Z.b2z (has_box e && negb (has_dest e)) else 0.
Definition charv (e : Z) : Z :=
  if is_open e then Z.b2z (has_character e) else 0.

(** The coordinate that [validate] leaves in its local [character]. *)
Fixpoint last_character (val : Z * Z -> Z) (l : list (Z * Z))
  (acc : option (Z * Z)) : option (Z * Z) :=
  match l with
  | [] => acc
  | c :: l' =>
      last_character val l' (if charv (val c) =? 1 then Some c else acc)
  end.

Lemma b2z_range (b : bool) : 0 <= Z.b2z b <= 1.
Proof. destruct b; simpl; lia. Qed.

Lemma charv_range (e : Z) : 0 <= charv e <= 1.
Proof. unfold charv. destruct (is_open e); [apply b2z_range|lia]. Qed.

Lemma tally_from_spec (val : Z * Z -> Z) (l : list (Z * Z)) (t : tally) :
  tally_from val l t =
  mk_tally (total_box t + sumZ (fun c => boxv (val c)) l)
           (total_dest t + sumZ (fun c => destv (val c)) l)
           (total_unsolved t + sumZ (fun c => unsolvedv (val c)) l)
           (total_character t + sumZ (fun c => charv (val c)) l)
           (last_character val l (tally_character t)).
Proof.
  revert t. unfold tally_from.
  induction l as [|c l IH]; intros t; simpl.
  - destruct t; simpl. f_equal; lia.
  - rewrite IH. unfold tally_step, boxv, destv, unsolvedv, charv.
    destruct (is_open (val c)); simpl.
    + f_equal; try lia. destruct (has_character (val c)); reflexivity.
    + f_equal; lia.
Qed.

Lemma last_character_none (val : Z * Z -> Z) (l : list (Z * Z))
  (acc : option (Z * Z)) :
  (forall c, List.In c l -> charv (val c) = 0) ->
  last_character val l acc = acc.
Proof.
  revert acc. induction l as [|c l IH]; intros acc H; simpl; [reflexivity|].
  rewrite (H c (or_introl eq_refl)). simpl. apply IH.
  intros c' Hc'. apply H. right. exact Hc'.
Qed.

Lemma last_character_unique (val : Z * Z -> Z) (l : list (Z * Z))
  (acc : option (Z * Z)) (c0 : Z * Z) :
  List.NoDup l -> List.In c0 l -> charv (val c0) = 1 ->
  sumZ (fun c => charv (val c)) l = 1 ->
  last_character val l acc = Some c0.
Proof.
  intros Hnd Hin Hc0 Hsum.
  assert (Hz : forall c, List.In c l -> c <> c0 -> charv (val c) = 0).
  { intros c Hc Hne.
    apply (sumZ_unique (fun c => charv (val c)) l c0 c); try assumption.
    - intros c'. apply charv_range.
    - simpl. lia. }
  clear Hsum. revert acc.
  induction l as [|c l IH]; intros acc; simpl; [contradiction|].
  inversion Hnd as [|? ? Hc Hl]; subst.
  destruct Hin as [->|Hin].
  - rewrite Hc0. simpl. apply last_character_none.
    intros c Hcl. apply Hz; [right; exact Hcl|]. intros ->. contradiction.
  - rewrite (Hz c); [|left; reflexivity|intros ->; contradiction]. simpl.
    apply IH; try assumption.
    intros c' Hc' Hne. apply Hz; [right; exact Hc'|exact Hne].
Qed.

Lemma last_character_in (val : Z * Z -> Z) (l : list (Z * Z))
  (c : Z * Z) :
  last_character val l None = Some c -> List.In c l /\ charv (val c) = 1.
Proof.
  assert (H : forall acc,
    last_character val l acc = Some c ->
    (List.In c l /\ charv (val c) = 1) \/ acc = Some c).
  { induction l as [|c1 l IH]; intros acc Hl; simpl in *; [right; exact Hl|].
    apply IH in Hl as [[Hin Hv]|Hl]; [left; split; [right|]; assumption|].
    destruct (Z.eqb_spec (charv (val c1)) 1) as [H1|H1].
    - injection Hl as ->. left. split; [left; reflexivity|exact H1].
    - right. exact Hl. }
  intros Hl. apply H in Hl as [Hl|Hl]; [exact Hl|discriminate].
Qed.

(** ** What [validate] accepts *)

Definition totals_ok (t : tally) : Prop :=
  total_character t = 1 /\ total_box t <> 0 /\ total_box t = total_dest t.

Definition cached_ok (self : skb_map) (t : tally) : Prop :=
  box self = total_box t /\ dest self = total_dest t /\
  unsolved self = total_unsolved t /\ character self = tally_character t.

Lemma validate_not_ok (no_update : bool) (self : skb_map) :
  geometry self -> cells_ok self = false ->
  exists f, validate no_update self = Exit f.
Proof.
  intros Hg Hc. destruct (validate_scan_bad self Hg Hc) as [f Hf].
  exists f. unfold validate. rewrite Hf. reflexivity.
Qed.

Lemma validate_outcome (no_update : bool) (self : skb_map) :
  geometry self ->
  (exists b, validate no_update self = Ok b) \/
  (exists f, validate no_update self = Exit f).
Proof.
  intros Hg. destruct (cells_ok self) eqn:Hc.
  - unfold validate. rewrite (validate_scan_ok self Hg Hc). simpl.
    repeat match goal with
           | |- context [if ?b then _ else _] => destruct b
           end; eauto.
  - right. apply validate_not_ok; assumption.
Qed.

Lemma validate_true_Ok (self : skb_map) :
  geometry self ->
  validate true self = Ok self <->
  cells_ok self = true /\ totals_ok (tally_of self) /\
  cached_ok self (tally_of self).
Proof.
  intros Hg. unfold totals_ok, cached_ok. split.
  - intros Hv. destruct (cells_ok self) eqn:Hc.
    2:{ destruct (validate_not_ok true self Hg Hc) as [f Hf]. congruence. }
    split; [reflexivity|]. unfold validate in Hv.
    rewrite (validate_scan_ok self Hg Hc) in Hv. simpl in Hv.
    destruct (Z.eqb_spec (total_character (tally_of self)) 1);
      simpl in Hv; [|discriminate].
    destruct (Z.eqb_spec (total_box (tally_of self)) 0); [discriminate|].
    destruct (Z.eqb_spec (total_box (tally_of self))
                (total_dest (tally_of self))); simpl in Hv; [|discriminate].
    destruct (Z.eqb_spec (box self) (total_box (tally_of self)));
      simpl in Hv; [|discriminate].
    destruct (Z.eqb_spec (dest self) (total_dest (tally_of self)));
      simpl in Hv; [|discriminate].
    destruct (Z.eqb_spec (unsolved self) (total_unsolved (tally_of self)));
      simpl in Hv; [|discriminate].
    destruct (bool_decide_reflect
                (character self = tally_character (tally_of self)));
      simpl in Hv; [|discriminate].
    repeat split; assumption.
  - intros (Hc & (H1 & H2 & H3) & (H4 & H5 & H6 & H7)).
    unfold validate. rewrite (validate_scan_ok self Hg Hc). simpl.
    apply Z.eqb_eq in H1, H3, H4, H5, H6. apply Z.eqb_neq in H2.
    rewrite H1, H2, H3, H4, H5, H6. simpl.
    rewrite bool_decide_eq_true_2 by assumption. reflexivity.
Qed.

Lemma validate_true_same (self b : skb_map) :
  validate true self = Ok b -> b = self.
Proof.
  unfold validate. intros H. apply bind_Ok in H as (t & _ & H).
  repeat match type of H with
         | (if ?c then _ else _) = _ => destruct c; try discriminate
         end.
  congruence.
Qed.

Lemma validate_false_Ok (self b : skb_map) :
  geometry self ->
  validate false self = Ok b <->
  cells_ok self = true /\ totals_ok (tally_of self) /\
  b = set_counts self (total_box (tally_of self))
        (total_dest (tally_of self)) (total_unsolved (tally_of self))
        (tally_character (tally_of self)).
Proof.
  intros Hg. unfold totals_ok. split.
  - intros Hv. destruct (cells_ok self) eqn:Hc.
    2:{ destruct (validate_not_ok false self Hg Hc) as [f Hf]. congruence. }
    split; [reflexivity|]. unfold validate in Hv.
    rewrite (validate_scan_ok self Hg Hc) in Hv. simpl in Hv.
    destruct (Z.eqb_spec (total_character (tally_of self)) 1);
      simpl in Hv; [|discriminate].
    destruct (Z.eqb_spec (total_box (tally_of self)) 0); [discriminate|].
    destruct (Z.eqb_spec (total_box (tally_of self))
                (total_dest (tally_of self))); simpl in Hv; [|discriminate].
    injection Hv as <-. repeat split; assumption.
  - intros (Hc & (H1 & H2 & H3) & ->).
    unfold validate. rewrite (validate_scan_ok self Hg Hc). simpl.
    apply Z.eqb_eq in H1, H3. apply Z.eqb_neq in H2.
    rewrite H1, H2, H3. reflexivity.
Qed.

(** ** Construction from the input grid *)

(** The cell the input grid gives at column [x] of row [y], when the row has
    one. *)
Definition input_at (mapl : list (list Z)) (x y : Z) : option Z :=
  if (0 <=? x) && (0 <=? y)
  then match mapl !! Z.to_nat y with
       | Some row => row !! Z.to_nat x
       | None => None
       end
  else None.

Lemma widest_ge_acc (mapl : list (list Z)) (w0 : Z) :
  w0 <= fold_left (fun w i => if len i >? w then len i else w) mapl w0.
Proof.
  revert w0. induction mapl as [|r mapl IH]; intros w0; simpl; [lia|].
  specialize (IH (if len r >? w0 then len r else w0)).
  destruct (Z.gtb_spec (len r) w0); lia.
Qed.

Lemma widest_ge (mapl : list (list Z)) (r : list Z) :
  List.In r mapl -> len r <= widest mapl.
Proof.
  unfold widest. generalize 0 as w0.
  induction mapl as [|r1 mapl IH]; intros w0; simpl; [contradiction|].
  intros [->|Hin].
  - pose proof (widest_ge_acc mapl (if len r >? w0 then len r else w0)).
    destruct (Z.gtb_spec (len r) w0); lia.
  - apply IH, Hin.
Qed.

Lemma widest_nonneg (mapl : list (list Z)) : 0 <= widest mapl.
Proof. apply widest_ge_acc. Qed.

Lemma padded_length (w : Z) (r : list Z) :
  len r <= w -> length (r ++ replicate (Z.to_nat (w - len r)) (-1))
                = Z.to_nat w.
Proof.
  intros H. rewrite length_app, length_replicate. unfold len in *. lia.
Qed.

Lemma flatten_rows_length (w : Z) (mapl : list (list Z)) :
  (forall r, List.In r mapl -> len r <= w) ->
  length (flatten_rows w mapl) = (length mapl * Z.to_nat w)%nat.
Proof.
  unfold flatten_rows. induction mapl as [|r mapl IH]; intros H; simpl;
    [reflexivity|].
  rewrite length_app, IH by (intros; apply H; right; assumption).
  rewrite padded_length by (apply H; left; reflexivity). lia.
Qed.

Lemma flatten_rows_lookup (w : Z) (mapl : list (list Z)) (j i : nat)
  (r : list Z) :
  (forall r, List.In r mapl -> len r <= w) ->
  mapl !! j = Some r -> (i < Z.to_nat w)%nat ->
  flatten_rows w mapl !! (i + j * Z.to_nat w)%nat =
  (r ++ replicate (Z.to_nat (w - len r)) (-1)) !! i.
Proof.
  unfold flatten_rows. revert j.
  induction mapl as [|r1 mapl IH]; intros j H Hj Hi; [discriminate|].
  simpl. destruct j as [|j]; simpl in *.
  - injection Hj as ->. rewrite Nat.add_0_r.
    apply lookup_app_l. rewrite padded_length; [lia|].
    apply H. left. reflexivity.
  - rewrite lookup_app_r
      by (rewrite padded_length; [lia|apply H; left; reflexivity]).
    rewrite padded_length by (apply H; left; reflexivity).
    replace (i + (Z.to_nat w + j * Z.to_nat w) - Z.to_nat w)%nat
      with (i + j * Z.to_nat w)%nat by lia.
    apply IH; [intros; apply H; right; assumption|assumption|assumption].
Qed.

(** The board [__init__] hands to [validate]. *)
Definition unvalidated (mapl : list (list Z)) : skb_map :=
  mk_skb_map (len mapl) (widest mapl) (flatten_rows (widest mapl) mapl)
             0 0 0 None [].

Lemma unvalidated_geometry (mapl : list (list Z)) :
  geometry (unvalidated mapl).
Proof.
  unfold geometry, unvalidated; simpl.
  split; [apply widest_nonneg|]. split; [unfold len; lia|].
  unfold len. rewrite flatten_rows_length by apply widest_ge.
  pose proof (widest_nonneg mapl). lia.
Qed.

(** The cells of the grid are the cells of the board. *)
Lemma unvalidated_cell (mapl : list (list Z)) (x y v : Z) :
  input_at mapl x y = Some v ->
  in_bounds (unvalidated mapl) x y /\ cell_at (unvalidated mapl) x y = v.
Proof.
  unfold input_at. intros H.
  destruct (Z.leb_spec 0 x); [|discriminate].
  destruct (Z.leb_spec 0 y); [|discriminate]. simpl in H.
  destruct (mapl !! Z.to_nat y) as [r|] eqn:Hr; [|discriminate].
  pose proof (lookup_lt_Some _ _ _ Hr) as Hy.
  pose proof (lookup_lt_Some _ _ _ H) as Hx.
  assert (Hin : List.In r mapl)
    by (apply list_elem_of_In, list_elem_of_lookup; eauto).
  pose proof (widest_ge _ _ Hin) as Hw. unfold len in Hw.
  assert (Hb : in_bounds (unvalidated mapl) x y)
    by (unfold in_bounds, unvalidated, len; simpl; lia).
  split; [exact Hb|].
  unfold cell_at, grid_at. apply in_boundsb_spec in Hb as ->.
  simpl.
  replace (Z.to_nat (x + y * widest mapl))
    with (Z.to_nat x + Z.to_nat y * Z.to_nat (widest mapl))%nat by nia.
  rewrite (flatten_rows_lookup _ _ _ _ r) by (try apply widest_ge; auto; lia).
  rewrite lookup_app_l by lia. rewrite H. reflexivity.
Qed.

(** ** C7: a box in a dead corner is rejected at construction *)

Lemma flatten_rows_c_int (w : Z) (mapl : list (list Z)) :
  forallb is_c_int (flatten_rows w mapl) = forallb (forallb is_c_int) mapl.
Proof.
  unfold flatten_rows. induction mapl as [|i mapl IH]; simpl; [reflexivity|].
  rewrite !forallb_app, IH. f_equal.
  assert (Hpad : forall n, forallb is_c_int (replicate n (-1)) = true).
  { induction n as [|n IHn]; simpl; [reflexivity|exact IHn]. }
  rewrite Hpad. apply andb_true_r.
Qed.

(** C7. When the input grid has a box on a cell that is not a destination
    and that has a wall on one horizontal side and a wall on one vertical
    side, construction produces no board.  When every cell of the grid fits
    the array's C ints, [validate] exits with a reason: the unmovable box,
    or a defect of the grid it meets earlier.  Otherwise building the array
    already raised [OverflowError]. *)
Theorem dead_corner_box_rejected (mapl : list (list Z)) (x y e : Z) :
  input_at mapl x y = Some e ->
  has_box e = true -> has_dest e = false ->
  (input_at mapl (x + 1) y = Some 0 \/ input_at mapl (x - 1) y = Some 0) ->
  (input_at mapl x (y + 1) = Some 0 \/ input_at mapl x (y - 1) = Some 0) ->
  (forall b, skb_map_init mapl <> Ok b) /\
  (forallb (forallb is_c_int) mapl = true ->
   exists f, skb_map_init mapl = Exit f) /\
  (forallb (forallb is_c_int) mapl = false ->
   skb_map_init mapl = Raise OverflowError).
Proof.
  intros He Hbox Hdest Hh Hv. unfold skb_map_init, array_of_list.
  rewrite flatten_rows_c_int.
  destruct (forallb (forallb is_c_int) mapl);
    [|repeat split; try discriminate; reflexivity].
  simpl. fold (unvalidated mapl).
  pose proof (unvalidated_geometry mapl) as Hg.
  assert (Hbad : cells_ok (unvalidated mapl) = false).
  { destruct (cells_ok (unvalidated mapl)) eqn:Hc; [|reflexivity].
    exfalso. rewrite cells_ok_spec in Hc.
    apply unvalidated_cell in He as [Hb Hcell].
    specialize (Hc x y Hb). unfold cell_okb in Hc. rewrite Hcell in Hc.
    assert (Hopen : is_open e = true).
    { unfold is_open, has_box, has_dest in *.
      destruct (Z.eqb_spec e 0) as [->|]; [discriminate|].
      destruct (Z.eqb_spec e (-1)) as [->|]; [discriminate|reflexivity]. }
    rewrite Hopen, Hbox in Hc. simpl in Hc.
    assert (Hdc : dead_corner_at (unvalidated mapl) x y = true).
    { unfold dead_corner_at, wall_at. rewrite Hcell, Hdest. simpl.
      destruct Hh as [Hh|Hh], Hv as [Hv|Hv];
        apply unvalidated_cell in Hh as [_ ->];
        apply unvalidated_cell in Hv as [_ ->]; simpl;
        rewrite ?orb_true_r; reflexivity. }
    rewrite Hdc in Hc. simpl in Hc.
    rewrite !andb_false_r in Hc. discriminate. }
  destruct (validate_not_ok false _ Hg Hbad) as [f Hf].
  rewrite Hf. simpl.
  split; [discriminate|]. split; [eauto|discriminate].
Qed.

(** Board [m] with the box of row 4 moved into the corner at (5, 4), which
    has a wall to the right and a wall above. *)
Lemma dead_corner_box_rejected_witness :
  let g := <[4%nat := [0; 1; 0; 1; 1; 0x41; 0; 0]]> m in
  input_at g 5 4 = Some 0x41 /\
  skb_map_init g = Exit (UnmovableBox 5 4) /\
  forall b, skb_map_init g <> Ok b.
Proof.
  split; [reflexivity|]. split; [reflexivity|].
  apply (dead_corner_box_rejected
           (<[4%nat := [0; 1; 0; 1; 1; 0x41; 0; 0]]> m) 5 4 0x41);
    [reflexivity|reflexivity|reflexivity|left; reflexivity
    |right; reflexivity].
Defined.

(** ** Writing one cell of a grid *)

Lemma setitem_grid (self : skb_map) (g : list Z) (x y v : Z) :
  len g = width self * height self -> in_bounds self x y ->
  is_c_int v = true ->
  exists g', setitem g (x + y * width self) v = Ok g' /\
    len g' = len g /\
    grid_at self g' x y = v /\
    (forall x' y', in_bounds self x' y' -> (x', y') <> (x, y) ->
                   grid_at self g' x' y' = grid_at self g x' y').
Proof.
  intros Hlen Hb Hv. pose proof (index_in_range _ _ _ Hb) as Hi.
  exists (<[Z.to_nat (x + y * width self) := v]> g).
  unfold setitem. rewrite Hv.
  destruct (Z.ltb_spec (x + y * width self) 0); [lia|].
  destruct (Z.leb_spec 0 (x + y * width self)); [|lia].
  destruct (Z.ltb_spec (x + y * width self) (len g)); [|lia].
  simpl. split; [reflexivity|].
  split; [unfold len; rewrite length_insert; reflexivity|].
  split.
  - unfold grid_at. apply in_boundsb_spec in Hb as ->.
    rewrite list_lookup_insert_eq by (unfold len in Hlen; lia). reflexivity.
  - intros x' y' Hb' Hne. unfold grid_at.
    pose proof Hb' as Hbb. apply in_boundsb_spec in Hbb as ->.
    rewrite list_lookup_insert_ne; [reflexivity|].
    pose proof (index_in_range _ _ _ Hb') as Hi'.
    intros Heq. apply Hne.
    destruct (index_inj self x y x' y' Hb Hb') as [-> ->]; [lia|reflexivity].
Qed.

(** Two grids of the board's shape with the same cells are the same. *)
Lemma grid_ext (self : skb_map) (g1 g2 : list Z) :
  0 <= width self -> 0 <= height self ->
  len g1 = width self * height self -> len g2 = width self * height self ->
  (forall x y, in_bounds self x y ->
               grid_at self g1 x y = grid_at self g2 x y) ->
  g1 = g2.
Proof.
  intros Hw Hh H1 H2 Hext. apply list_eq. intros i.
  destruct (decide (i < length g1)%nat) as [Hi|Hi].
  - assert (Hw0 : 0 < width self) by (unfold len in H1; nia).
    pose proof (Z.div_mod (Z.of_nat i) (width self) ltac:(lia)) as Hdm.
    pose proof (Z.mod_pos_bound (Z.of_nat i) (width self) Hw0) as Hx.
    assert (Hy : 0 <= Z.of_nat i / width self < height self).
    { split; [apply Z.div_pos; lia|].
      apply Z.div_lt_upper_bound; [lia|]. unfold len in H1. lia. }
    assert (Hb : in_bounds self (Z.of_nat i mod width self)
                                 (Z.of_nat i / width self))
      by (split; assumption).
    specialize (Hext _ _ Hb). unfold grid_at in Hext.
    apply in_boundsb_spec in Hb. rewrite Hb in Hext.
    replace (Z.to_nat (Z.of_nat i mod width self
                       + Z.of_nat i / width self * width self))
      with i in Hext by lia.
    destruct (lookup_lt_is_Some_2 g1 i) as [v1 Hv1]; [lia|].
    destruct (lookup_lt_is_Some_2 g2 i) as [v2 Hv2];
      [unfold len in *; lia|].
    rewrite Hv1, Hv2 in *. simpl in Hext. congruence.
  - rewrite !lookup_ge_None_2; [reflexivity| |]; unfold len in *; lia.
Qed.

(** ** The flood fill *)

Definition neighbours (c : Z * Z) : list (Z * Z) :=
  [(fst c + 1, snd c); (fst c - 1, snd c); (fst c, snd c + 1);
   (fst c, snd c - 1)].

(** A cell the character can stand on: open and without a box. *)
Definition free (self : skb_map) (c : Z * Z) : bool :=
  is_open (cell_at self (fst c) (snd c))
  && negb (has_box (cell_at self (fst c) (snd c))).

(** The cells the character can walk to: its own cell, and the free
    neighbours of such cells. *)
Inductive connected (self : skb_map) : Z * Z -> Prop :=
| connected_start (c : Z * Z) :
    character self = Some c -> connected self c
| connected_step (c c' : Z * Z) :
    connected self c -> List.In c' (neighbours c) -> free self c' = true ->
    connected self c'.

(** What [resolve_reachable] needs of the board: the structure [validate]
    checks, and the character on an open cell. *)
Record fillable (self : skb_map) (c0 : Z * Z) : Prop := mk_fillable {
  fillable_geometry : geometry self;
  fillable_cells : cells_ok self = true;
  fillable_character : character self = Some c0;
  fillable_bounds : in_bounds self (fst c0) (snd c0);
  fillable_open : is_open (cell_at self (fst c0) (snd c0)) = true
}.

Lemma cell_at_outside (self : skb_map) (x y : Z) :
  ~ in_bounds self x y -> cell_at self x y = -1.
Proof.
  intros H. unfold cell_at, grid_at.
  destruct (in_boundsb self x y) eqn:Hb; [|reflexivity].
  apply in_boundsb_spec in Hb. contradiction.
Qed.

Lemma is_open_in_bounds (self : skb_map) (x y : Z) :
  is_open (cell_at self x y) = true -> in_bounds self x y.
Proof.
  intros H. destruct (in_boundsb self x y) eqn:Hb;
    [apply in_boundsb_spec; exact Hb|].
  unfold cell_at, grid_at in H. rewrite Hb in H. discriminate.
Qed.

(** On a board whose cells pass the checks, an open cell has an accepted
    value, lies off the border and has no sentinel next to it. *)
Lemma open_cell_facts (self : skb_map) (x y : Z) :
  cells_ok self = true -> is_open (cell_at self x y) = true ->
  open_value (cell_at self x y) = true /\ interior self x y = true /\
  (forall c, List.In c (neighbours (x, y)) ->
             cell_at self (fst c) (snd c) <> -1).
Proof.
  intros Hc Ho. pose proof (is_open_in_bounds _ _ _ Ho) as Hb.
  rewrite cells_ok_spec in Hc. specialize (Hc x y Hb).
  unfold cell_okb in Hc. rewrite Ho in Hc. simpl in Hc.
  rewrite !andb_true_iff in Hc.
  destruct Hc as (((((((Hv & Hi) & Hn1) & Hn2) & Hn3) & Hn4) & _) & _).
  split; [exact Hv|]. split; [exact Hi|].
  apply negb_true_iff, Z.eqb_neq in Hn1, Hn2, Hn3, Hn4.
  intros c [<-|[<-|[<-|[<-|[]]]]]; simpl; assumption.
Qed.

(** The cell [e] as the fill holds it: the character flag cleared on the
    character's cell, the reachable flag set once visited. *)
Definition fill_value (e : Z) (start marked : bool) : Z :=
  let b := if start then Z.land e (Z.lnot 0x10) else e in
  if marked then Z.lor b 0x80 else b.

Lemma passable_value (e : Z) (start marked : bool) :
  open_value e = true ->
  negb (fill_value e start marked =? 0)
  && (Z.land (fill_value e start marked) 0x40 =? 0)
  && (Z.land (fill_value e start marked) 0x80 =? 0)
  = negb (has_box e) && negb marked.
Proof.
  intros Hv. open_cases Hv; subst e; destruct start, marked; reflexivity.
Qed.

Lemma fill_value_c_int (e : Z) (start : bool) :
  open_value e = true ->
  is_c_int (Z.land e (Z.lnot 0x10)) = true /\
  is_c_int (Z.lor (fill_value e start false) 0x80) = true.
Proof.
  intros Hv. open_cases Hv; subst e; destruct start; split; reflexivity.
Qed.

Section Fill.
Variable self : skb_map.
Variable c0 : Z * Z.
Hypothesis Hfill : fillable self c0.

(** The grid once the cells of [marked] have been visited. *)
Definition marked_value (marked : gset (Z * Z)) (c : Z * Z) : Z :=
  fill_value (cell_at self (fst c) (snd c)) (bool_decide (c = c0))
             (bool_decide (c ∈ marked)).

Definition grid_is (marked : gset (Z * Z)) (g : list Z) : Prop :=
  len g = width self * height self /\
  forall x y, in_bounds self x y ->
              grid_at self g x y = marked_value marked (x, y).

Record fill_inv (marked : gset (Z * Z)) (st : fill) : Prop := mk_fill_inv {
  inv_grid : grid_is marked (grid st);
  inv_disjoint : forall c, c ∈ todo st -> c ∉ marked;
  inv_connected : forall c, c ∈ marked \/ c ∈ todo st -> connected self c;
  inv_start : c0 ∈ marked \/ c0 ∈ todo st;
  inv_closed : forall c c', c ∈ marked -> List.In c' (neighbours c) ->
                 free self c' = true -> c' ∈ marked \/ c' ∈ todo st
}.

Lemma connected_open (c : Z * Z) :
  connected self c -> is_open (cell_at self (fst c) (snd c)) = true.
Proof.
  intros H. induction H as [c Hc|c c' _ _ _ Hfree].
  - rewrite (fillable_character _ _ Hfill) in Hc. injection Hc as <-.
    apply (fillable_open _ _ Hfill).
  - unfold free in Hfree. apply andb_true_iff in Hfree as [Ho _]. exact Ho.
Qed.

(** The test of [check_xy] on the grid: a free cell not yet marked. *)
Definition enqueue (marked : gset (Z * Z)) (n : Z * Z)
  (td : gset (Z * Z)) : gset (Z * Z) :=
  if free self n && bool_decide (n ∉ marked) then {[ n ]} ∪ td else td.

Lemma elem_of_enqueue (marked td : gset (Z * Z)) (n c : Z * Z) :
  c ∈ enqueue marked n td <->
  c ∈ td \/ (c = n /\ free self n = true /\ n ∉ marked).
Proof.
  unfold enqueue. destruct (free self n); simpl.
  - destruct (bool_decide_reflect (n ∉ marked)) as [Hn|Hn].
    + rewrite elem_of_union, elem_of_singleton.
      split; [intros [->|H]; auto|intros [H|(-> & _ & _)]; auto].
    + split; [auto|intros [H|(_ & _ & H)]; [auto|contradiction]].
  - split; [auto|intros [H|(_ & H & _)]; [auto|discriminate]].
Qed.

Lemma check_xy_spec (marked : gset (Z * Z)) (g : list Z)
  (td : gset (Z * Z)) (x y : Z) :
  grid_is marked g -> in_bounds self x y -> cell_at self x y <> -1 ->
  (forall c, c ∈ marked -> connected self c) ->
  check_xy (width self) (mk_fill g td) x y
  = Ok (mk_fill g (enqueue marked (x, y) td)).
Proof.
  intros [Hlen Hg] Hb Hne Hm. unfold check_xy. simpl.
  rewrite (getitem_grid_at self g x y Hlen Hb), (Hg x y Hb). simpl.
  unfold enqueue, free, marked_value. cbn [fst snd].
  change (bool_decide ((x, y) ∉ marked))
    with (bool_decide (~ (x, y) ∈ marked)).
  rewrite bool_decide_not.
  destruct (is_open (cell_at self x y)) eqn:Ho.
  - destruct (open_cell_facts self x y (fillable_cells _ _ Hfill) Ho)
      as (Hv & _ & _).
    rewrite (passable_value _ _ _ Hv). simpl.
    destruct (negb (has_box (cell_at self x y)) && _); reflexivity.
  - assert (Hk : (x, y) ∉ marked).
    { intros Hk. apply Hm, connected_open in Hk. simpl in Hk. congruence. }
    assert (Hs : (x, y) <> c0).
    { intros <-. pose proof (fillable_open _ _ Hfill) as Ho'.
      simpl in Ho'. congruence. }
    rewrite (bool_decide_eq_false_2 _ Hk), (bool_decide_eq_false_2 _ Hs).
    unfold is_open in Ho. apply negb_false_iff, orb_true_iff in Ho.
    destruct Ho as [Ho|Ho]; apply Z.eqb_eq in Ho; [|contradiction].
    rewrite Ho. reflexivity.
Qed.

(** The work-set after the four calls of [check_xy]. *)
Definition enqueue_all (marked : gset (Z * Z)) (ns : list (Z * Z))
  (td : gset (Z * Z)) : gset (Z * Z) :=
  fold_left (fun td n => enqueue marked n td) ns td.

Lemma elem_of_enqueue_all (marked td : gset (Z * Z)) (ns : list (Z * Z))
  (c : Z * Z) :
  c ∈ enqueue_all marked ns td <->
  c ∈ td \/ (List.In c ns /\ free self c = true /\ c ∉ marked).
Proof.
  unfold enqueue_all. revert td.
  induction ns as [|n ns IH]; intros td; simpl.
  - split; [auto|intros [H|(H & _)]; [auto|contradiction]].
  - rewrite IH, elem_of_enqueue. split.
    + intros [[H|(-> & H1 & H2)]|(H & H1 & H2)]; auto.
    + intros [H|([<-|H] & H1 & H2)]; auto.
Qed.

Lemma grid_is_mark (marked : gset (Z * Z)) (g g' : list Z) (x y : Z) :
  grid_is marked g -> in_bounds self x y -> (x, y) ∉ marked ->
  len g' = len g ->
  grid_at self g' x y = Z.lor (marked_value marked (x, y)) 0x80 ->
  (forall x' y', in_bounds self x' y' -> (x', y') <> (x, y) ->
                 grid_at self g' x' y' = grid_at self g x' y') ->
  grid_is (marked ∪ {[ (x, y) ]}) g'.
Proof.
  intros [Hlen Hg] Hb Hk Hlen' Hat Hother. split; [congruence|].
  intros x' y' Hb'. unfold marked_value in *. cbn [fst snd] in *.
  destruct (decide ((x', y') = (x, y))) as [Heq|Hne].
  - injection Heq as -> ->. rewrite Hat.
    rewrite (bool_decide_eq_false_2 _ Hk).
    rewrite (bool_decide_eq_true_2 ((x, y) ∈ marked ∪ {[ (x, y) ]}))
      by (apply elem_of_union; right; apply elem_of_singleton; reflexivity).
    reflexivity.
  - rewrite (Hother x' y' Hb' Hne), (Hg x' y' Hb'). cbn [fst snd].
    f_equal. apply bool_decide_ext.
    rewrite elem_of_union, elem_of_singleton. tauto.
Qed.

(** One iteration keeps the invariant, and cannot fail. *)
Lemma visit_spec (marked : gset (Z * Z)) (st : fill) (c : Z * Z) :
  fill_inv marked st -> c ∈ todo st ->
  exists st',
    visit (width self) (grid st) (todo st ∖ {[ c ]}) c = Ok st' /\
    fill_inv (marked ∪ {[ c ]}) st'.
Proof.
  intros [Hgrid Hdis Hconn Hstart Hclosed] Hc.
  pose proof (Hdis c Hc) as Hk.
  pose proof (Hconn c (or_intror Hc)) as Hcc.
  pose proof (connected_open c Hcc) as Ho.
  destruct c as [x y]. cbn [fst snd] in Ho.
  destruct (open_cell_facts self x y (fillable_cells _ _ Hfill) Ho)
    as (Hv & Hi & Hn).
  pose proof (interior_in_bounds _ _ _ Hi) as (Hb & Hb1 & Hb2 & Hb3 & Hb4).
  pose proof (Hn (x + 1, y) ltac:(simpl; auto)) as Hn1.
  pose proof (Hn (x - 1, y) ltac:(simpl; auto)) as Hn2.
  pose proof (Hn (x, y + 1) ltac:(simpl; auto)) as Hn3.
  pose proof (Hn (x, y - 1) ltac:(simpl; auto)) as Hn4.
  cbn [fst snd] in Hn1, Hn2, Hn3, Hn4.
  pose proof Hgrid as [Hlen Hg].
  destruct (setitem_grid self (grid st) x y
              (Z.lor (marked_value marked (x, y)) 0x80) Hlen Hb)
    as (g' & Hset & Hlen' & Hat & Hother).
  { unfold marked_value. cbn [fst snd].
    rewrite (bool_decide_eq_false_2 _ Hk).
    apply (fill_value_c_int _ _ Hv). }
  assert (Hgrid' : grid_is (marked ∪ {[ (x, y) ]}) g')
    by (eapply grid_is_mark; eassumption).
  assert (Hconn' : forall c, c ∈ marked ∪ {[ (x, y) ]} -> connected self c).
  { intros c Hin. apply elem_of_union in Hin as [Hin|Hin].
    - apply Hconn. left. exact Hin.
    - apply elem_of_singleton in Hin. subst c. exact Hcc. }
  exists (mk_fill g' (enqueue_all (marked ∪ {[ (x, y) ]})
                        (neighbours (x, y)) (todo st ∖ {[ (x, y) ]}))).
  split.
  - unfold visit.
    rewrite (getitem_grid_at self (grid st) x y Hlen Hb), (Hg x y Hb).
    simpl. rewrite Hset. simpl.
    rewrite (check_xy_spec _ _ _ _ _ Hgrid' Hb1 Hn1 Hconn').
    simpl.
    rewrite (check_xy_spec _ _ _ _ _ Hgrid' Hb2 Hn2 Hconn').
    simpl.
    rewrite (check_xy_spec _ _ _ _ _ Hgrid' Hb3 Hn3 Hconn').
    simpl.
    rewrite (check_xy_spec _ _ _ _ _ Hgrid' Hb4 Hn4 Hconn').
    reflexivity.
  - constructor; cbn [grid todo].
    + exact Hgrid'.
    + intros c Hin. apply elem_of_enqueue_all in Hin as [Hin|(_ & _ & Hin)];
        [|exact Hin].
      apply elem_of_difference in Hin as [Hin Hne].
      rewrite elem_of_union. intros [Hm|Hm]; [|contradiction].
      exact (Hdis c Hin Hm).
    + intros c [Hin|Hin]; [apply Hconn'; exact Hin|].
      apply elem_of_enqueue_all in Hin as [Hin|(Hin & Hfree & _)].
      * apply elem_of_difference in Hin as [Hin _].
        apply Hconn. right. exact Hin.
      * apply (connected_step self (x, y) c); assumption.
    + destruct (decide (c0 = (x, y))) as [->|Hne].
      * left. apply elem_of_union. right. apply elem_of_singleton.
        reflexivity.
      * destruct Hstart as [Hs|Hs].
        -- left. apply elem_of_union. left. exact Hs.
        -- right. apply elem_of_enqueue_all. left.
           apply elem_of_difference. split; [exact Hs|].
           rewrite elem_of_singleton. exact Hne.
    + intros c c' Hin Hadj Hfree.
      destruct (decide (c' ∈ marked ∪ {[ (x, y) ]})) as [Hm|Hm];
        [left; exact Hm|].
      right. apply elem_of_enqueue_all.
      apply elem_of_union in Hin as [Hin|Hin].
      * destruct (Hclosed c c' Hin Hadj Hfree) as [Hc'|Hc'].
        -- exfalso. apply Hm. apply elem_of_union. left. exact Hc'.
        -- left. apply elem_of_difference. split; [exact Hc'|].
           intros Heq. apply Hm. apply elem_of_union. right. exact Heq.
      * apply elem_of_singleton in Hin. subst c.
        right. repeat split; assumption.
Qed.

Lemma resolve_start_spec :
  exists st0, resolve_start self = Ok st0 /\ fill_inv ∅ st0.
Proof.
  pose proof (fillable_geometry _ _ Hfill) as Hg.
  pose proof Hg as (_ & _ & Hlen).
  pose proof (fillable_bounds _ _ Hfill) as Hb.
  pose proof (fillable_open _ _ Hfill) as Ho.
  destruct (open_cell_facts self _ _ (fillable_cells _ _ Hfill) Ho)
    as (Hv & _ & _).
  unfold resolve_start. rewrite (fillable_character _ _ Hfill).
  destruct c0 as [x0 y0] eqn:Hc0. cbn [fst snd] in *.
  destruct (setitem_grid self (array self) x0 y0
              (Z.land (cell_at self x0 y0) (Z.lnot 0x10)) Hlen Hb)
    as (g' & Hset & Hlen' & Hat & Hother).
  { apply (fill_value_c_int _ false Hv). }
  exists (mk_fill g' {[ (x0, y0) ]}).
  rewrite (getitem_grid_at self (array self) x0 y0 Hlen Hb).
  fold (cell_at self x0 y0). simpl. rewrite Hset. simpl.
  split; [reflexivity|].
  constructor; cbn [grid todo].
  - split; [congruence|]. intros x y Hxy. unfold marked_value.
    cbn [fst snd].
    rewrite (bool_decide_eq_false_2 ((x, y) ∈ (∅ : gset (Z * Z))))
      by apply not_elem_of_empty.
    destruct (decide ((x, y) = (x0, y0))) as [Heq|Hne].
    + injection Heq as -> ->. rewrite Hat.
      rewrite bool_decide_eq_true_2 by congruence. reflexivity.
    + rewrite (Hother x y Hxy Hne).
      rewrite (bool_decide_eq_false_2 ((x, y) = c0)) by congruence.
      reflexivity.
  - intros c _. apply not_elem_of_empty.
  - intros c [Hc|Hc]; [apply not_elem_of_empty in Hc; contradiction|].
    apply elem_of_singleton in Hc. subst c.
    apply connected_start. apply (fillable_character _ _ Hfill).
  - right. apply elem_of_singleton. exact Hc0.
  - intros c c' Hc. apply not_elem_of_empty in Hc. contradiction.
Qed.

(** When the work-set is empty, the marked cells are the connected ones. *)
Lemma fill_inv_final (marked : gset (Z * Z)) (st : fill) (c : Z * Z) :
  fill_inv marked st -> todo st = ∅ -> (c ∈ marked <-> connected self c).
Proof.
  intros [_ _ Hconn Hstart Hclosed] Hempty. rewrite Hempty in *.
  split; [intros Hc; apply Hconn; left; exact Hc|].
  intros Hc. induction Hc as [c Hc|c c' _ IH Hadj Hfree].
  - rewrite (fillable_character _ _ Hfill) in Hc. injection Hc as <-.
    destruct Hstart as [Hs|Hs]; [exact Hs|].
    apply not_elem_of_empty in Hs. contradiction.
  - destruct (Hclosed c c' IH Hadj Hfree) as [Hm|Hm]; [exact Hm|].
    apply not_elem_of_empty in Hm. contradiction.
Qed.

(** The grid at the end does not depend on the run. *)
Lemma fill_final_unique (m1 m2 : gset (Z * Z)) (st1 st2 : fill) :
  fill_inv m1 st1 -> todo st1 = ∅ -> fill_inv m2 st2 -> todo st2 = ∅ ->
  grid st1 = grid st2.
Proof.
  intros H1 He1 H2 He2.
  pose proof (fillable_geometry _ _ Hfill) as (Hw & Hh & _).
  destruct (inv_grid _ _ H1) as [Hl1 Hg1].
  destruct (inv_grid _ _ H2) as [Hl2 Hg2].
  apply (grid_ext self); try assumption.
  intros x y Hb. rewrite (Hg1 x y Hb), (Hg2 x y Hb).
  unfold marked_value. f_equal. apply bool_decide_ext.
  rewrite (fill_inv_final m1 st1 (x, y) H1 He1).
  rewrite (fill_inv_final m2 st2 (x, y) H2 He2). reflexivity.
Qed.

Lemma raster_length :
  length (raster self) = length (array self).
Proof.
  pose proof (fillable_geometry _ _ Hfill) as (Hw & Hh & Hlen).
  unfold raster.
  rewrite (flat_map_constant_length (c := Z.to_nat (width self))).
  - unfold range. rewrite length_map, length_seq. unfold len in Hlen. nia.
  - intros y _. unfold range. rewrite !length_map, length_seq. reflexivity.
Qed.

(** The marked cells are cells of the board: there are at most as many
    as the array has items, and fewer while the work-set is not empty. *)
Lemma fill_inv_size (marked : gset (Z * Z)) (st : fill) (c : Z * Z) :
  fill_inv marked st -> c ∈ todo st ->
  (size marked < length (array self))%nat.
Proof.
  intros Hinv Hc. rewrite <- raster_length.
  rewrite <- (size_list_to_set (C := gset (Z * Z)) (raster self))
    by (apply NoDup_ListNoDup, NoDup_raster).
  assert (Hsub : marked ∪ {[ c ]} ⊆ list_to_set (raster self)).
  { intros c' Hc'. apply elem_of_list_to_set, list_elem_of_In.
    destruct c' as [x y]. apply in_raster.
    apply (is_open_in_bounds self x y).
    apply (connected_open (x, y)), (inv_connected _ _ Hinv).
    apply elem_of_union in Hc' as [Hc'|Hc']; [left; exact Hc'|].
    apply elem_of_singleton in Hc'. subst c. right. exact Hc. }
  apply subseteq_size in Hsub.
  rewrite size_union, size_singleton in Hsub; [lia|].
  intros c' Hc1 Hc2. apply elem_of_singleton in Hc2. subst c'.
  exact (inv_disjoint _ _ Hinv c Hc Hc1).
Qed.

(** Every run from the start keeps the invariant; its length is the
    number of marked cells. *)
Lemma fill_run_inv (n : nat) (marked : gset (Z * Z)) (st st' : fill) :
  fill_inv marked st -> fill_run (width self) n st st' ->
  exists marked', fill_inv marked' st' /\
                  size marked' = (size marked + n)%nat.
Proof.
  intros Hinv Hrun. revert marked Hinv.
  induction Hrun as [st|n st st1 st2 Hstep _ IH]; intros marked Hinv.
  - exists marked. split; [exact Hinv|lia].
  - destruct Hstep as [st st1 c Hc Hvisit].
    destruct (visit_spec marked st c Hinv Hc) as (st1' & Hv' & Hinv').
    rewrite Hvisit in Hv'. injection Hv' as <-.
    destruct (IH _ Hinv') as (marked' & Hinv'' & Hsize).
    exists marked'. split; [exact Hinv''|].
    rewrite Hsize, size_union, size_singleton; [lia|].
    intros c' Hc1 Hc2. apply elem_of_singleton in Hc2. subst c'.
    exact (inv_disjoint _ _ Hinv c Hc Hc1).
Qed.

(** The loop of the model ends within its fuel. *)
Lemma fill_loop_spec (fuel : nat) (marked : gset (Z * Z)) (st : fill) :
  fill_inv marked st ->
  (length (array self) <= fuel + size marked)%nat ->
  exists st' marked', fill_loop fuel (width self) st = Ok st' /\
    fill_inv marked' st' /\ todo st' = ∅.
Proof.
  revert marked st. induction fuel as [|fuel IH]; intros marked st Hinv Hf.
  - simpl. destruct (elements (todo st)) as [|c l] eqn:He.
    + exists st, marked. split; [reflexivity|]. split; [exact Hinv|].
      apply leibniz_equiv, elements_empty_inv. exact He.
    + assert (Hc : c ∈ todo st)
        by (apply elem_of_elements; rewrite He; left).
      pose proof (fill_inv_size marked st c Hinv Hc). lia.
  - simpl. destruct (elements (todo st)) as [|c l] eqn:He.
    + exists st, marked. split; [reflexivity|]. split; [exact Hinv|].
      apply leibniz_equiv, elements_empty_inv. exact He.
    + assert (Hc : c ∈ todo st)
        by (apply elem_of_elements; rewrite He; left).
      destruct (visit_spec marked st c Hinv Hc) as (st1 & Hv & Hinv1).
      rewrite Hv. simpl. apply (IH (marked ∪ {[ c ]})); [exact Hinv1|].
      rewrite size_union, size_singleton; [lia|].
      intros c' Hc1 Hc2. apply elem_of_singleton in Hc2. subst c'.
      exact (inv_disjoint _ _ Hinv c Hc Hc1).
Qed.
End Fill.

(** ** Boards that passed validation *)

(** A board as the program holds it after [validate]: the array has the
    board's shape and [validate(True)] accepts it. *)
Definition valid (self : skb_map) : Prop :=
  geometry self /\ validate true self = Ok self.

Lemma sumZ_positive {C : Type} (f : C -> Z) (l : list C) :
  0 < sumZ f l -> exists c, List.In c l /\ f c <> 0.
Proof.
  induction l as [|c l IH]; simpl; [lia|]. intros H.
  destruct (Z.eq_dec (f c) 0) as [H0|H0].
  - destruct IH as (c' & Hin & Hc'); [lia|]. exists c'. auto.
  - exists c. auto.
Qed.

(** The character coordinate that [validate] finds, when the cells pass and
    there is one character. *)
Lemma tally_character_spec (self : skb_map) :
  total_character (tally_of self) = 1 ->
  exists c, tally_character (tally_of self) = Some c /\
    in_bounds self (fst c) (snd c) /\
    charv (cell_at self (fst c) (snd c)) = 1 /\
    (forall c', in_bounds self (fst c') (snd c') -> c' <> c ->
                charv (cell_at self (fst c') (snd c')) = 0).
Proof.
  unfold tally_of. rewrite tally_from_spec. simpl. intros Hsum.
  assert (Hpos : 0 < sumZ (fun c => charv (cell_at self (fst c) (snd c)))
                          (raster self)) by lia.
  destruct (sumZ_positive _ _ Hpos) as (c & Hin & Hc).
  pose proof (charv_range (cell_at self (fst c) (snd c))) as Hr.
  assert (Hc1 : charv (cell_at self (fst c) (snd c)) = 1) by lia.
  exists c. split; [|split; [|split]].
  - apply last_character_unique; try assumption. apply NoDup_raster.
  - destruct c. apply in_raster. exact Hin.
  - exact Hc1.
  - intros c' Hb' Hne.
    apply (sumZ_unique (fun c => charv (cell_at self (fst c) (snd c)))
             (raster self) c c'); try assumption.
    + intros c1. apply charv_range.
    + apply NoDup_raster.
    + simpl. lia.
    + destruct c'. apply in_raster. exact Hb'.
Qed.

Lemma charv_open (e : Z) : charv e = 1 -> is_open e = true.
Proof. unfold charv. destruct (is_open e); [reflexivity|discriminate]. Qed.

Lemma valid_fillable (self : skb_map) :
  valid self -> exists c0, fillable self c0.
Proof.
  intros [Hg Hv]. apply validate_true_Ok in Hv as (Hc & (H1 & _) & Hcache);
    [|exact Hg].
  destruct Hcache as (_ & _ & _ & Hch).
  destruct (tally_character_spec self H1) as (c & Htc & Hb & Hcv & _).
  exists c. constructor; try assumption; [congruence|].
  apply charv_open. exact Hcv.
Qed.

Lemma fill_inv_size_le (self : skb_map) (c0 : Z * Z)
  (marked : gset (Z * Z)) (st : fill) :
  fillable self c0 -> fill_inv self c0 marked st ->
  (size marked <= length (array self))%nat.
Proof.
  intros Hfill Hinv. rewrite <- (raster_length self c0 Hfill).
  rewrite <- (size_list_to_set (C := gset (Z * Z)) (raster self))
    by (apply NoDup_ListNoDup, NoDup_raster).
  apply subseteq_size. intros [x y] Hc.
  apply elem_of_list_to_set, list_elem_of_In, in_raster.
  apply (is_open_in_bounds self x y).
  apply (connected_open self c0 Hfill (x, y)), (inv_connected _ _ _ _ Hinv).
  left. exact Hc.
Qed.

Lemma resolve_reachable_fillable (self : skb_map) (c0 : Z * Z) :
  fillable self c0 ->
  exists st marked,
    resolve_reachable self = Ok (set_reachable self (grid st)) /\
    fill_inv self c0 marked st /\ todo st = ∅.
Proof.
  intros Hfill.
  destruct (resolve_start_spec self c0 Hfill) as (st0 & Hst0 & Hinv0).
  destruct (fill_loop_spec self c0 Hfill (length (array self)) ∅ st0 Hinv0)
    as (st & marked & Hloop & Hinv & Hempty); [lia|].
  exists st, marked. unfold resolve_reachable.
  rewrite Hst0. simpl. rewrite Hloop. simpl. auto.
Qed.

(** ** C3: the reachability grid does not depend on the order of visits *)

(** C3. On a board that passed validation the resolver answers a grid [g],
    and whatever elements [todo.pop()] hands out: an iteration never fails,
    no run is longer than the number of cells, and every run that empties
    the work-set ends with the grid [g].  Resolving the board again gives
    [g] again. *)
Theorem resolve_reachable_order_independent (self : skb_map) :
  valid self ->
  exists g st0,
    resolve_reachable self = Ok (set_reachable self g) /\
    resolve_start self = Ok st0 /\
    (forall n st, fill_run (width self) n st0 st ->
       (n <= length (array self))%nat /\
       (forall c, c ∈ todo st ->
          exists st', visit (width self) (grid st) (todo st ∖ {[ c ]}) c
                      = Ok st') /\
       (todo st = ∅ -> grid st = g)) /\
    resolve_reachable (set_reachable self g) = Ok (set_reachable self g).
Proof.
  intros Hvalid. destruct (valid_fillable self Hvalid) as [c0 Hfill].
  destruct (resolve_reachable_fillable self c0 Hfill)
    as (stf & mf & Hres & Hinvf & Hemptyf).
  destruct (resolve_start_spec self c0 Hfill) as (st0 & Hst0 & Hinv0).
  exists (grid stf), st0. split; [exact Hres|]. split; [exact Hst0|]. split.
  - intros n st Hrun.
    destruct (fill_run_inv self c0 Hfill n ∅ st0 st Hinv0 Hrun)
      as (marked & Hinv & Hsize).
    rewrite size_empty in Hsize. split; [|split].
    + pose proof (fill_inv_size_le self c0 marked st Hfill Hinv). lia.
    + intros c Hc.
      destruct (visit_spec self c0 Hfill marked st c Hinv Hc) as (st' & Hv & _).
      exists st'. exact Hv.
    + intros Hempty.
      apply (fill_final_unique self c0 Hfill marked mf); assumption.
  - unfold resolve_reachable in *. simpl.
    change (resolve_start (set_reachable self (grid stf)))
      with (resolve_start self).
    destruct (resolve_start self); simpl in *; try discriminate.
    destruct (fill_loop _ _ _); simpl in *; try discriminate.
    unfold set_reachable in *. simpl in *. congruence.
Qed.

Lemma valid_board_m : valid board_m.
Proof. split; [repeat split; vm_compute; congruence|reflexivity]. Qed.

Lemma resolve_reachable_order_independent_witness :
  valid board_m /\
  exists g st0,
    resolve_reachable board_m = Ok (set_reachable board_m g) /\
    resolve_start board_m = Ok st0 /\
    (forall n st, fill_run (width board_m) n st0 st ->
       (n <= length (array board_m))%nat /\
       (forall c, c ∈ todo st ->
          exists st', visit (width board_m) (grid st) (todo st ∖ {[ c ]}) c
                      = Ok st') /\
       (todo st = ∅ -> grid st = g)) /\
    resolve_reachable (set_reachable board_m g)
    = Ok (set_reachable board_m g).
Proof.
  split; [exact valid_board_m|].
  apply (resolve_reachable_order_independent board_m), valid_board_m.
Defined.

(** ** The reachability grid of a board *)

(** A board as the search holds it: validated, and with the grid that
    [resolve_reachable] computes for its cells. *)
Definition ready (self : skb_map) : Prop :=
  valid self /\ resolve_reachable self = Ok self.

Definition reachable_at (self : skb_map) (c : Z * Z) : bool :=
  Z.land (grid_at self (reachable self) (fst c) (snd c)) 0x80 =? 0x80.

Lemma fill_value_flag (e : Z) (start marked : bool) :
  open_value e = true ->
  (Z.land (fill_value e start marked) 0x80 =? 0x80) = marked.
Proof.
  intros Hv. open_cases Hv; subst e; destruct start, marked; reflexivity.
Qed.

Lemma ready_grid (self : skb_map) :
  ready self ->
  exists c0 marked, fillable self c0 /\
    grid_is self c0 marked (reachable self) /\
    (forall c, c ∈ marked <-> connected self c).
Proof.
  intros [Hvalid Hres]. destruct (valid_fillable self Hvalid) as [c0 Hfill].
  destruct (resolve_reachable_fillable self c0 Hfill)
    as (st & marked & Hres' & Hinv & Hempty).
  exists c0, marked. split; [exact Hfill|].
  rewrite Hres in Hres'. injection Hres' as Hres'.
  assert (Hg : reachable self = grid st) by (rewrite Hres' at 1; reflexivity).
  rewrite Hg. split; [apply (inv_grid _ _ _ _ Hinv)|].
  intros c. apply (fill_inv_final self c0 Hfill marked st c Hinv Hempty).
Qed.

Lemma is_reachable_in_bounds (self : skb_map) (x y : Z) :
  ready self -> in_bounds self x y ->
  is_reachable self x y = Ok (reachable_at self (x, y)).
Proof.
  intros Hr Hb. destruct (ready_grid self Hr) as (c0 & marked & _ & [Hl _] & _).
  unfold is_reachable, reachable_at.
  rewrite (getitem_grid_at self _ x y Hl Hb). reflexivity.
Qed.

(** When the grid has some other length the read may raise; when it
    answers, it answers the flag of the cell. *)
Lemma is_reachable_Ok_inv (self : skb_map) (x y : Z) (r : bool) :
  in_bounds self x y -> is_reachable self x y = Ok r ->
  r = reachable_at self (x, y).
Proof.
  intros Hb H. unfold is_reachable in H.
  apply bind_Ok in H as (t & Ht & Hr). injection Hr as <-.
  apply getitem_Ok_inv in Ht as [Hrange Ht].
  pose proof (index_in_range _ _ _ Hb) as Hi.
  rewrite Z.mod_small in Ht by lia.
  unfold reachable_at, grid_at. cbn [fst snd].
  apply in_boundsb_spec in Hb as ->. rewrite Ht. reflexivity.
Qed.

(** The flag of the grid says that the character can walk to the cell. *)
Lemma reachable_at_connected (self : skb_map) (c : Z * Z) :
  ready self -> cell_at self (fst c) (snd c) <> -1 ->
  (reachable_at self c = true <-> connected self c).
Proof.
  intros Hr Hne.
  destruct (ready_grid self Hr) as (c0 & marked & Hfill & [Hl Hg] & Hm).
  destruct c as [x y]. cbn [fst snd] in *.
  assert (Hb : in_bounds self x y).
  { destruct (in_boundsb self x y) eqn:Hb;
      [apply in_boundsb_spec; exact Hb|].
    exfalso. apply Hne. unfold cell_at, grid_at. rewrite Hb. reflexivity. }
  unfold reachable_at. cbn [fst snd]. rewrite (Hg x y Hb).
  unfold marked_value. cbn [fst snd].
  destruct (is_open (cell_at self x y)) eqn:Ho.
  - destruct (open_cell_facts self x y (fillable_cells _ _ Hfill) Ho)
      as (Hv & _ & _).
    rewrite (fill_value_flag _ _ _ Hv), bool_decide_eq_true. apply Hm.
  - assert (Hk : (x, y) ∉ marked).
    { intros Hk. apply Hm, (connected_open self c0 Hfill) in Hk.
      simpl in Hk. congruence. }
    assert (Hs : (x, y) <> c0).
    { intros <-. pose proof (fillable_open _ _ Hfill) as Ho'.
      simpl in Ho'. congruence. }
    rewrite (bool_decide_eq_false_2 _ Hk), (bool_decide_eq_false_2 _ Hs).
    unfold is_open in Ho. apply negb_false_iff, orb_true_iff in Ho.
    destruct Ho as [Ho|Ho]; apply Z.eqb_eq in Ho; [|contradiction].
    rewrite Ho. simpl. split; [discriminate|].
    intros Hc. apply (connected_open self c0 Hfill) in Hc.
    cbn [fst snd] in Hc. rewrite Ho in Hc. discriminate.
Qed.

(** ** The legal moves *)

(** One step from [c] in direction [d]. *)
Definition step (d : Dir) (c : Z * Z) : Z * Z :=
  match d with
  | UP => (fst c, snd c - 1)
  | RIGHT => (fst c + 1, snd c)
  | DOWN => (fst c, snd c + 1)
  | LEFT => (fst c - 1, snd c)
  end.

Definition opposite (d : Dir) : Dir :=
  match d with UP => DOWN | RIGHT => LEFT | DOWN => UP | LEFT => RIGHT end.

Definition holds_box (self : skb_map) (c : Z * Z) : bool :=
  is_open (cell_at self (fst c) (snd c))
  && has_box (cell_at self (fst c) (snd c)).

Definition blocked_at (self : skb_map) (c : Z * Z) : bool :=
  (cell_at self (fst c) (snd c) =? 0)
  || (Z.land (cell_at self (fst c) (snd c)) 0x40 =? 0x40).

(** The three conditions of a push, read off the board and its grid. *)
Definition legalb (self : skb_map) (mv : move) : bool :=
  let '(x, y, d) := mv in
  holds_box self (x, y)
  && reachable_at self (step (opposite d) (x, y))
  && negb (blocked_at self (step d (x, y)))
  && negb (dead_corner_at self (fst (step d (x, y))) (snd (step d (x, y)))).

(** The same conditions in the words of the specification: the cell holds
    a box, the character can walk to the cell behind it, and the cell ahead
    is neither blocked nor a dead corner. *)
Definition legal_move (self : skb_map) (mv : move) : Prop :=
  let '(x, y, d) := mv in
  holds_box self (x, y) = true /\
  connected self (step (opposite d) (x, y)) /\
  blocked_at self (step d (x, y)) = false /\
  dead_corner_at self (fst (step d (x, y))) (snd (step d (x, y))) = false.

(** Every push of every cell, in the order of the scan: rows from the top,
    cells from the left, and UP, RIGHT, DOWN, LEFT on a cell. *)
Definition pushes (c : Z * Z) : list move :=
  [(fst c, snd c, UP); (fst c, snd c, RIGHT); (fst c, snd c, DOWN);
   (fst c, snd c, LEFT)].

Definition candidates (self : skb_map) : list move :=
  flat_map pushes (raster self).

Lemma is_blocked_in_bounds (self : skb_map) (x y : Z) :
  geometry self -> in_bounds self x y ->
  is_blocked self x y = Ok (blocked_at self (x, y)).
Proof.
  intros Hg Hb. unfold is_blocked, blocked_at.
  rewrite element_in_bounds by assumption. simpl.
  destruct (cell_at self x y =? 0); reflexivity.
Qed.

Lemma not_blocked_open (self : skb_map) (c : Z * Z) :
  blocked_at self c = false ->
  is_open (cell_at self (fst c) (snd c)) = true.
Proof.
  unfold blocked_at, is_open. intros H.
  apply orb_false_iff in H as [H0 H1]. rewrite H0. simpl.
  destruct (Z.eqb_spec (cell_at self (fst c) (snd c)) (-1)) as [He|He];
    [|reflexivity].
  rewrite He in H1. discriminate.
Qed.

(** The condition of one [if] of the generator: on a validated board only
    the read of the grid can fail. *)
Lemma push_read (self : skb_map) (b t : Z * Z) :
  valid self -> in_bounds self (fst t) (snd t) ->
  andM (andM (is_reachable self (fst b) (snd b))
             (notM (is_blocked self (fst t) (snd t))))
       (notM (is_dead_corner self (fst t) (snd t)))
  = bind (is_reachable self (fst b) (snd b))
         (fun r => Ok (r && negb (blocked_at self t)
                       && negb (dead_corner_at self (fst t) (snd t)))).
Proof.
  intros [Hg Hv] Ht.
  apply validate_true_Ok in Hv as (Hc & _); [|exact Hg].
  destruct t as [tx ty]. cbn [fst snd] in *.
  rewrite (is_blocked_in_bounds self tx ty Hg Ht).
  destruct (is_reachable self (fst b) (snd b)) as [r| | |]; try reflexivity.
  destruct r; [|reflexivity].
  rewrite notM_Ok, andM_Ok.
  destruct (blocked_at self (tx, ty)) eqn:Hbl; [reflexivity|].
  pose proof (not_blocked_open self (tx, ty) Hbl) as Ho.
  cbn [fst snd] in Ho.
  destruct (open_cell_facts self tx ty Hc Ho) as (_ & Hi & _).
  rewrite (is_dead_corner_interior self tx ty Hg Hi).
  rewrite notM_Ok, andM_Ok. reflexivity.
Qed.

(** A box cell of a validated board, and the cells around it. *)
Lemma box_cell_interior (self : skb_map) (x y : Z) :
  valid self -> in_bounds self x y ->
  cell_at self x y <> -1 -> Z.land (cell_at self x y) 64 <> 0 ->
  is_open (cell_at self x y) = true /\ interior self x y = true.
Proof.
  intros [Hg Hv] Hb He Hx.
  apply validate_true_Ok in Hv as (Hc & _); [|exact Hg].
  assert (Ho : is_open (cell_at self x y) = true).
  { unfold is_open. destruct (Z.eqb_spec (cell_at self x y) 0) as [H0|H0].
    - rewrite H0 in Hx. contradiction.
    - destruct (Z.eqb_spec (cell_at self x y) (-1)); [contradiction|].
      reflexivity. }
  split; [exact Ho|].
  destruct (open_cell_facts self x y Hc Ho) as (_ & Hi & _). exact Hi.
Qed.

(** What one turn of the loops appends, when it appends. *)
Lemma moves_cell_inv (self : skb_map) (x y : Z) (ms ms' : list move) :
  valid self -> in_bounds self x y ->
  moves_cell self x y ms = Ok ms' ->
  ms' = ms ++ List.filter (legalb self) (pushes (x, y)).
Proof.
  intros Hvalid Hb. pose proof Hvalid as [Hg _].
  unfold moves_cell. rewrite (element_in_bounds self x y Hg Hb). simpl.
  unfold pushes, legalb, holds_box. cbn [fst snd List.filter].
  destruct (Z.eqb_spec (cell_at self x y) (-1)) as [He|He].
  { rewrite He. simpl. rewrite app_nil_r. congruence. }
  simpl. unfold has_box.
  destruct (Z.eqb_spec (Z.land (cell_at self x y) 64) 0) as [Hx|Hx].
  { simpl. rewrite !andb_false_r. simpl. rewrite app_nil_r. congruence. }
  destruct (box_cell_interior self x y Hvalid Hb He Hx) as [Ho Hi].
  rewrite Ho. simpl.
  pose proof (interior_in_bounds _ _ _ Hi) as (_ & Hb1 & Hb2 & Hb3 & Hb4).
  pose proof (push_read self (x, y + 1) (x, y - 1) Hvalid Hb4) as P1.
  pose proof (push_read self (x - 1, y) (x + 1, y) Hvalid Hb1) as P2.
  pose proof (push_read self (x, y - 1) (x, y + 1) Hvalid Hb3) as P3.
  pose proof (push_read self (x + 1, y) (x - 1, y) Hvalid Hb2) as P4.
  cbn [fst snd] in P1, P2, P3, P4. rewrite P1, P2, P3, P4.
  destruct (is_reachable self x (y + 1)) as [r1| | |] eqn:R1;
    try discriminate.
  destruct (is_reachable self (x - 1) y) as [r2| | |] eqn:R2;
    [|simpl; destruct (_ && _); discriminate..].
  destruct (is_reachable self x (y - 1)) as [r3| | |] eqn:R3;
    [|simpl; repeat destruct (_ && _); discriminate..].
  destruct (is_reachable self (x + 1) y) as [r4| | |] eqn:R4;
    [|simpl; repeat destruct (_ && _); discriminate..].
  apply (is_reachable_Ok_inv self _ _ _ Hb3) in R1.
  apply (is_reachable_Ok_inv self _ _ _ Hb2) in R2.
  apply (is_reachable_Ok_inv self _ _ _ Hb4) in R3.
  apply (is_reachable_Ok_inv self _ _ _ Hb1) in R4.
  subst r1 r2 r3 r4. cbn [fst snd bind]. intros H. injection H as <-.
  repeat match goal with
         | |- context [if ?b then _ else _] => destruct b
         end;
    rewrite <- ?app_assoc; simpl; rewrite ?app_nil_r; reflexivity.
Qed.

(** With the grid resolved the reads succeed. *)
Lemma moves_cell_spec (self : skb_map) (x y : Z) (ms : list move) :
  ready self -> in_bounds self x y ->
  moves_cell self x y ms
  = Ok (ms ++ List.filter (legalb self) (pushes (x, y))).
Proof.
  intros Hr Hb. pose proof Hr as [Hvalid _]. pose proof Hvalid as [Hg _].
  assert (Hrun : exists ms', moves_cell self x y ms = Ok ms').
  { unfold moves_cell. rewrite (element_in_bounds self x y Hg Hb). simpl.
    destruct (Z.eqb_spec (cell_at self x y) (-1)) as [He|He];
      [simpl; eauto|].
    simpl.
    destruct (Z.eqb_spec (Z.land (cell_at self x y) 64) 0) as [Hx|Hx];
      [simpl; eauto|].
    destruct (box_cell_interior self x y Hvalid Hb He Hx) as [_ Hi].
    pose proof (interior_in_bounds _ _ _ Hi) as (_ & Hb1 & Hb2 & Hb3 & Hb4).
    pose proof (push_read self (x, y + 1) (x, y - 1) Hvalid Hb4) as P1.
    pose proof (push_read self (x - 1, y) (x + 1, y) Hvalid Hb1) as P2.
    pose proof (push_read self (x, y - 1) (x, y + 1) Hvalid Hb3) as P3.
    pose proof (push_read self (x + 1, y) (x - 1, y) Hvalid Hb2) as P4.
    cbn [fst snd] in P1, P2, P3, P4. rewrite P1, P2, P3, P4.
    rewrite !(is_reachable_in_bounds self) by assumption.
    simpl. eauto. }
  destruct Hrun as [ms' Hrun]. rewrite Hrun. f_equal.
  apply (moves_cell_inv self x y ms ms' Hvalid Hb Hrun).
Qed.

Lemma foldM_collect {A C : Type} (body : C -> list A -> result (list A))
  (g : C -> list A) (l : list C) (acc : list A) :
  (forall c acc, List.In c l -> body c acc = Ok (acc ++ g c)) ->
  foldM body l acc = Ok (acc ++ flat_map g l).
Proof.
  revert acc. induction l as [|c l IH]; intros acc H; simpl.
  - rewrite app_nil_r. reflexivity.
  - rewrite (H c acc (or_introl eq_refl)). simpl.
    rewrite IH by (intros; apply H; right; assumption).
    rewrite app_assoc. reflexivity.
Qed.

Lemma filter_flat_map {A C : Type} (f : A -> bool) (g : C -> list A)
  (l : list C) :
  List.filter f (flat_map g l) = flat_map (fun c => List.filter f (g c)) l.
Proof.
  induction l as [|c l IH]; simpl; [reflexivity|].
  rewrite List.filter_app, IH. reflexivity.
Qed.

Lemma foldM_collect_inv {A C : Type} (body : C -> list A -> result (list A))
  (g : C -> list A) (l : list C) (acc r : list A) :
  (forall c acc acc', List.In c l -> body c acc = Ok acc' ->
                      acc' = acc ++ g c) ->
  foldM body l acc = Ok r -> r = acc ++ flat_map g l.
Proof.
  revert acc. induction l as [|c l IH]; intros acc H Hr; simpl in *.
  - rewrite app_nil_r. congruence.
  - apply bind_Ok in Hr as (acc' & Hc & Hr).
    rewrite (H c acc acc' (or_introl eq_refl) Hc) in Hr.
    rewrite (IH _ (fun c a a' Hin => H c a a' (or_intror Hin)) Hr).
    rewrite app_assoc. reflexivity.
Qed.

(** On a validated board, whatever its grid: when the generator returns, it
    returns the pushes that pass the tests, in the order of the scan. *)
Lemma find_all_possible_moves_inv (self : skb_map) (ms : list move) :
  valid self -> find_all_possible_moves self = Ok ms ->
  ms = List.filter (legalb self) (candidates self).
Proof.
  intros Hvalid H. unfold find_all_possible_moves in H.
  rewrite foldM_nested in H. fold (raster self) in H.
  apply (foldM_collect_inv _ (fun c => List.filter (legalb self) (pushes c)))
    in H.
  - unfold candidates. rewrite filter_flat_map. exact H.
  - intros [x y] acc acc' Hin. cbn [fst snd].
    apply moves_cell_inv; [exact Hvalid|apply in_raster; exact Hin].
Qed.

Lemma find_all_possible_moves_filter (self : skb_map) :
  ready self ->
  find_all_possible_moves self
  = Ok (List.filter (legalb self) (candidates self)).
Proof.
  intros Hr. unfold find_all_possible_moves. rewrite foldM_nested.
  fold (raster self).
  rewrite (foldM_collect _ (fun c => List.filter (legalb self) (pushes c))).
  - unfold candidates. rewrite filter_flat_map. reflexivity.
  - intros [x y] acc Hin. cbn [fst snd].
    apply moves_cell_spec; [exact Hr|apply in_raster; exact Hin].
Qed.

Lemma legalb_legal_move (self : skb_map) (mv : move) :
  ready self -> (legalb self mv = true <-> legal_move self mv).
Proof.
  intros Hr. pose proof Hr as [[Hg Hv] _].
  apply validate_true_Ok in Hv as (Hc & _); [|exact Hg].
  destruct mv as [[x y] d]. unfold legalb, legal_move.
  rewrite !andb_true_iff, !negb_true_iff.
  assert (Hbehind : holds_box self (x, y) = true ->
                    cell_at self (fst (step (opposite d) (x, y)))
                                 (snd (step (opposite d) (x, y))) <> -1).
  { unfold holds_box. cbn [fst snd]. intros H.
    apply andb_true_iff in H as [Ho _].
    destruct (open_cell_facts self x y Hc Ho) as (_ & _ & Hn).
    apply Hn. destruct d; simpl; auto. }
  split.
  - intros (((H1 & H2) & H3) & H4). repeat split; try assumption.
    apply (reachable_at_connected self _ Hr (Hbehind H1)). exact H2.
  - intros (H1 & H2 & H3 & H4). repeat split; try assumption.
    apply (reachable_at_connected self _ Hr (Hbehind H1)). exact H2.
Qed.

Lemma legal_in_candidates (self : skb_map) (mv : move) :
  legalb self mv = true -> List.In mv (candidates self).
Proof.
  destruct mv as [[x y] d]. unfold legalb, holds_box. cbn [fst snd].
  rewrite !andb_true_iff. intros ((((Ho & _) & _) & _) & _).
  apply is_open_in_bounds in Ho. unfold candidates.
  apply in_flat_map. exists (x, y). split; [apply in_raster; exact Ho|].
  unfold pushes. cbn [fst snd]. destruct d; simpl; auto.
Qed.

(** ** C4: what the generator returns, and in which order *)

(** C4. On a board that passed validation, a list the generator returns
    is the list of all pushes in the order of the raster scan, with UP,
    RIGHT, DOWN, LEFT on each cell, filtered by the three tests: the cell
    holds a box, the grid has the reachable flag on the cell behind the
    box, and the cell ahead is not blocked and not a dead corner.  With
    the grid resolved, as [__init__] and the transition leave it, the
    generator does return, and a push is in the list exactly when its cell
    holds a box, the character can walk to the cell behind the box, and
    the cell ahead is not blocked and not a dead corner. *)
Theorem find_all_possible_moves_spec (self : skb_map) :
  valid self ->
  (forall ms, find_all_possible_moves self = Ok ms ->
              ms = List.filter (legalb self) (candidates self)) /\
  (resolve_reachable self = Ok self ->
   find_all_possible_moves self
   = Ok (List.filter (legalb self) (candidates self)) /\
   (forall mv, List.In mv (List.filter (legalb self) (candidates self))
               <-> legal_move self mv)).
Proof.
  intros Hvalid.
  split; [intros ms; apply find_all_possible_moves_inv; exact Hvalid|].
  intros Hres. assert (Hr : ready self) by (split; assumption).
  split; [apply find_all_possible_moves_filter; exact Hr|].
  intros mv. rewrite filter_In, <- (legalb_legal_move self mv Hr).
  split; [intros [_ H]; exact H|].
  intros H. split; [apply legal_in_candidates|]; exact H.
Qed.

Lemma ready_board_m : ready board_m.
Proof. split; [exact valid_board_m|reflexivity]. Qed.

Lemma find_all_possible_moves_spec_witness :
  valid board_m /\
  find_all_possible_moves board_m
  = Ok [(4, 4, LEFT); (2, 5, RIGHT); (5, 6, UP); (5, 6, RIGHT)] /\
  [(4, 4, LEFT); (2, 5, RIGHT); (5, 6, UP); (5, 6, RIGHT)]
  = List.filter (legalb board_m) (candidates board_m) /\
  (forall mv, List.In mv (List.filter (legalb board_m) (candidates board_m))
              <-> legal_move board_m mv).
Proof.
  split; [exact valid_board_m|].
  destruct (find_all_possible_moves_spec board_m valid_board_m) as [H1 H2].
  split; [reflexivity|]. split; [apply H1; reflexivity|].
  apply (H2 eq_refl).
Defined.

(** ** C10: no push from or into the padding *)

Lemma is_open_not_sentinel (e : Z) : is_open e = true -> e <> -1.
Proof.
  unfold is_open. intros H ->. discriminate.
Qed.

(** C10. On a board that passed validation, no move of a list the
    generator returns has the sentinel -1 on its box cell or on its target
    cell; with the grid resolved the generator does return.  The sentinel
    has the box bit set, the scan skips it by its own test, and
    [is_blocked] answers [True] on it. *)
Theorem find_all_possible_moves_no_sentinel (self : skb_map) :
  valid self ->
  (forall ms x y d,
      find_all_possible_moves self = Ok ms -> List.In (x, y, d) ms ->
      exists e t,
        element self x y = Ok e /\ e <> -1 /\
        element self (fst (step d (x, y))) (snd (step d (x, y))) = Ok t /\
        t <> -1) /\
  (resolve_reachable self = Ok self ->
   exists ms, find_all_possible_moves self = Ok ms) /\
  has_box (-1) = true /\
  (forall x y ms', element self x y = Ok (-1) ->
                   moves_cell self x y ms' = Ok ms') /\
  (forall x y, element self x y = Ok (-1) -> is_blocked self x y = Ok true).
Proof.
  intros Hvalid. pose proof Hvalid as [Hg _].
  split; [|split; [|split; [reflexivity|split]]].
  - intros ms x y d Hms Hin.
    rewrite (find_all_possible_moves_inv self ms Hvalid Hms) in Hin.
    apply filter_In in Hin as [_ Hl].
    unfold legalb, holds_box in Hl. cbn [fst snd] in Hl.
    rewrite !andb_true_iff, !negb_true_iff in Hl.
    destruct Hl as ((((Ho & _) & _) & Hbl) & _).
    apply not_blocked_open in Hbl.
    exists (cell_at self x y),
      (cell_at self (fst (step d (x, y))) (snd (step d (x, y)))).
    split; [apply element_in_bounds;
            [exact Hg|apply is_open_in_bounds; exact Ho]|].
    split; [apply is_open_not_sentinel; exact Ho|].
    split; [apply element_in_bounds;
            [exact Hg|apply is_open_in_bounds; exact Hbl]|].
    apply is_open_not_sentinel; exact Hbl.
  - intros Hres. eexists.
    apply find_all_possible_moves_filter. split; assumption.
  - intros x y ms' He. unfold moves_cell. rewrite He. reflexivity.
  - intros x y He. unfold is_blocked. rewrite He. reflexivity.
Qed.

Lemma find_all_possible_moves_no_sentinel_witness :
  valid board_m /\
  find_all_possible_moves board_m
  = Ok [(4, 4, LEFT); (2, 5, RIGHT); (5, 6, UP); (5, 6, RIGHT)] /\
  (forall x y d,
      List.In (x, y, d)
              [(4, 4, LEFT); (2, 5, RIGHT); (5, 6, UP); (5, 6, RIGHT)] ->
      exists e t,
        element board_m x y = Ok e /\ e <> -1 /\
        element board_m (fst (step d (x, y))) (snd (step d (x, y))) = Ok t /\
        t <> -1).
Proof.
  split; [exact valid_board_m|]. split; [reflexivity|].
  intros x y d.
  apply (proj1 (find_all_possible_moves_no_sentinel board_m valid_board_m)).
  reflexivity.
Defined.

(** ** Writing cells of a board *)

Lemma update_element_spec (self : skb_map) (x y v : Z) :
  len (array self) = width self * height self -> in_bounds self x y ->
  is_c_int v = true ->
  exists a', update_element self x y v = Ok (set_array self a') /\
    len a' = width self * height self /\
    grid_at self a' x y = v /\
    (forall x' y', in_bounds self x' y' -> (x', y') <> (x, y) ->
                   grid_at self a' x' y' = grid_at self (array self) x' y').
Proof.
  intros Hlen Hb Hv.
  destruct (setitem_grid self (array self) x y v Hlen Hb Hv)
    as (a' & Hset & Hlen' & Hat & Hother).
  exists a'. unfold update_element. rewrite Hset. simpl.
  repeat split; try assumption. congruence.
Qed.

Lemma set_unsolved_if (b : skb_map) (c : bool) (v : Z) :
  (if c then set_unsolved b v else b)
  = set_unsolved b (if c then v else unsolved b).
Proof. destruct c; [reflexivity|]. destruct b; reflexivity. Qed.

(** ** What a push needs *)

(** What a push needs: a validated board, a box on [P], and next to it a
    cell [T] that is not blocked; [C] is the character's cell. *)
Record push_ok (self : skb_map) (P T C : Z * Z) : Prop := mk_push_ok {
  push_geometry : geometry self;
  push_cells : cells_ok self = true;
  push_character : character self = Some C;
  push_char_cell : charv (cell_at self (fst C) (snd C)) = 1;
  push_char_unique :
    forall c, in_bounds self (fst c) (snd c) -> c <> C ->
              charv (cell_at self (fst c) (snd c)) = 0;
  push_box : holds_box self P = true;
  push_target : blocked_at self T = false;
  push_no_corner : dead_corner_at self (fst T) (snd T) = false;
  push_adjacent : List.In T (neighbours P)
}.

Lemma cell_no_character_on_box (self : skb_map) (x y : Z) :
  cells_ok self = true -> is_open (cell_at self x y) = true ->
  has_character (cell_at self x y) && has_box (cell_at self x y) = false.
Proof.
  intros Hc Ho. pose proof (is_open_in_bounds _ _ _ Ho) as Hb.
  rewrite cells_ok_spec in Hc. specialize (Hc x y Hb).
  unfold cell_okb in Hc. rewrite Ho in Hc. simpl in Hc.
  rewrite !andb_true_iff in Hc. destruct Hc as (_ & Hc).
  apply negb_true_iff in Hc. exact Hc.
Qed.

Lemma box_cell_value (self : skb_map) (P : Z * Z) :
  cells_ok self = true -> holds_box self P = true ->
  cell_at self (fst P) (snd P) = 0x41 \/ cell_at self (fst P) (snd P) = 0x61.
Proof.
  intros Hc Hb. unfold holds_box in Hb. apply andb_true_iff in Hb as [Ho Hx].
  destruct (open_cell_facts self _ _ Hc Ho) as (Hv & _ & _).
  pose proof (cell_no_character_on_box self _ _ Hc Ho) as Hn.
  open_cases Hv; rewrite Hc0 in *; try discriminate; auto.
Qed.

Lemma character_cell_value (self : skb_map) (C : Z * Z) :
  cells_ok self = true -> charv (cell_at self (fst C) (snd C)) = 1 ->
  cell_at self (fst C) (snd C) = 0x11 \/ cell_at self (fst C) (snd C) = 0x31.
Proof.
  intros Hc H1. pose proof (charv_open _ H1) as Ho.
  destruct (open_cell_facts self _ _ Hc Ho) as (Hv & _ & _).
  pose proof (cell_no_character_on_box self _ _ Hc Ho) as Hn.
  unfold charv in H1. rewrite Ho in H1.
  open_cases Hv; rewrite Hc0 in *; try discriminate; auto.
Qed.

Lemma target_cell_value (self : skb_map) (T : Z * Z) :
  cells_ok self = true -> blocked_at self T = false ->
  List.In (cell_at self (fst T) (snd T)) [0x01; 0x11; 0x21; 0x31].
Proof.
  intros Hc Hb. pose proof (not_blocked_open self T Hb) as Ho.
  destruct (open_cell_facts self _ _ Hc Ho) as (Hv & _ & _).
  unfold blocked_at in Hb. apply orb_false_iff in Hb as [_ Hb].
  open_cases Hv; rewrite Hc0 in *; try discriminate; simpl; auto.
Qed.

Lemma neighbour_neq (P T : Z * Z) : List.In T (neighbours P) -> T <> P.
Proof.
  destruct P as [x y]. simpl.
  intros [<-|[<-|[<-|[<-|[]]]]] H; injection H; lia.
Qed.

Lemma element_same_shape (b self : skb_map) (x y : Z) :
  width b = width self -> height b = height self ->
  len (array b) = width self * height self -> in_bounds self x y ->
  element b x y = Ok (grid_at self (array b) x y).
Proof.
  intros Hw Hh Hlen Hb. unfold element. rewrite Hw.
  apply getitem_grid_at; assumption.
Qed.

Lemma update_element_same_shape (b self : skb_map) (x y v : Z) :
  width b = width self -> height b = height self ->
  len (array b) = width self * height self -> in_bounds self x y ->
  is_c_int v = true ->
  exists a', update_element b x y v = Ok (set_array b a') /\
    len a' = width self * height self /\
    grid_at self a' x y = v /\
    (forall x' y', in_bounds self x' y' -> (x', y') <> (x, y) ->
                   grid_at self a' x' y' = grid_at self (array b) x' y').
Proof.
  intros Hw Hh Hlen Hb Hv.
  destruct (setitem_grid self (array b) x y v Hlen Hb Hv)
    as (a' & Hset & Hlen' & Hat & Hother).
  exists a'. unfold update_element. rewrite Hw, Hset. simpl.
  repeat split; try assumption. congruence.
Qed.

Definition moved_value (self : skb_map) (P T C c : Z * Z) : Z :=
  let e := cell_at self (fst c) (snd c) in
  if bool_decide (c = P) then Z.lor (Z.land e (Z.lnot 0x40)) 0x10
  else if bool_decide (c = T) then Z.lor (Z.land e (Z.lnot 0x10)) 0x40
  else if bool_decide (c = C) then Z.land e (Z.lnot 0x10)
  else e.

Definition moved_unsolved (self : skb_map) (P T : Z * Z) : Z :=
  unsolved self + Z.b2z (has_dest (cell_at self (fst P) (snd P)))
  - Z.b2z (has_dest (cell_at self (fst T) (snd T))).

Lemma move_box_spec (self : skb_map) (d : Dir) (P T C : Z * Z) :
  push_ok self P T C -> T = step d P ->
  exists a,
    move_box self (fst P) (snd P) d
    = Ok (mk_skb_map (height self) (width self) a (box self) (dest self)
                     (moved_unsolved self P T) (Some P) (reachable self)) /\
    len a = width self * height self /\
    forall x y, in_bounds self x y ->
                grid_at self a x y = moved_value self P T C (x, y).
Proof.
  intros Hp HT. pose proof Hp as [Hg Hc Hch Hcc Hcu Hbox Htg _ Hadj].
  pose proof Hg as (_ & _ & Hlen).
  pose proof (neighbour_neq P T Hadj) as HTP.
  assert (HPC : P <> C).
  { intros ->. destruct (box_cell_value self C Hc Hbox) as [H|H];
      rewrite H in Hcc; discriminate. }
  pose proof (box_cell_value self P Hc Hbox) as HeP.
  pose proof (character_cell_value self C Hc Hcc) as HeC.
  pose proof (target_cell_value self T Hc Htg) as HeT.
  assert (HbP : in_bounds self (fst P) (snd P)).
  { unfold holds_box in Hbox. apply andb_true_iff in Hbox as [Ho _].
    apply is_open_in_bounds. exact Ho. }
  assert (HbT : in_bounds self (fst T) (snd T))
    by (apply is_open_in_bounds, not_blocked_open; exact Htg).
  assert (HbC : in_bounds self (fst C) (snd C))
    by (apply is_open_in_bounds, charv_open; exact Hcc).
  assert (HTchar : T <> C ->
            has_character (cell_at self (fst T) (snd T)) = false).
  { intros Hne. pose proof (Hcu T HbT Hne) as H0. unfold charv in H0.
    rewrite (not_blocked_open self T Htg) in H0.
    destruct (has_character _); [discriminate|reflexivity]. }
  destruct P as [x y], C as [cx cy], T as [tx ty]. cbn [fst snd] in *.
  assert (Hd : match d with
               | UP => (x, y - 1)
               | RIGHT => (x + 1, y)
               | DOWN => (x, y + 1)
               | LEFT => (x - 1, y)
               end = (tx, ty)) by (destruct d; simpl in HT; congruence).
  unfold move_box.
  rewrite (element_in_bounds self x y Hg HbP).
  cbn [bind].
  assert (HboxP : (Z.land (cell_at self x y) 64 =? 0) = false)
    by (destruct HeP as [-> | ->]; reflexivity).
  rewrite HboxP, Hch. cbn [bind].
  rewrite (element_in_bounds self cx cy Hg HbC). cbn [bind].
  destruct (update_element_same_shape self self cx cy
              (Z.land (cell_at self cx cy) (Z.lnot 16))
              eq_refl eq_refl Hlen HbC)
    as (a1 & U1 & L1 & V1 & O1).
  { destruct HeC as [-> | ->]; reflexivity. }
  rewrite U1. cbn [bind].
  (* the box cell *)
  rewrite (element_same_shape (set_array self a1) self x y
             eq_refl eq_refl L1 HbP).
  cbn [bind array set_array]. rewrite (O1 x y HbP HPC).
  fold (cell_at self x y).
  destruct (update_element_same_shape (set_array self a1) self x y
              (Z.land (cell_at self x y) (Z.lnot 64))
              eq_refl eq_refl L1 HbP)
    as (a2 & U2 & L2 & V2 & O2).
  { destruct HeP as [-> | ->]; reflexivity. }
  rewrite U2. cbn [bind].
  rewrite (element_same_shape (set_array (set_array self a1) a2) self x y
             eq_refl eq_refl L2 HbP).
  cbn [bind array set_array]. rewrite V2, Hd. cbn iota zeta beta.
  rewrite set_unsolved_if.
  (* the target cell *)
  match goal with
  | |- context [set_unsolved (set_array (set_array self a1) a2) ?u] =>
      set (u2 := u)
  end.
  assert (HvT : grid_at self a2 tx ty
                = Z.land (cell_at self tx ty) (Z.lnot 16)).
  { rewrite (O2 tx ty HbT HTP). cbn [array set_array].
    destruct (decide ((tx, ty) = (cx, cy))) as [Heq|Hne].
    - injection Heq as -> ->. exact V1.
    - rewrite (O1 tx ty HbT Hne). fold (cell_at self tx ty).
      specialize (HTchar Hne). simpl in HeT.
      destruct HeT as [H|[H|[H|[H|[]]]]]; rewrite <- H in *;
        try discriminate; reflexivity. }
  rewrite (element_same_shape
             (set_unsolved (set_array (set_array self a1) a2) u2) self tx ty
             eq_refl eq_refl L2 HbT).
  cbn [bind array set_array set_unsolved]. rewrite HvT.
  destruct (update_element_same_shape
              (set_unsolved (set_array (set_array self a1) a2) u2) self tx ty
              (Z.lor (Z.land (cell_at self tx ty) (Z.lnot 16)) 64)
              eq_refl eq_refl L2 HbT)
    as (a3 & U3 & L3 & V3 & O3).
  { simpl in HeT. destruct HeT as [H|[H|[H|[H|[]]]]]; rewrite <- H;
      reflexivity. }
  rewrite U3. cbn [bind].
  rewrite (element_same_shape
             (set_array (set_unsolved (set_array (set_array self a1) a2) u2)
                        a3) self tx ty eq_refl eq_refl L3 HbT).
  cbn [bind array set_array]. rewrite V3, set_unsolved_if.
  match goal with
  | |- context [set_character (set_unsolved ?b ?u) _] =>
      set (u3 := u); set (b3 := b)
  end.
  (* the character on the vacated cell *)
  assert (HPT : (x, y) <> (tx, ty)) by congruence.
  rewrite (element_same_shape
             (set_character (set_unsolved b3 u3) (Some (x, y))) self x y
             eq_refl eq_refl L3 HbP).
  cbn [bind array set_array set_unsolved set_character b3].
  rewrite (O3 x y HbP HPT). cbn [array set_array set_unsolved]. rewrite V2.
  destruct (update_element_same_shape
              (set_character (set_unsolved b3 u3) (Some (x, y))) self x y
              (Z.lor (Z.land (cell_at self x y) (Z.lnot 64)) 16)
              eq_refl eq_refl L3 HbP)
    as (a4 & U4 & L4 & V4 & O4).
  { destruct HeP as [-> | ->]; reflexivity. }
  rewrite U4. exists a4. split; [|split; [exact L4|]].
  - f_equal. unfold set_array, set_character, set_unsolved, b3. simpl.
    f_equal. unfold u3, u2, moved_unsolved, has_dest. simpl.
    simpl in HeT.
    destruct HeP as [-> | ->];
      destruct HeT as [H|[H|[H|[H|[]]]]]; rewrite <- H; simpl; lia.
  - intros x0 y0 Hb0. unfold moved_value. cbn [fst snd].
    destruct (decide ((x0, y0) = (x, y))) as [Heq|Hne].
    { injection Heq as -> ->.
      rewrite bool_decide_eq_true_2 by reflexivity. exact V4. }
    rewrite (bool_decide_eq_false_2 _ Hne).
    rewrite (O4 x0 y0 Hb0 Hne).
    cbn [array set_array set_unsolved set_character b3].
    destruct (decide ((x0, y0) = (tx, ty))) as [Heq|Hne'].
    { injection Heq as -> ->.
      rewrite bool_decide_eq_true_2 by reflexivity. exact V3. }
    rewrite (bool_decide_eq_false_2 _ Hne').
    rewrite (O3 x0 y0 Hb0 Hne'). cbn [array set_array set_unsolved].
    rewrite (O2 x0 y0 Hb0 Hne). cbn [array set_array].
    destruct (decide ((x0, y0) = (cx, cy))) as [Heq|Hne''].
    { injection Heq as -> ->.
      rewrite bool_decide_eq_true_2 by reflexivity. exact V1. }
    rewrite (bool_decide_eq_false_2 _ Hne'').
    rewrite (O1 x0 y0 Hb0 Hne''). reflexivity.
Qed.

(** The cells after the push keep their kind; the box flag has moved from
    [P] to [T] and the character flag is on [P] alone. *)
Lemma moved_value_facts (self : skb_map) (P T C c : Z * Z) :
  push_ok self P T C ->
  let e := cell_at self (fst c) (snd c) in
  let e' := moved_value self P T C c in
  (e' =? 0) = (e =? 0) /\ (e' =? -1) = (e =? -1) /\
  has_dest e' = has_dest e /\ open_value e' = open_value e /\
  has_box e' = (if bool_decide (c = P) then false
                else if bool_decide (c = T) then true else has_box e) /\
  (is_open e = true -> has_character e' = bool_decide (c = P)).
Proof.
  intros [Hg Hc Hch Hcc Hcu Hbox Htg _ Hadj]. cbv zeta. unfold moved_value.
  destruct (decide (c = P)) as [->|HP].
  { rewrite bool_decide_eq_true_2 by reflexivity.
    destruct (box_cell_value self P Hc Hbox) as [-> | ->];
      repeat split; reflexivity. }
  rewrite (bool_decide_eq_false_2 _ HP).
  destruct (decide (c = T)) as [->|HT].
  { rewrite bool_decide_eq_true_2 by reflexivity.
    pose proof (target_cell_value self T Hc Htg) as HeT. simpl in HeT.
    destruct HeT as [H|[H|[H|[H|[]]]]]; rewrite <- H;
      repeat split; reflexivity. }
  rewrite (bool_decide_eq_false_2 _ HT).
  destruct (decide (c = C)) as [->|HC].
  { rewrite bool_decide_eq_true_2 by reflexivity.
    destruct (character_cell_value self C Hc Hcc) as [-> | ->];
      repeat split; reflexivity. }
  rewrite (bool_decide_eq_false_2 _ HC).
  repeat split; try reflexivity.
  intros Ho. pose proof (is_open_in_bounds _ _ _ Ho) as Hb.
  specialize (Hcu c Hb HC). unfold charv in Hcu. rewrite Ho in Hcu.
  destruct (has_character _); [discriminate|reflexivity].
Qed.

Lemma moved_cell_at (self : skb_map) (P T C : Z * Z) (a : list Z)
  (bx ds u : Z) (ch : option (Z * Z)) (r : list Z) (x y : Z) :
  push_ok self P T C ->
  (forall x y, in_bounds self x y ->
               grid_at self a x y = moved_value self P T C (x, y)) ->
  let b := mk_skb_map (height self) (width self) a bx ds u ch r in
  (cell_at b x y =? 0) = (cell_at self x y =? 0) /\
  (cell_at b x y =? -1) = (cell_at self x y =? -1) /\
  has_dest (cell_at b x y) = has_dest (cell_at self x y) /\
  open_value (cell_at b x y) = open_value (cell_at self x y) /\
  has_box (cell_at b x y)
  = (if bool_decide ((x, y) = P) then false
     else if bool_decide ((x, y) = T) then true
     else has_box (cell_at self x y)) /\
  (is_open (cell_at self x y) = true ->
   has_character (cell_at b x y) = bool_decide ((x, y) = P)).
Proof.
  intros Hp Ha b.
  change (cell_at b x y) with (grid_at self a x y).
  destruct (in_boundsb self x y) eqn:Hb.
  - apply in_boundsb_spec in Hb. rewrite (Ha x y Hb).
    apply (moved_value_facts self P T C (x, y) Hp).
  - assert (Hout : forall g, grid_at self g x y = -1)
      by (intros g; unfold grid_at; rewrite Hb; reflexivity).
    unfold cell_at. rewrite !Hout.
    assert (HP : (x, y) <> P).
    { intros <-. pose proof (push_box _ _ _ _ Hp) as Hbox.
      unfold holds_box in Hbox. apply andb_true_iff in Hbox as [Ho _].
      apply is_open_in_bounds, in_boundsb_spec in Ho. cbn [fst snd] in Ho.
      congruence. }
    assert (HT : (x, y) <> T).
    { intros <-. pose proof (not_blocked_open _ _ (push_target _ _ _ _ Hp))
        as Ho.
      apply is_open_in_bounds, in_boundsb_spec in Ho. cbn [fst snd] in Ho.
      congruence. }
    rewrite (bool_decide_eq_false_2 _ HP), (bool_decide_eq_false_2 _ HT).
    repeat split; try reflexivity. discriminate.
Qed.

Lemma sumZ_update3 {A : Type} `{EqDecision A} (f g : A -> Z) (l : list A)
  (P T C : A) :
  List.NoDup l -> List.In P l -> List.In T l -> List.In C l ->
  T <> P -> P <> C ->
  (forall c, List.In c l -> c <> P -> c <> T -> c <> C -> g c = f c) ->
  sumZ g l = sumZ f l + (g P - f P) + (g T - f T)
             + (if decide (C = T) then 0 else g C - f C).
Proof.
  intros Hnd HP HT HC HTP HPC Hext.
  set (f1 := fun c => if decide (c = P) then g c else f c).
  set (f2 := fun c => if decide (c = T) then g c else f1 c).
  assert (H1 : sumZ f1 l = sumZ f l - f P + g P).
  { rewrite (sumZ_update f f1 l P Hnd HP).
    - unfold f1. destruct (decide (P = P)); [reflexivity|contradiction].
    - intros c _ Hne. unfold f1. destruct (decide (c = P)); [contradiction|].
      reflexivity. }
  assert (H2 : sumZ f2 l = sumZ f1 l - f T + g T).
  { rewrite (sumZ_update f1 f2 l T Hnd HT).
    - unfold f2, f1. destruct (decide (T = T)); [|contradiction].
      destruct (decide (T = P)); [contradiction|]. reflexivity.
    - intros c _ Hne. unfold f2. destruct (decide (c = T)); [contradiction|].
      reflexivity. }
  destruct (decide (C = T)) as [HCT|HCT].
  - rewrite (sumZ_ext f2 g l); [lia|].
    intros c Hc. unfold f2, f1.
    destruct (decide (c = T)); [reflexivity|].
    destruct (decide (c = P)); [reflexivity|].
    apply Hext; try assumption. congruence.
  - assert (H3 : f2 C = f C).
    { unfold f2, f1. destruct (decide (C = T)); [contradiction|].
      destruct (decide (C = P)); [congruence|]. reflexivity. }
    rewrite (sumZ_update f2 g l C Hnd HC); [lia|].
    intros c Hc Hne. unfold f2, f1.
    destruct (decide (c = T)); [reflexivity|].
    destruct (decide (c = P)); [reflexivity|].
    apply Hext; assumption.
Qed.

(** Arithmetic on the counters of concrete cell values. *)
Ltac cell_arith :=
  repeat match goal with
         | |- context [sumZ ?f ?l] =>
             let S0 := fresh "S" in set (S0 := sumZ f l) in *; clearbody S0
         end;
  unfold charv, boxv, destv, unsolvedv, is_open, has_box, has_dest,
    has_character;
  simpl; lia.

Section Moved.
Variable self : skb_map.
Variables P T C : Z * Z.
Variable a : list Z.
Variables bx ds u : Z.
Variable ch : option (Z * Z).
Variable r : list Z.
Hypothesis Hpush : push_ok self P T C.
Hypothesis Hcells : forall x y, in_bounds self x y ->
  grid_at self a x y = moved_value self P T C (x, y).

Let b : skb_map := mk_skb_map (height self) (width self) a bx ds u ch r.

Lemma moved_cells_ok : cells_ok b = true.
Proof.
  pose proof (push_cells _ _ _ _ Hpush) as Hc.
  assert (K : forall x y,
    (cell_at b x y =? 0) = (cell_at self x y =? 0) /\
    (cell_at b x y =? -1) = (cell_at self x y =? -1) /\
    has_dest (cell_at b x y) = has_dest (cell_at self x y) /\
    open_value (cell_at b x y) = open_value (cell_at self x y) /\
    has_box (cell_at b x y)
    = (if bool_decide ((x, y) = P) then false
       else if bool_decide ((x, y) = T) then true
       else has_box (cell_at self x y)) /\
    (is_open (cell_at self x y) = true ->
     has_character (cell_at b x y) = bool_decide ((x, y) = P)))
    by (intros; apply (moved_cell_at self P T C); assumption).
  assert (Hwall : forall x y, wall_at b x y = wall_at self x y)
    by (intros x y; apply (K x y)).
  assert (Hdc : forall x y, dead_corner_at b x y = dead_corner_at self x y).
  { intros x y. unfold dead_corner_at. rewrite !Hwall.
    destruct (K x y) as (_ & _ & -> & _). reflexivity. }
  apply cells_ok_spec. intros x y Hb.
  change (in_bounds self x y) in Hb.
  rewrite cells_ok_spec in Hc. specialize (Hc x y Hb).
  unfold cell_okb in *.
  destruct (K x y) as (K0 & K1 & _ & Kv & Kb & Kc).
  unfold is_open in *. rewrite K0, K1.
  destruct (negb ((cell_at self x y =? 0) || (cell_at self x y =? -1)))
    eqn:Ho; [|reflexivity].
  simpl in *. rewrite Kv, Kb, (Kc eq_refl), Hdc.
  change (interior b x y) with (interior self x y).
  destruct (K (x - 1) y) as (_ & -> & _).
  destruct (K (x + 1) y) as (_ & -> & _).
  destruct (K x (y - 1)) as (_ & -> & _).
  destruct (K x (y + 1)) as (_ & -> & _).
  rewrite !andb_true_iff in Hc.
  destruct Hc as (((((((Hv & Hi) & Hn1) & Hn2) & Hn3) & Hn4) & Hd) & Hcb).
  rewrite Hv, Hi, Hn1, Hn2, Hn3, Hn4. simpl.
  destruct (decide ((x, y) = P)) as [HP|HP].
  { rewrite (bool_decide_eq_true_2 _ HP). reflexivity. }
  rewrite (bool_decide_eq_false_2 _ HP).
  destruct (decide ((x, y) = T)) as [HT|HT].
  { rewrite (bool_decide_eq_true_2 _ HT).
    pose proof (push_no_corner _ _ _ _ Hpush) as Hn. rewrite <- HT in Hn.
    cbn [fst snd] in Hn. rewrite Hn. reflexivity. }
  rewrite (bool_decide_eq_false_2 _ HT). rewrite Hd.
  rewrite andb_false_l. reflexivity.
Qed.

Let eP := cell_at self (fst P) (snd P).
Let eT := cell_at self (fst T) (snd T).
Let eC := cell_at self (fst C) (snd C).

Lemma moved_at_box :
  moved_value self P T C P = Z.lor (Z.land eP (Z.lnot 0x40)) 0x10.
Proof.
  unfold moved_value. rewrite bool_decide_eq_true_2 by reflexivity.
  reflexivity.
Qed.

Lemma moved_at_target :
  moved_value self P T C T = Z.lor (Z.land eT (Z.lnot 0x10)) 0x40.
Proof.
  pose proof (neighbour_neq P T (push_adjacent _ _ _ _ Hpush)) as HTP.
  unfold moved_value. rewrite (bool_decide_eq_false_2 _ HTP).
  rewrite bool_decide_eq_true_2 by reflexivity. reflexivity.
Qed.

Lemma box_not_character : P <> C.
Proof.
  intros Heq. pose proof (push_char_cell _ _ _ _ Hpush) as Hcc.
  rewrite <- Heq in Hcc.
  destruct (box_cell_value self P (push_cells _ _ _ _ Hpush)
              (push_box _ _ _ _ Hpush)) as [H|H];
    rewrite H in Hcc; discriminate.
Qed.

Lemma moved_at_character :
  C <> T -> moved_value self P T C C = Z.land eC (Z.lnot 0x10).
Proof.
  intros HCT. pose proof box_not_character as HPC.
  unfold moved_value.
  rewrite (bool_decide_eq_false_2 (C = P)) by congruence.
  rewrite (bool_decide_eq_false_2 _ HCT).
  rewrite bool_decide_eq_true_2 by reflexivity. reflexivity.
Qed.

Lemma push_in_bounds :
  in_bounds self (fst P) (snd P) /\ in_bounds self (fst T) (snd T) /\
  in_bounds self (fst C) (snd C).
Proof.
  split; [|split].
  - pose proof (push_box _ _ _ _ Hpush) as Hbox.
    unfold holds_box in Hbox. apply andb_true_iff in Hbox as [Ho _].
    apply is_open_in_bounds. exact Ho.
  - apply is_open_in_bounds, not_blocked_open, (push_target _ _ _ _ Hpush).
  - apply is_open_in_bounds, charv_open, (push_char_cell _ _ _ _ Hpush).
Qed.

(** A sum over the cells after the push, from the sum before it. *)
Lemma moved_sum (k : Z -> Z) :
  sumZ (fun c => k (cell_at b (fst c) (snd c))) (raster self)
  = sumZ (fun c => k (cell_at self (fst c) (snd c))) (raster self)
    + (k (Z.lor (Z.land eP (Z.lnot 0x40)) 0x10) - k eP)
    + (k (Z.lor (Z.land eT (Z.lnot 0x10)) 0x40) - k eT)
    + (if decide (C = T) then 0 else k (Z.land eC (Z.lnot 0x10)) - k eC).
Proof.
  destruct push_in_bounds as (HbP & HbT & HbC).
  pose proof (neighbour_neq P T (push_adjacent _ _ _ _ Hpush)) as HTP.
  pose proof box_not_character as HPC.
  assert (Hb : forall c, in_bounds self (fst c) (snd c) ->
                 cell_at b (fst c) (snd c) = moved_value self P T C c).
  { intros [x y] Hxy. apply (Hcells x y Hxy). }
  rewrite (sumZ_update3 (fun c => k (cell_at self (fst c) (snd c)))
             (fun c => k (cell_at b (fst c) (snd c)))
             (raster self) P T C).
  - cbv beta. rewrite (Hb P HbP), (Hb T HbT), moved_at_box, moved_at_target.
    destruct (decide (C = T)) as [HCT|HCT]; [reflexivity|].
    rewrite (Hb C HbC), (moved_at_character HCT). reflexivity.
  - apply NoDup_raster.
  - destruct P. apply in_raster. exact HbP.
  - destruct T. apply in_raster. exact HbT.
  - destruct C. apply in_raster. exact HbC.
  - exact HTP.
  - exact HPC.
  - intros [x y] Hin H1 H2 H3. cbv beta. apply in_raster in Hin.
    rewrite (Hb (x, y) Hin). unfold moved_value.
    rewrite (bool_decide_eq_false_2 _ H1), (bool_decide_eq_false_2 _ H2),
      (bool_decide_eq_false_2 _ H3).
    reflexivity.
Qed.

Lemma moved_tally :
  total_character (tally_of self) = 1 ->
  tally_of b
  = mk_tally (total_box (tally_of self)) (total_dest (tally_of self))
             (total_unsolved (tally_of self) + Z.b2z (has_dest eP)
              - Z.b2z (has_dest eT))
             (total_character (tally_of self)) (Some P).
Proof.
  intros Hone.
  destruct push_in_bounds as (HbP & HbT & HbC).
  pose proof (push_cells _ _ _ _ Hpush) as Hc.
  pose proof (box_cell_value self P Hc (push_box _ _ _ _ Hpush)) as HeP.
  pose proof (character_cell_value self C Hc (push_char_cell _ _ _ _ Hpush))
    as HeC.
  pose proof (target_cell_value self T Hc (push_target _ _ _ _ Hpush))
    as HeT.
  fold eP in HeP. fold eC in HeC. fold eT in HeT. simpl in HeT.
  assert (HTchar : C <> T -> eT = 0x01 \/ eT = 0x21).
  { intros Hne.
    pose proof (push_char_unique _ _ _ _ Hpush T HbT ltac:(congruence))
      as H0.
    fold eT in H0.
    destruct HeT as [H|[H|[H|[H|[]]]]]; rewrite <- H in *;
      try discriminate; auto. }
  assert (HTC : C = T -> eT = eC) by (intros <-; reflexivity).
  assert (Hchar : sumZ (fun c => charv (cell_at b (fst c) (snd c)))
                       (raster self) = 1).
  { rewrite (moved_sum charv).
    unfold tally_of in Hone. rewrite tally_from_spec in Hone.
    simpl in Hone.
    destruct (decide (C = T)) as [HCT|HCT].
    - specialize (HTC HCT).
      destruct HeP as [HP|HP], HeC as [HC|HC]; rewrite HP, HTC, HC;
        cell_arith.
    - destruct (HTchar HCT) as [HT|HT];
        destruct HeP as [HP|HP], HeC as [HC|HC]; rewrite HP, HT, HC;
        cell_arith. }
  unfold tally_of in *. rewrite !tally_from_spec in *.
  change (raster b) with (raster self). simpl in *.
  f_equal.
  - rewrite (moved_sum boxv).
    destruct (decide (C = T)) as [HCT|HCT].
    + specialize (HTC HCT).
      destruct HeP as [HP|HP], HeC as [HC|HC]; rewrite HP, HTC, HC;
        cell_arith.
    + destruct (HTchar HCT) as [HT|HT];
        destruct HeP as [HP|HP], HeC as [HC|HC]; rewrite HP, HT, HC;
        cell_arith.
  - rewrite (moved_sum destv).
    destruct (decide (C = T)) as [HCT|HCT].
    + specialize (HTC HCT).
      destruct HeP as [HP|HP], HeC as [HC|HC]; rewrite HP, HTC, HC;
        cell_arith.
    + destruct (HTchar HCT) as [HT|HT];
        destruct HeP as [HP|HP], HeC as [HC|HC]; rewrite HP, HT, HC;
        cell_arith.
  - rewrite (moved_sum unsolvedv).
    destruct (decide (C = T)) as [HCT|HCT].
    + specialize (HTC HCT).
      destruct HeP as [HP|HP], HeC as [HC|HC]; rewrite HP, HTC, HC;
        cell_arith.
    + destruct (HTchar HCT) as [HT|HT];
        destruct HeP as [HP|HP], HeC as [HC|HC]; rewrite HP, HT, HC;
        cell_arith.
  - lia.
  - apply last_character_unique.
    + apply NoDup_raster.
    + destruct P. apply in_raster. exact HbP.
    + change (cell_at b (fst P) (snd P))
        with (grid_at self a (fst P) (snd P)).
      rewrite (Hcells _ _ HbP).
      replace (fst P, snd P) with P by (destruct P; reflexivity).
      rewrite moved_at_box.
      destruct HeP as [HP|HP]; rewrite HP; reflexivity.
    + exact Hchar.
Qed.
End Moved.

Lemma resolve_reachable_again (self b : skb_map) :
  resolve_reachable self = Ok b -> resolve_reachable b = Ok b.
Proof.
  unfold resolve_reachable. intros H.
  apply bind_Ok in H as (st0 & Hst0 & H).
  apply bind_Ok in H as (st & Hst & H). injection H as <-.
  change (resolve_start (set_reachable self (grid st)))
    with (resolve_start self).
  rewrite Hst0. simpl. rewrite Hst. simpl.
  destruct self; reflexivity.
Qed.

Lemma valid_push_ok (self : skb_map) (x y : Z) (d : Dir) :
  valid self -> legalb self (x, y, d) = true ->
  exists C, push_ok self (x, y) (step d (x, y)) C.
Proof.
  intros [Hg Hv] Hl.
  apply validate_true_Ok in Hv as (Hc & (H1 & _) & (_ & _ & _ & Hch));
    [|exact Hg].
  destruct (tally_character_spec self H1) as (C & Htc & HbC & Hcv & Huniq).
  unfold legalb in Hl. rewrite !andb_true_iff, !negb_true_iff in Hl.
  destruct Hl as (((Hbox & _) & Hbl) & Hdc).
  exists C. constructor; try assumption.
  - congruence.
  - unfold neighbours, step. cbn [fst snd]. destruct d; simpl; auto.
Qed.

(** ** C1: a generated move leads to a board that validates *)

Lemma move_validates (self : skb_map) (x y : Z) (d : Dir) :
  valid self -> legalb self (x, y, d) = true ->
  exists nm, create_new_map_by_move self x y d = Ok nm /\
             validate true nm = Ok nm /\ ready nm /\
             width nm = width self /\ height nm = height self.
Proof.
  intros Hvalid Hl.
  destruct (valid_push_ok self x y d Hvalid Hl) as [C Hp].
  destruct (move_box_spec self d (x, y) (step d (x, y)) C Hp eq_refl)
    as (a & Hmove & Hlen & Hcells).
  cbn [fst snd] in Hmove.
  pose proof Hvalid as [Hg Hv].
  apply validate_true_Ok in Hv as (Hc & (H1 & H2 & H3) & (C1 & C2 & C3 & C4));
    [|exact Hg].
  set (u := moved_unsolved self (x, y) (step d (x, y))) in *.
  set (b := mk_skb_map (height self) (width self) a (box self) (dest self) u
                       (Some (x, y)) (reachable self)) in *.
  assert (Hgb : geometry b).
  { destruct Hg as (Hw & Hh & _). repeat split; assumption. }
  assert (Hcb : cells_ok b = true)
    by (apply (moved_cells_ok self (x, y) (step d (x, y)) C); assumption).
  pose proof (moved_tally self (x, y) (step d (x, y)) C a (box self)
                (dest self) u (Some (x, y)) (reachable self) Hp Hcells H1)
    as Htally.
  fold b in Htally.
  destruct (push_in_bounds self (x, y) (step d (x, y)) C Hp)
    as (HbP & _ & _).
  cbn [fst snd] in HbP.
  assert (Hfill : fillable b (x, y)).
  { constructor; try assumption; [reflexivity|].
    cbn [fst snd].
    change (cell_at b x y) with (grid_at self a x y).
    rewrite (Hcells x y HbP),
      (moved_at_box self (x, y) (step d (x, y)) C).
    destruct (box_cell_value self (x, y) Hc (push_box _ _ _ _ Hp))
      as [H|H]; cbn [fst snd] in *; rewrite H; reflexivity. }
  destruct (resolve_reachable_fillable b (x, y) Hfill)
    as (st & marked & Hrb & _ & _).
  set (nm := set_reachable b (grid st)) in *.
  assert (Hvnm : validate true nm = Ok nm).
  { apply validate_true_Ok; [exact Hgb|].
    change (cells_ok nm) with (cells_ok b).
    change (tally_of nm) with (tally_of b).
    rewrite Htally. split; [exact Hcb|]. split.
    - repeat split; assumption.
    - repeat split; simpl; try assumption.
      unfold u, moved_unsolved. rewrite C3. reflexivity. }
  exists nm. split; [|split; [exact Hvnm|]].
  - unfold create_new_map_by_move. rewrite Hmove. simpl.
    rewrite Hrb. simpl. rewrite Hvnm. reflexivity.
  - split; [|split; reflexivity].
    split; [split; [exact Hgb|exact Hvnm]|].
    apply (resolve_reachable_again b). exact Hrb.
Qed.

(** C1. For a board that passed validation and a move of the list the
    generator returns for it, the transition runs to its end, through no
    [exit] and no exception, and its result passes [validate(True)]; the
    result has its reachability grid resolved. *)
Theorem create_new_map_by_move_valid (self : skb_map) (ms : list move)
  (x y : Z) (d : Dir) :
  valid self -> find_all_possible_moves self = Ok ms ->
  List.In (x, y, d) ms ->
  exists nm, create_new_map_by_move self x y d = Ok nm /\
             validate true nm = Ok nm /\ ready nm.
Proof.
  intros Hvalid Hms Hin.
  rewrite (find_all_possible_moves_inv self ms Hvalid Hms) in Hin.
  apply filter_In in Hin as [_ Hl].
  destruct (move_validates self x y d Hvalid Hl) as (nm & H1 & H2 & H3 & _).
  exists nm. auto.
Qed.

Lemma create_new_map_by_move_valid_witness :
  valid board_m /\
  find_all_possible_moves board_m
  = Ok [(4, 4, LEFT); (2, 5, RIGHT); (5, 6, UP); (5, 6, RIGHT)] /\
  exists nm, create_new_map_by_move board_m 2 5 RIGHT = Ok nm /\
             validate true nm = Ok nm /\ ready nm.
Proof.
  split; [exact valid_board_m|]. split; [reflexivity|].
  apply (create_new_map_by_move_valid board_m
           [(4, 4, LEFT); (2, 5, RIGHT); (5, 6, UP); (5, 6, RIGHT)]
           2 5 RIGHT valid_board_m eq_refl).
  simpl. auto.
Defined.

(** ** Boards built by [__init__] *)

Lemma valid_set_reachable (b : skb_map) (g : list Z) :
  valid b -> valid (set_reachable b g).
Proof.
  intros [Hg Hv]. split; [exact Hg|].
  apply validate_true_Ok in Hv; [|exact Hg].
  apply validate_true_Ok; [exact Hg|]. exact Hv.
Qed.

Lemma resolve_reachable_ready (b b' : skb_map) :
  valid b -> resolve_reachable b = Ok b' ->
  ready b' /\ width b' = width b /\ height b' = height b.
Proof.
  intros Hv Hr. pose proof (resolve_reachable_again b b' Hr) as Hr'.
  unfold resolve_reachable in Hr. apply bind_Ok in Hr as (st0 & _ & Hr).
  apply bind_Ok in Hr as (st & _ & Hr). injection Hr as <-.
  split; [|split; reflexivity].
  split; [apply valid_set_reachable; exact Hv|exact Hr'].
Qed.

(** A board that [skb_map(mapl)] returns is validated and resolved. *)
Lemma skb_map_init_ready (mapl : list (list Z)) (b : skb_map) :
  skb_map_init mapl = Ok b -> ready b.
Proof.
  unfold skb_map_init. intros H. apply bind_Ok in H as (a & Ha & H).
  unfold array_of_list in Ha.
  destruct (forallb is_c_int _); [|discriminate]. injection Ha as <-.
  fold (unvalidated mapl) in H. apply bind_Ok in H as (b1 & Hb1 & Hr).
  pose proof (unvalidated_geometry mapl) as Hg.
  apply validate_false_Ok in Hb1 as (Hc & Ht & ->); [|exact Hg].
  eapply resolve_reachable_ready; [|exact Hr].
  split; [exact Hg|]. apply validate_true_Ok; [exact Hg|].
  split; [exact Hc|]. split; [exact Ht|]. repeat split.
Qed.

(** ** The grids a search can see *)

(** Every value a cell of a reachability grid can have lies in -1..255. *)
Definition cell_values : list Z := List.map (fun v => v - 1) (range 257).

Lemma in_cell_values (v : Z) : List.In v cell_values <-> -1 <= v <= 255.
Proof.
  unfold cell_values. rewrite in_map_iff. split.
  - intros (k & <- & Hk). apply in_range in Hk. lia.
  - intros H. exists (v + 1). split; [lia|]. apply in_range. lia.
Qed.

(** All lists of length [n] over [V]. *)
Fixpoint words (V : list Z) (n : nat) : list (list Z) :=
  match n with
  | O => [[]]
  | S n' => flat_map (fun v => List.map (cons v) (words V n')) V
  end.

Lemma in_words (V : list Z) (l : list Z) :
  (forall v, List.In v l -> List.In v V) -> List.In l (words V (length l)).
Proof.
  induction l as [|v l IH]; intros H; simpl; [auto|].
  apply in_flat_map. exists v. split; [apply H; left; reflexivity|].
  apply in_map_iff. exists l. split; [reflexivity|].
  apply IH. intros v' Hv'. apply H. right. exact Hv'.
Qed.

Lemma fill_value_range (e : Z) (start marked : bool) :
  open_value e = true -> -1 <= fill_value e start marked <= 255.
Proof.
  intros Hv. open_cases Hv; subst e; destruct start, marked;
    vm_compute; split; discriminate.
Qed.

(** The coordinate of an index of the array. *)
Lemma index_coordinate (self : skb_map) (g : list Z) (i : nat) (v : Z) :
  0 <= width self -> len g = width self * height self ->
  g !! i = Some v ->
  exists x y, in_bounds self x y /\ grid_at self g x y = v.
Proof.
  intros Hw Hlen Hv. pose proof (lookup_lt_Some _ _ _ Hv) as Hi.
  unfold len in Hlen.
  assert (Hw0 : 0 < width self).
  { destruct (Z.eq_dec (width self) 0) as [E|E]; [|lia].
    rewrite E in Hlen. lia. }
  pose proof (Z.div_mod (Z.of_nat i) (width self) ltac:(lia)) as Hdm.
  pose proof (Z.mod_pos_bound (Z.of_nat i) (width self) Hw0) as Hx.
  assert (Hy : 0 <= Z.of_nat i / width self < height self).
  { split; [apply Z.div_pos; lia|].
    apply Z.div_lt_upper_bound; [lia|]. lia. }
  exists (Z.of_nat i mod width self), (Z.of_nat i / width self).
  assert (Hb : in_bounds self (Z.of_nat i mod width self)
                               (Z.of_nat i / width self))
    by (split; assumption).
  split; [exact Hb|]. unfold grid_at.
  apply in_boundsb_spec in Hb as ->.
  replace (Z.to_nat (Z.of_nat i mod width self
                     + Z.of_nat i / width self * width self))
    with i by lia.
  rewrite Hv. reflexivity.
Qed.

Lemma ready_reachable_word (b : skb_map) :
  ready b ->
  List.In (reachable b)
          (words cell_values (Z.to_nat (width b * height b))).
Proof.
  intros Hr.
  destruct (ready_grid b Hr) as (c0 & marked & Hfill & [Hlen Hg] & Hm).
  pose proof (fillable_geometry _ _ Hfill) as (Hw & Hh & _).
  replace (Z.to_nat (width b * height b)) with (length (reachable b))
    by (unfold len in Hlen; lia).
  apply in_words. intros v Hv.
  apply list_elem_of_In, list_elem_of_lookup in Hv as [i Hi].
  destruct (index_coordinate b (reachable b) i v Hw Hlen Hi)
    as (x & y & Hb & <-).
  apply in_cell_values. rewrite (Hg x y Hb). unfold marked_value.
  cbn [fst snd].
  destruct (is_open (cell_at b x y)) eqn:Ho.
  - destruct (open_cell_facts b x y (fillable_cells _ _ Hfill) Ho)
      as (Hv & _ & _).
    apply fill_value_range. exact Hv.
  - assert (Hs : (x, y) <> c0).
    { intros <-. pose proof (fillable_open _ _ Hfill) as Ho'.
      simpl in Ho'. congruence. }
    rewrite (bool_decide_eq_false_2 _ Hs).
    unfold is_open in Ho. apply negb_false_iff, orb_true_iff in Ho.
    destruct Ho as [Ho|Ho]; apply Z.eqb_eq in Ho; rewrite Ho;
      destruct (bool_decide ((x, y) ∈ marked)); vm_compute;
      split; discriminate.
Qed.

(** ** The search: what holds between two iterations *)

(** A frame holds a board of the search, the moves the generator gives for
    it, and a cursor that is at least [lo] and before the end. *)
Definition frame_ok (lo : Z) (f : frame) : Prop :=
  ready (f_map f) /\
  find_all_possible_moves (f_map f) = Ok (f_moves f) /\
  lo <= f_cursor f < len (f_moves f).

(** The top frame may still be before its first move. *)
Definition history_ok (hist : list frame) : Prop :=
  match hist with
  | [] => True
  | h :: below => frame_ok (-1) h /\ Forall (frame_ok 0) below
  end.

Record search_inv (w0 h0 : Z) (st : search) : Prop := mk_search_inv {
  inv_history : history_ok (history st);
  inv_frames :
    Forall (fun f => width (f_map f) = w0 /\ height (f_map f) = h0)
           (history st);
  inv_seen :
    Forall (fun s => ready s /\ width s = w0 /\ height s = h0) (seen st);
  inv_nodup : List.NoDup (List.map reachable (seen st))
}.

(** The iterations the frames of the stack can still start. *)
Fixpoint weight (hist : list frame) : nat :=
  match hist with
  | [] => O
  | f :: below => (Z.to_nat (len (f_moves f) - f_cursor f) + weight below)%nat
  end.

Lemma frame_ok_weaken (f : frame) : frame_ok 0 f -> frame_ok (-1) f.
Proof. intros (H1 & H2 & H3). split; [exact H1|split; [exact H2|lia]]. Qed.

Lemma history_ok_below (h : frame) (below : list frame) :
  Forall (frame_ok 0) below -> history_ok below.
Proof.
  intros H. destruct below as [|h2 rest]; [exact I|].
  inversion H; subst. split; [apply frame_ok_weaken|]; assumption.
Qed.

Lemma mapM_Ok {A C : Type} (f : C -> result A) (l : list C) :
  (forall c, List.In c l -> exists a, f c = Ok a) ->
  exists r, mapM f l = Ok r.
Proof.
  induction l as [|c l IH]; intros H; simpl; [eauto|].
  destruct (H c (or_introl eq_refl)) as [a Ha]. rewrite Ha. simpl.
  destruct IH as [r Hr]; [intros; apply H; right; assumption|].
  rewrite Hr. simpl. eauto.
Qed.

Lemma getitem_in {A : Type} (a : list A) (i : Z) :
  0 <= i < len a -> exists v, getitem a i = Ok v /\ List.In v a.
Proof.
  intros Hi. unfold len in Hi.
  destruct (lookup_lt_is_Some_2 a (Z.to_nat i)) as [v Hv]; [lia|].
  exists v. split; [apply getitem_nonneg; [lia|exact Hv]|].
  apply list_elem_of_In, list_elem_of_lookup. eauto.
Qed.

Lemma existsb_compare_false (nm : skb_map) (seen : list skb_map) :
  existsb (compare nm) seen = false ->
  ~ List.In (reachable nm) (List.map reachable seen).
Proof.
  intros He Hin. apply in_map_iff in Hin as (s & Hs & Hin).
  assert (Ht : existsb (compare nm) seen = true).
  { apply existsb_exists. exists s. split; [exact Hin|].
    unfold compare. apply bool_decide_eq_true. congruence. }
  congruence.
Qed.

(** One iteration runs to its end, keeps the invariant, and either starts
    one of the remaining iterations of the stack or adds a board to
    [seen]. *)
Lemma search_step_progress (w0 h0 : Z) (st : search) :
  search_inv w0 h0 st -> history st <> [] ->
  exists st', search_step st = Ok st' /\ search_inv w0 h0 st' /\
    ((length (seen st') = length (seen st) /\
      (weight (history st') < weight (history st))%nat) \/
     length (seen st') = S (length (seen st))).
Proof.
  intros [Hh Hf Hs Hn] Hne. unfold search_step.
  destruct (history st) as [|h below] eqn:Hhist; [contradiction|].
  destruct Hh as [(Hr & Hms & Hcur) Hbelow].
  inversion Hf as [|? ? [Hw Hhh] Hfb]; subst.
  cbn [f_cursor f_moves f_map].
  destruct (Z.geb_spec (f_cursor h + 1) (len (f_moves h))) as [Hge|Hlt].
  - (* the frame is exhausted *)
    eexists. split; [reflexivity|]. split.
    + constructor; cbn [history seen]; try assumption.
      apply (history_ok_below h). exact Hbelow.
    + left. cbn [history seen weight]. split; [reflexivity|]. lia.
  - destruct (getitem_in (f_moves h) (f_cursor h + 1)) as (mv & Hget & Hin);
      [lia|].
    rewrite Hget. cbn [bind]. destruct mv as [[x y] d].
    assert (Hl : legalb (f_map h) (x, y, d) = true).
    { rewrite (find_all_possible_moves_filter _ Hr) in Hms.
      injection Hms as Hms. rewrite <- Hms in Hin.
      apply filter_In in Hin as [_ Hl]. exact Hl. }
    destruct (move_validates (f_map h) x y d (proj1 Hr) Hl)
      as (nm & Hnm & _ & Hrn & Hwn & Hhn).
    rewrite Hnm. cbn [bind].
    set (h' := mk_frame (f_map h) (f_moves h) (f_cursor h + 1)).
    assert (Hh' : frame_ok 0 h').
    { split; [exact Hr|]. split; [exact Hms|]. cbn [f_cursor f_moves h'].
      lia. }
    assert (Hpath : exists sp,
      (if completed nm
       then
         bind (mapM (fun t => getitem (f_moves t) (f_cursor t))
                    (rev (h' :: below)))
              (fun path => Ok (solutions st + 1, printed st ++ [path]))
       else Ok (solutions st, printed st)) = Ok sp).
    { destruct (completed nm); [|eauto].
      destruct (mapM_Ok (fun t : frame => getitem (f_moves t) (f_cursor t))
                  (rev (h' :: below))) as [path Hp].
      - intros t Ht. apply in_rev in Ht.
        assert (Hok : frame_ok 0 t).
        { destruct Ht as [<-|Ht]; [exact Hh'|].
          rewrite Forall_forall in Hbelow. apply Hbelow.
          apply list_elem_of_In. exact Ht. }
        destruct Hok as (_ & _ & Hc).
        destruct (getitem_in (f_moves t) (f_cursor t) Hc) as (v & Hv & _).
        eauto.
      - rewrite Hp. simpl. eauto. }
    destruct Hpath as [[sol pr] Hpath]. rewrite Hpath. cbn [bind].
    assert (Hseen' : Forall (fun s => ready s /\ width s = width (f_map h)
                                      /\ height s = height (f_map h))
                            (seen st ++ [nm])).
    { apply Forall_app. split; [exact Hs|]. constructor; [|constructor].
      auto. }
    destruct (existsb (compare nm) (seen st)) eqn:He.
    + (* already seen *)
      eexists. split; [reflexivity|]. split.
      * constructor; cbn [history seen]; try assumption.
        -- split; [apply frame_ok_weaken; exact Hh'|exact Hbelow].
        -- constructor; [split; reflexivity|exact Hfb].
      * left. cbn [history seen weight f_moves f_cursor h'].
        split; [reflexivity|]. lia.
    + assert (Hn' : List.NoDup (List.map reachable (seen st ++ [nm]))).
      { rewrite List.map_app. apply List.NoDup_app; [exact Hn| |].
        - simpl. constructor; [intros []|constructor].
        - intros g Hg [<-|[]].
          exact (existsb_compare_false nm (seen st) He Hg). }
      destruct (completed nm).
      * eexists. split; [reflexivity|]. split.
        -- constructor; cbn [history seen]; try assumption.
           ++ split; [apply frame_ok_weaken; exact Hh'|exact Hbelow].
           ++ constructor; [split; reflexivity|exact Hfb].
        -- right. cbn [seen]. rewrite length_app. simpl. lia.
      * rewrite (find_all_possible_moves_filter nm Hrn). cbn [bind].
        eexists. split; [reflexivity|]. split.
        -- constructor; cbn [history seen]; try assumption.
           ++ split.
              ** split; [exact Hrn|]. split;
                   [apply find_all_possible_moves_filter; exact Hrn|].
                 cbn [f_cursor f_moves]. unfold len. lia.
              ** constructor; [exact Hh'|exact Hbelow].
           ++ constructor; [cbn [f_map]; auto|].
              constructor; [split; reflexivity|exact Hfb].
        -- right. cbn [seen]. rewrite length_app. simpl. lia.
Qed.

(** ** Termination of the search *)

(** A bound on the number of different reachability grids of a [w0] by
    [h0] board. *)
Definition grid_count (w0 h0 : Z) : nat :=
  length (words cell_values (Z.to_nat (w0 * h0))).

Lemma seen_bound (w0 h0 : Z) (st : search) :
  search_inv w0 h0 st -> (length (seen st) <= grid_count w0 h0)%nat.
Proof.
  intros [_ _ Hs Hn]. unfold grid_count.
  rewrite <- (length_map reachable (seen st)).
  apply NoDup_incl_length; [exact Hn|].
  intros g Hg. apply in_map_iff in Hg as (s & <- & Hin).
  rewrite Forall_forall in Hs.
  destruct (Hs s (proj2 (list_elem_of_In _ _) Hin)) as (Hr & <- & <-).
  apply ready_reachable_word. exact Hr.
Qed.

Lemma search_loop_unfold (fuel : nat) (st : search) :
  history st <> [] ->
  search_loop (S fuel) st = bind (search_step st) (search_loop fuel).
Proof.
  intros H. simpl. destruct (history st); [contradiction|reflexivity].
Qed.

Lemma search_loop_done (fuel : nat) (st : search) :
  history st = [] -> search_loop fuel st = Ok st.
Proof. intros H. destruct fuel; simpl; rewrite H; reflexivity. Qed.

(** The loop ends: each iteration uses up one of the iterations the stack
    can still start, or one of the grids not yet in [seen]. *)
Lemma search_loop_terminates (w0 h0 : Z) (n : nat) :
  forall (w : nat) (st : search),
    search_inv w0 h0 st ->
    (grid_count w0 h0 - length (seen st) <= n)%nat ->
    (weight (history st) <= w)%nat ->
    exists fuel stf, search_loop fuel st = Ok stf /\ history stf = [] /\
                     search_inv w0 h0 stf.
Proof.
  induction n as [n IHn] using lt_wf_ind.
  induction w as [w IHw] using lt_wf_ind.
  intros st Hinv Hn Hw.
  destruct (history st) as [|h below] eqn:Hhist.
  { exists O, st. split; [apply search_loop_done; exact Hhist|]. auto. }
  destruct (search_step_progress w0 h0 st Hinv) as (st' & Hstep & Hinv' & Hm);
    [rewrite Hhist; discriminate|].
  assert (Hnext : exists fuel stf, search_loop fuel st' = Ok stf /\
                    history stf = [] /\ search_inv w0 h0 stf).
  { destruct Hm as [[Hlen Hlt]|Hlen].
    - apply (IHw (weight (history st'))); [rewrite Hhist in Hlt; lia| |lia|lia].
      exact Hinv'.
    - pose proof (seen_bound w0 h0 st' Hinv') as Hb.
      apply (IHn (grid_count w0 h0 - length (seen st'))%nat ltac:(lia)
                 (weight (history st'))); [exact Hinv'|lia|lia]. }
  destruct Hnext as (fuel & stf & Hloop & Hend).
  exists (S fuel), stf. split; [|exact Hend].
  rewrite search_loop_unfold by (rewrite Hhist; discriminate).
  rewrite Hstep. exact Hloop.
Qed.

Lemma search_start_inv (b : skb_map) :
  ready b ->
  exists st0, search_start b = Ok st0 /\
              search_inv (width b) (height b) st0 /\
              seen st0 = [b].
Proof.
  intros Hr. unfold search_start.
  rewrite (find_all_possible_moves_filter b Hr). simpl.
  eexists. split; [reflexivity|]. split; [|reflexivity].
  constructor; cbn [history seen].
  - split; [|constructor]. split; [exact Hr|].
    split; [apply find_all_possible_moves_filter; exact Hr|].
    cbn [f_cursor f_moves]. unfold len. lia.
  - constructor; [split; reflexivity|constructor].
  - constructor; [auto|constructor].
  - simpl. constructor; [intros []|constructor].
Qed.

(** More fuel does not change the answer. *)
Lemma search_loop_fuel (f1 f2 : nat) (st s1 s2 : search) :
  search_loop f1 st = Ok s1 -> search_loop f2 st = Ok s2 -> s1 = s2.
Proof.
  revert f2 st. induction f1 as [|f1 IH]; intros f2 st H1 H2.
  - simpl in H1. destruct (history st) eqn:Hh; [|discriminate].
    rewrite (search_loop_done f2 st Hh) in H2. congruence.
  - destruct (history st) as [|h below] eqn:Hh.
    { rewrite (search_loop_done _ st Hh) in H1.
      rewrite (search_loop_done _ st Hh) in H2. congruence. }
    rewrite search_loop_unfold in H1 by (rewrite Hh; discriminate).
    destruct f2 as [|f2]; [simpl in H2; rewrite Hh in H2; discriminate|].
    rewrite search_loop_unfold in H2 by (rewrite Hh; discriminate).
    destruct (search_step st) as [st'| | |]; try discriminate.
    simpl in H1, H2. exact (IH f2 st' H1 H2).
Qed.

(** ** C8: the search terminates *)

(** C8. From a validated board with its grid resolved, some number of
    iterations brings the loop to an empty stack, and the function
    returns.  The boards of [seen] then have pairwise different grids, and
    there are no more of them than there are grids of the board's size. *)
Theorem find_skb_map_solutions_terminates (skbmap : skb_map) :
  ready skbmap ->
  exists fuel st0 stf r,
    search_start skbmap = Ok st0 /\
    search_loop fuel st0 = Ok stf /\ history stf = [] /\
    find_skb_map_solutions fuel skbmap = Ok r /\
    List.NoDup (List.map reachable (seen stf)) /\
    (length (seen stf) <= grid_count (width skbmap) (height skbmap))%nat.
Proof.
  intros Hr. destruct (search_start_inv skbmap Hr) as (st0 & Hst0 & Hinv & _).
  destruct (search_loop_terminates (width skbmap) (height skbmap)
              (grid_count (width skbmap) (height skbmap))
              (weight (history st0)) st0 Hinv ltac:(lia) ltac:(lia))
    as (fuel & stf & Hloop & Hend & Hinvf).
  exists fuel, st0, stf.
  unfold find_skb_map_solutions. rewrite Hst0. simpl. rewrite Hloop. simpl.
  destruct (completed skbmap); eexists;
    (split; [reflexivity|]); (split; [reflexivity|]);
    (split; [exact Hend|]); (split; [reflexivity|]);
    (split; [apply (inv_nodup _ _ _ Hinvf)|apply seen_bound; exact Hinvf]).
Qed.

Lemma find_skb_map_solutions_terminates_witness :
  ready board_m /\
  exists fuel st0 stf r,
    search_start board_m = Ok st0 /\
    search_loop fuel st0 = Ok stf /\ history stf = [] /\
    find_skb_map_solutions fuel board_m = Ok r /\
    List.NoDup (List.map reachable (seen stf)) /\
    (length (seen stf) <= grid_count (width board_m) (height board_m))%nat.
Proof.
  split; [exact ready_board_m|].
  apply (find_skb_map_solutions_terminates board_m ready_board_m).
Defined.

(** ** The boards a search produces *)

(** The child board that the iteration starting in [st] creates, if it
    creates one. *)
Definition step_child (st : search) : list skb_map :=
  match history st with
  | [] => []
  | h :: _ =>
      if f_cursor h + 1 >=? len (f_moves h) then []
      else
        match getitem (f_moves h) (f_cursor h + 1) with
        | Ok (x, y, dir) =>
            match create_new_map_by_move (f_map h) x y dir with
            | Ok nm => [nm]
            | _ => []
            end
        | _ => []
        end
  end.

(** The iterations from one state of the loop to another, with the
    children they create, in order. *)
Inductive search_run : search -> list skb_map -> search -> Prop :=
| search_run_nil (st : search) : search_run st [] st
| search_run_step (st st' st'' : search) (cs : list skb_map) :
    history st <> [] -> search_step st = Ok st' ->
    search_run st' cs st'' ->
    search_run st (step_child st ++ cs) st''.

Lemma search_loop_run (fuel : nat) (st stf : search) :
  search_loop fuel st = Ok stf ->
  exists cs, search_run st cs stf /\ history stf = [].
Proof.
  revert st. induction fuel as [|fuel IH]; intros st H.
  - simpl in H. destruct (history st) eqn:Hh; [|discriminate].
    injection H as <-. exists []. split; [constructor|exact Hh].
  - destruct (history st) as [|h below] eqn:Hh.
    { rewrite (search_loop_done _ st Hh) in H. injection H as <-.
      exists []. split; [constructor|exact Hh]. }
    rewrite search_loop_unfold in H by (rewrite Hh; discriminate).
    apply bind_Ok in H as (st' & Hstep & Hloop).
    destruct (IH st' Hloop) as (cs & Hrun & Hend).
    exists (step_child st ++ cs). split; [|exact Hend].
    apply (search_run_step st st' stf cs); [rewrite Hh; discriminate| |];
      assumption.
Qed.

(** What one iteration does to [seen] and to the stack. *)
Lemma search_step_cases (st st' : search) :
  history st <> [] -> search_step st = Ok st' ->
  (step_child st = [] /\ seen st' = seen st /\
   (length (history st') < length (history st))%nat) \/
  (exists nm, step_child st = [nm] /\
     ((List.In (reachable nm) (List.map reachable (seen st)) /\
       seen st' = seen st /\ length (history st') = length (history st)) \/
      (~ List.In (reachable nm) (List.map reachable (seen st)) /\
       seen st' = seen st ++ [nm] /\
       (length (history st') = length (history st) \/
        exists ms, history st' = mk_frame nm ms (-1) :: tl (history st'))))).
Proof.
  intros Hne Hstep. unfold search_step, step_child in *.
  destruct (history st) as [|h below] eqn:Hh; [contradiction|].
  cbn [f_cursor f_moves f_map] in Hstep.
  destruct (f_cursor h + 1 >=? len (f_moves h)).
  { injection Hstep as <-. left. simpl. auto. }
  right.
  destruct (getitem (f_moves h) (f_cursor h + 1)) as [[[x y] d]| | |];
    try discriminate.
  cbn [bind] in Hstep.
  destruct (create_new_map_by_move (f_map h) x y d) as [nm| | |];
    try discriminate.
  cbn [bind] in Hstep. exists nm. split; [reflexivity|].
  apply bind_Ok in Hstep as ([sol pr] & _ & Hstep).
  destruct (existsb (compare nm) (seen st)) eqn:He.
  - injection Hstep as <-. left. cbn [seen history]. split; [|auto].
    apply existsb_exists in He as (s & Hs & Hc).
    apply in_map_iff. exists s. split; [|exact Hs].
    unfold compare in Hc. apply bool_decide_eq_true in Hc. congruence.
  - right. split; [apply existsb_compare_false; exact He|].
    destruct (completed nm).
    + injection Hstep as <-. cbn [seen history]. auto.
    + apply bind_Ok in Hstep as (ms & _ & Hstep). injection Hstep as <-.
      cbn [seen history]. split; [reflexivity|]. right. exists ms.
      reflexivity.
Qed.

(** [seen] holds one board for each grid produced so far. *)
Definition seen_counts (st : search) (produced : list skb_map) : Prop :=
  List.NoDup (List.map reachable (seen st)) /\
  forall g, List.In g (List.map reachable (seen st))
            <-> List.In g (List.map reachable produced).

Lemma search_run_seen (st stf : search) (cs produced : list skb_map) :
  search_run st cs stf -> seen_counts st produced ->
  seen_counts stf (produced ++ cs).
Proof.
  intros Hrun. revert produced.
  induction Hrun as [st|st st' st'' cs Hne Hstep _ IH]; intros produced Hc.
  - rewrite app_nil_r. exact Hc.
  - rewrite app_assoc. apply IH. clear IH. destruct Hc as [Hnd Hiff].
    unfold seen_counts.
    destruct (search_step_cases st st' Hne Hstep)
      as [(-> & -> & _)|(nm & -> & [(Hin & -> & _)|(Hnin & -> & _)])].
    + rewrite app_nil_r. split; assumption.
    + split; [exact Hnd|]. intros g. rewrite List.map_app, in_app_iff.
      rewrite <- Hiff. simpl. split; [auto|].
      intros [H|[<-|[]]]; assumption.
    + split.
      * rewrite List.map_app. apply List.NoDup_app; [exact Hnd| |].
        -- simpl. constructor; [intros []|constructor].
        -- intros g Hg [<-|[]]. contradiction.
      * intros g. rewrite !List.map_app, !in_app_iff, Hiff. reflexivity.
Qed.

Lemma seen_counts_length (st : search) (produced : list skb_map) :
  seen_counts st produced ->
  length (seen st) = length (remove_dups (List.map reachable produced)).
Proof.
  intros [Hnd Hiff]. rewrite <- (length_map reachable (seen st)).
  apply Permutation_length, NoDup_Permutation.
  - apply NoDup_ListNoDup. exact Hnd.
  - apply NoDup_remove_dups.
  - intros g. rewrite elem_of_remove_dups, !list_elem_of_In. apply Hiff.
Qed.

(** ** C2: [seen] and the frames pushed *)

(** C2. In a search from a validated board with its grid resolved: an
    iteration that pushes a frame pushes it for a child whose grid is the
    grid of no board of [seen]; and the number of states seen that the
    function reports is the number of different grids among the start board
    and all the children created, the solved ones included.  When the start
    board is not already solved the function does reach that report. *)
Theorem search_seen_distinct (skbmap : skb_map) :
  ready skbmap ->
  exists st0, search_start skbmap = Ok st0 /\
    (forall cs st st',
        search_run st0 cs st -> search_step st = Ok st' ->
        (length (history st) < length (history st'))%nat ->
        exists f below, history st' = f :: below /\
          forall s, List.In s (seen st) -> reachable (f_map f) <> reachable s)
    /\
    (forall fuel rep out,
        find_skb_map_solutions fuel skbmap = Ok (Some (rep, out)) ->
        exists cs stf, search_run st0 cs stf /\ history stf = [] /\
          frames_seen rep
          = Z.of_nat (length (remove_dups
                                (List.map reachable (skbmap :: cs)))))
    /\
    (completed skbmap = false ->
     exists fuel rep out,
       find_skb_map_solutions fuel skbmap = Ok (Some (rep, out))).
Proof.
  intros Hr. destruct (search_start_inv skbmap Hr) as (st0 & Hst0 & Hinv & Hs0).
  exists st0. split; [exact Hst0|]. split; [|split].
  - intros cs st st' _ Hstep Hlen.
    assert (Hne : history st <> []).
    { intros He. unfold search_step in Hstep. rewrite He in Hstep.
      injection Hstep as <-. lia. }
    destruct (search_step_cases st st' Hne Hstep)
      as [(_ & _ & H)|(nm & _ & [(_ & _ & H)|(Hnin & _ & [H|[ms H]])])];
      try lia.
    exists (mk_frame nm ms (-1)), (tl (history st')).
    split; [exact H|]. cbn [f_map]. intros s Hs Heq. apply Hnin.
    rewrite Heq. apply in_map. exact Hs.
  - intros fuel rep out Hfind. unfold find_skb_map_solutions in Hfind.
    destruct (completed skbmap); [discriminate|].
    rewrite Hst0 in Hfind. cbn [bind] in Hfind.
    apply bind_Ok in Hfind as (stf & Hloop & Hfind).
    injection Hfind as <- _.
    destruct (search_loop_run fuel st0 stf Hloop) as (cs & Hrun & Hend).
    exists cs, stf. split; [exact Hrun|]. split; [exact Hend|].
    cbn [frames_seen]. unfold len. f_equal.
    apply (seen_counts_length stf (skbmap :: cs)).
    apply (search_run_seen st0 stf cs [skbmap] Hrun).
    unfold seen_counts. rewrite Hs0. split; [|reflexivity].
    simpl. constructor; [intros []|constructor].
  - intros Hc.
    destruct (search_loop_terminates (width skbmap) (height skbmap)
                (grid_count (width skbmap) (height skbmap))
                (weight (history st0)) st0 Hinv ltac:(lia) ltac:(lia))
      as (fuel & stf & Hloop & _).
    exists fuel. unfold find_skb_map_solutions.
    rewrite Hc, Hst0. cbn [bind]. rewrite Hloop. cbn [bind]. eauto.
Qed.

Lemma search_seen_distinct_witness :
  ready board_m /\
  exists st0, search_start board_m = Ok st0 /\
    (forall cs st st',
        search_run st0 cs st -> search_step st = Ok st' ->
        (length (history st) < length (history st'))%nat ->
        exists f below, history st' = f :: below /\
          forall s, List.In s (seen st) -> reachable (f_map f) <> reachable s)
    /\
    (forall fuel rep out,
        find_skb_map_solutions fuel board_m = Ok (Some (rep, out)) ->
        exists cs stf, search_run st0 cs stf /\ history stf = [] /\
          frames_seen rep
          = Z.of_nat (length (remove_dups
                                (List.map reachable (board_m :: cs)))))
    /\
    (completed board_m = false ->
     exists fuel rep out,
       find_skb_map_solutions fuel board_m = Ok (Some (rep, out))).
Proof.
  split; [exact ready_board_m|].
  apply (search_seen_distinct board_m ready_board_m).
Defined.

(** * The transition on a store of objects

    [create_new_map_by_move] once more, this time on a heap in which a
    board is an object with attributes and its two arrays are objects of
    their own, mutated in place, so that sharing between a board and its
    copy would show. *)

Module Store.

Definition loc : Type := positive.

(** The attributes of an instance of [skb_map]. *)
Record instance : Type := mk_instance {
  i_height : Z;
  i_width : Z;
  i_array : loc;
  i_box : Z;
  i_dest : Z;
  i_unsolved : Z;
  i_character : option (Z * Z);
  i_reachable : loc
}.

Inductive object : Type :=
| Array (items : list Z)
| Instance (attrs : instance).

Abbreviation heap := (gmap loc object).

(** A computation on the heap.  An [exit] or an uncaught exception ends the
    program: no heap is left to look at. *)
Definition prog (A : Type) : Type := heap -> result (A * heap).

Definition ret {A : Type} (a : A) : prog A := fun s => Ok (a, s).

Definition seq {A B : Type} (p : prog A) (k : A -> prog B) : prog B :=
  fun s =>
    match p s with
    | Ok (a, s') => k a s'
    | Exit f => Exit f
    | Raise e => Raise e
    | Timeout => Timeout
    end.

Definition lift {A : Type} (r : result A) : prog A :=
  fun s => bind r (fun a => Ok (a, s)).

Notation "x <~ p ;; k" := (seq p (fun x => k))
  (at level 20, p at level 99, k at level 200, only parsing).

(** A new object, at an address the heap does not use. *)
Definition alloc (o : object) : prog loc :=
  fun s => let l := fresh (dom s) in Ok (l, <[l := o]> s).

Definition get_instance (l : loc) : prog instance :=
  fun s =>
    match s !! l with
    | Some (Instance at_) => Ok (at_, s)
    | _ => Raise TypeError
    end.

Definition get_items (l : loc) : prog (list Z) :=
  fun s =>
    match s !! l with
    | Some (Array a) => Ok (a, s)
    | _ => Raise TypeError
    end.

Definition put (l : loc) (o : object) : prog unit :=
  fun s => Ok (tt, <[l := o]> s).

(** The board at [l] as a value. *)
Definition view (l : loc) : prog skb_map :=
  at_ <~ get_instance l ;;
  a <~ get_items (i_array at_) ;;
  r <~ get_items (i_reachable at_) ;;
  ret (mk_skb_map (i_height at_) (i_width at_) a (i_box at_) (i_dest at_)
                  (i_unsolved at_) (i_character at_) r).

(** [copy.deepcopy(self)]: the two arrays are copied, once if they are one
    object, and the instance is copied with the copies as attributes. *)
Definition deepcopy (self : loc) : prog loc :=
  at_ <~ get_instance self ;;
  a <~ get_items (i_array at_) ;;
  r <~ get_items (i_reachable at_) ;;
  la <~ alloc (Array a) ;;
  lr <~ (if decide (i_reachable at_ = i_array at_) then ret la
         else alloc (Array r)) ;;
  alloc (Instance (mk_instance (i_height at_) (i_width at_) la (i_box at_)
                               (i_dest at_) (i_unsolved at_)
                               (i_character at_) lr)).

(** [def element(self, x, y)] *)
Definition element (self : loc) (x y : Z) : prog Z :=
  at_ <~ get_instance self ;;
  a <~ get_items (i_array at_) ;;
  lift (getitem a (x + y * i_width at_)).

(** [def update_element(self, x, y, value)] *)
Definition update_element (self : loc) (x y value : Z) : prog unit :=
  at_ <~ get_instance self ;;
  a <~ get_items (i_array at_) ;;
  a' <~ lift (setitem a (x + y * i_width at_) value) ;;
  put (i_array at_) (Array a').

(** [self.unsolved = u] *)
Definition set_unsolved (self : loc) (u : Z) : prog unit :=
  at_ <~ get_instance self ;;
  put self (Instance (mk_instance (i_height at_) (i_width at_) (i_array at_)
                        (i_box at_) (i_dest at_) u (i_character at_)
                        (i_reachable at_))).

(** [self.character = c] *)
Definition set_character (self : loc) (c : Z * Z) : prog unit :=
  at_ <~ get_instance self ;;
  put self (Instance (mk_instance (i_height at_) (i_width at_) (i_array at_)
                        (i_box at_) (i_dest at_) (i_unsolved at_) (Some c)
                        (i_reachable at_))).

(** [def resolve_reachable(self)]: [copy.copy(self.array)] is a new array,
    the only object the fill writes to; it ends up holding the grid and
    being [self.reachable]. *)
Definition resolve_reachable (self : loc) : prog unit :=
  b <~ view self ;;
  b' <~ lift (resolve_reachable b) ;;
  lr <~ alloc (Array (reachable b')) ;;
  at_ <~ get_instance self ;;
  put self (Instance (mk_instance (i_height at_) (i_width at_) (i_array at_)
                        (i_box at_) (i_dest at_) (i_unsolved at_)
                        (i_character at_) lr)).

(** [self.validate(True)]: reads, and writes nothing. *)
Definition validate_true (self : loc) : prog unit :=
  b <~ view self ;;
  _ <~ lift (validate true b) ;;
  ret tt.

(** [def create_new_map_by_move(self, x, y, direction)], steps 0 to 4 on
    the copy [new_map]. *)
Definition move_box (new_map : loc) (x y : Z) (direction : Dir) : prog unit :=
  e <~ element new_map x y ;;
  if Z.land e 0x40 =? 0 then lift (Exit (BadMoveNoBox x y direction))
  else
    at_ <~ get_instance new_map ;;
    c <~ lift (match i_character at_ with
               | Some c => Ok c
               | None => Raise TypeError
               end) ;;
    e <~ element new_map (fst c) (snd c) ;;
    _ <~ update_element new_map (fst c) (snd c) (Z.land e (Z.lnot 0x10)) ;;
    e <~ element new_map x y ;;
    _ <~ update_element new_map x y (Z.land e (Z.lnot 0x40)) ;;
    e <~ element new_map x y ;;
    _ <~ (if negb (Z.land e 0x20 =? 0)
          then at_ <~ get_instance new_map ;;
               set_unsolved new_map (i_unsolved at_ + 1)
          else ret tt) ;;
    let n :=
      match direction with
      | UP => (x, y - 1)
      | RIGHT => (x + 1, y)
      | DOWN => (x, y + 1)
      | LEFT => (x - 1, y)
      end in
    e <~ element new_map (fst n) (snd n) ;;
    _ <~ update_element new_map (fst n) (snd n) (Z.lor e 0x40) ;;
    e <~ element new_map (fst n) (snd n) ;;
    _ <~ (if negb (Z.land e 0x20 =? 0)
          then at_ <~ get_instance new_map ;;
               set_unsolved new_map (i_unsolved at_ - 1)
          else ret tt) ;;
    _ <~ set_character new_map (x, y) ;;
    e <~ element new_map x y ;;
    update_element new_map x y (Z.lor e 0x10).

(** [def create_new_map_by_move(self, x, y, direction)] *)
Definition create_new_map_by_move (self : loc) (x y : Z) (direction : Dir)
  : prog loc :=
  new_map <~ deepcopy self ;;
  _ <~ move_box new_map x y direction ;;
  _ <~ resolve_reachable new_map ;;
  _ <~ validate_true new_map ;;
  ret new_map.

(** ** What the transition leaves alone *)

Lemma seq_Ok {A B : Type} (p : prog A) (k : A -> prog B) (s s'' : heap)
  (b : B) :
  seq p k s = Ok (b, s'') ->
  exists a s', p s = Ok (a, s') /\ k a s' = Ok (b, s'').
Proof.
  unfold seq. destruct (p s) as [[a s']| | |]; try discriminate. eauto.
Qed.

Lemma lift_Ok {A : Type} (r : result A) (s s' : heap) (a : A) :
  lift r s = Ok (a, s') -> r = Ok a /\ s' = s.
Proof.
  unfold lift. destruct r; simpl; try discriminate.
  intros H. injection H as -> ->. auto.
Qed.

Lemma get_instance_Ok (l : loc) (s s' : heap) (at_ : instance) :
  get_instance l s = Ok (at_, s') -> s !! l = Some (Instance at_) /\ s' = s.
Proof.
  unfold get_instance. destruct (s !! l) as [[a|at']|]; try discriminate.
  intros H. injection H as -> ->. auto.
Qed.

Lemma get_items_Ok (l : loc) (s s' : heap) (a : list Z) :
  get_items l s = Ok (a, s') -> s !! l = Some (Array a) /\ s' = s.
Proof.
  unfold get_items. destruct (s !! l) as [[a'|at']|]; try discriminate.
  intros H. injection H as -> ->. auto.
Qed.

Lemma alloc_Ok (o : object) (s s' : heap) (l : loc) :
  alloc o s = Ok (l, s') -> s !! l = None /\ s' = <[l := o]> s.
Proof.
  unfold alloc. intros H. injection H as <- <-.
  split; [|reflexivity]. apply not_elem_of_dom, is_fresh.
Qed.

Section Frame.
Variable s0 : heap.
Variable n : loc.
Hypothesis Hn : s0 !! n = None.

(** The heap still holds all of [s0] unchanged, and the board at [n] has
    its two arrays outside [s0]. *)
Definition keeps (s : heap) : Prop :=
  s0 ⊆ s /\
  exists at_, s !! n = Some (Instance at_) /\
              s0 !! i_array at_ = None /\ s0 !! i_reachable at_ = None.

Definition preserves {A : Type} (p : prog A) : Prop :=
  forall s a s', keeps s -> p s = Ok (a, s') -> keeps s'.

Lemma preserves_ret {A : Type} (a : A) : preserves (ret a).
Proof. intros s a' s' Hk H. injection H as _ <-. exact Hk. Qed.

Lemma preserves_lift {A : Type} (r : result A) : preserves (lift r).
Proof. intros s a s' Hk H. apply lift_Ok in H as [_ ->]. exact Hk. Qed.

Lemma preserves_seq {A B : Type} (p : prog A) (k : A -> prog B) :
  preserves p -> (forall a, preserves (k a)) -> preserves (seq p k).
Proof.
  intros Hp Hq s b s'' Hk H. apply seq_Ok in H as (a & s' & H1 & H2).
  exact (Hq a s' b s'' (Hp s a s' Hk H1) H2).
Qed.

Lemma preserves_get_instance (l : loc) : preserves (get_instance l).
Proof.
  intros s a s' Hk H. apply get_instance_Ok in H as [_ ->]. exact Hk.
Qed.

Lemma preserves_get_items (l : loc) : preserves (get_items l).
Proof.
  intros s a s' Hk H. apply get_items_Ok in H as [_ ->]. exact Hk.
Qed.

Lemma preserves_view (l : loc) : preserves (view l).
Proof.
  unfold view.
  apply preserves_seq; [apply preserves_get_instance|intros at_].
  apply preserves_seq; [apply preserves_get_items|intros a].
  apply preserves_seq; [apply preserves_get_items|intros r].
  apply preserves_ret.
Qed.

Lemma preserves_element (x y : Z) : preserves (element n x y).
Proof.
  unfold element.
  apply preserves_seq; [apply preserves_get_instance|intros at_].
  apply preserves_seq; [apply preserves_get_items|intros a].
  apply preserves_lift.
Qed.

(** Writing an attribute of the board at [n], its arrays staying outside
    [s0]. *)
Lemma keeps_put_instance (s : heap) (at' : instance) :
  keeps s -> s0 !! i_array at' = None -> s0 !! i_reachable at' = None ->
  keeps (<[n := Instance at']> s).
Proof.
  intros [Hsub _] Ha Hr. split.
  - apply insert_subseteq_r; assumption.
  - exists at'. rewrite lookup_insert_eq. auto.
Qed.

Lemma preserves_update_element (x y v : Z) :
  preserves (update_element n x y v).
Proof.
  intros s a s' Hk H. unfold update_element in H.
  apply seq_Ok in H as (at_ & s1 & H1 & H).
  apply get_instance_Ok in H1 as [Hat ->].
  apply seq_Ok in H as (items & s1 & H1 & H).
  apply get_items_Ok in H1 as [Hitems ->].
  apply seq_Ok in H as (items' & s1 & H1 & H).
  apply lift_Ok in H1 as [_ ->].
  injection H as _ <-.
  destruct Hk as [Hsub (at' & Hat' & Ha & Hr)].
  assert (at' = at_) by congruence. subst at'.
  assert (Hne : i_array at_ <> n) by congruence.
  split.
  - apply insert_subseteq_r; assumption.
  - exists at_. rewrite lookup_insert_ne by exact Hne. auto.
Qed.

Lemma preserves_set_unsolved (u : Z) : preserves (set_unsolved n u).
Proof.
  intros s a s' Hk H. unfold set_unsolved in H.
  apply seq_Ok in H as (at_ & s1 & H1 & H).
  apply get_instance_Ok in H1 as [Hat ->]. injection H as _ <-.
  pose proof Hk as [_ (at' & Hat' & Ha & Hr)].
  assert (at' = at_) by congruence. subst at'.
  apply keeps_put_instance; assumption.
Qed.

Lemma preserves_set_character (c : Z * Z) : preserves (set_character n c).
Proof.
  intros s a s' Hk H. unfold set_character in H.
  apply seq_Ok in H as (at_ & s1 & H1 & H).
  apply get_instance_Ok in H1 as [Hat ->]. injection H as _ <-.
  pose proof Hk as [_ (at' & Hat' & Ha & Hr)].
  assert (at' = at_) by congruence. subst at'.
  apply keeps_put_instance; assumption.
Qed.

Lemma keeps_alloc (s : heap) (l : loc) (o : object) :
  keeps s -> s !! l = None ->
  keeps (<[l := o]> s) /\ s0 !! l = None.
Proof.
  intros [Hsub (at_ & Hat & Ha & Hr)] Hl.
  assert (Hl0 : s0 !! l = None).
  { destruct (s0 !! l) as [o'|] eqn:E; [|reflexivity].
    rewrite (lookup_weaken _ _ _ _ E Hsub) in Hl. discriminate. }
  split; [|exact Hl0]. split.
  - apply insert_subseteq_r; assumption.
  - exists at_. rewrite lookup_insert_ne by congruence. auto.
Qed.

Lemma preserves_resolve_reachable : preserves (resolve_reachable n).
Proof.
  intros s a s' Hk H. unfold resolve_reachable in H.
  apply seq_Ok in H as (b & s1 & H1 & H).
  pose proof (preserves_view n s b s1 Hk H1) as Hk1.
  apply seq_Ok in H as (b' & s2 & H2 & H).
  apply lift_Ok in H2 as [_ ->].
  apply seq_Ok in H as (lr & s2 & H2 & H).
  apply alloc_Ok in H2 as [Hlr ->].
  destruct (keeps_alloc s1 lr (Array (reachable b')) Hk1 Hlr) as [Hk2 Hlr0].
  apply seq_Ok in H as (at_ & s3 & H3 & H).
  apply get_instance_Ok in H3 as [Hat ->]. injection H as _ <-.
  pose proof Hk2 as [_ (at' & Hat' & Ha & Hr)].
  assert (at' = at_) by congruence. subst at'.
  apply keeps_put_instance; assumption.
Qed.

Lemma preserves_validate_true : preserves (validate_true n).
Proof.
  unfold validate_true.
  apply preserves_seq; [apply preserves_view|intros b].
  apply preserves_seq; [apply preserves_lift|intros _].
  apply preserves_ret.
Qed.

Lemma preserves_if {A : Type} (c : bool) (p q : prog A) :
  preserves p -> preserves q -> preserves (if c then p else q).
Proof. destruct c; auto. Qed.

Lemma preserves_move_box (x y : Z) (direction : Dir) :
  preserves (move_box n x y direction).
Proof.
  unfold move_box.
  apply preserves_seq; [apply preserves_element|intros e0].
  destruct (Z.land e0 64 =? 0); [apply preserves_lift|].
  apply preserves_seq; [apply preserves_get_instance|intros at_].
  apply preserves_seq; [apply preserves_lift|intros c].
  apply preserves_seq; [apply preserves_element|intros e1].
  apply preserves_seq; [apply preserves_update_element|intros _].
  apply preserves_seq; [apply preserves_element|intros e2].
  apply preserves_seq; [apply preserves_update_element|intros _].
  apply preserves_seq; [apply preserves_element|intros e3].
  apply preserves_seq.
  { apply preserves_if; [|apply preserves_ret].
    apply preserves_seq; [apply preserves_get_instance|intros at1].
    apply preserves_set_unsolved. }
  intros _. cbv zeta.
  apply preserves_seq; [apply preserves_element|intros e4].
  apply preserves_seq; [apply preserves_update_element|intros _].
  apply preserves_seq; [apply preserves_element|intros e5].
  apply preserves_seq.
  { apply preserves_if; [|apply preserves_ret].
    apply preserves_seq; [apply preserves_get_instance|intros at1].
    apply preserves_set_unsolved. }
  intros _.
  apply preserves_seq; [apply preserves_set_character|intros _].
  apply preserves_seq; [apply preserves_element|intros e6].
  apply preserves_update_element.
Qed.

(** The statements of [create_new_map_by_move] after the copy keep the
    frame, and the function answers the copy. *)
Lemma after_copy (x y : Z) (direction : Dir) (s s' : heap) (a : loc) :
  keeps s ->
  (_ <~ move_box n x y direction ;;
   _ <~ resolve_reachable n ;;
   _ <~ validate_true n ;;
   ret n) s = Ok (a, s') ->
  keeps s' /\ a = n.
Proof.
  intros Hk H.
  apply seq_Ok in H as (u1 & s1 & H1 & H).
  apply seq_Ok in H as (u2 & s2 & H2 & H).
  apply seq_Ok in H as (u3 & s3 & H3 & H).
  injection H as <- <-. split; [|reflexivity].
  apply (preserves_validate_true s2 u3 s3); [|exact H3].
  apply (preserves_resolve_reachable s1 u2 s2); [|exact H2].
  apply (preserves_move_box x y direction s u1 s1); assumption.
Qed.
End Frame.

Lemma view_weaken (l : loc) (s s' : heap) (b : skb_map) :
  s ⊆ s' -> view l s = Ok (b, s) -> view l s' = Ok (b, s').
Proof.
  intros Hsub H. unfold view in *.
  apply seq_Ok in H as (at_ & s1 & H1 & H).
  apply get_instance_Ok in H1 as [Hat ->].
  apply seq_Ok in H as (a & s1 & H1 & H).
  apply get_items_Ok in H1 as [Ha ->].
  apply seq_Ok in H as (r & s1 & H1 & H).
  apply get_items_Ok in H1 as [Hr ->].
  injection H as <-.
  unfold seq, get_instance, get_items.
  rewrite (lookup_weaken _ _ _ _ Hat Hsub).
  rewrite (lookup_weaken _ _ _ _ Ha Hsub).
  rewrite (lookup_weaken _ _ _ _ Hr Hsub). reflexivity.
Qed.

(** The copy is made of three objects that were not there, and touches
    nothing that was. *)
Lemma deepcopy_spec (self n : loc) (s s1 : heap) :
  deepcopy self s = Ok (n, s1) ->
  s !! n = None /\ keeps s n s1 /\ exists b, view self s = Ok (b, s).
Proof.
  intros H. unfold deepcopy in H.
  apply seq_Ok in H as (at_ & s' & H1 & H).
  apply get_instance_Ok in H1 as [Hat ->].
  apply seq_Ok in H as (a & s' & H1 & H).
  apply get_items_Ok in H1 as [Ha ->].
  apply seq_Ok in H as (r & s' & H1 & H).
  apply get_items_Ok in H1 as [Hr ->].
  apply seq_Ok in H as (la & s' & H1 & H).
  apply alloc_Ok in H1 as [Hla ->].
  apply seq_Ok in H as (lr & s2 & H2 & H).
  apply alloc_Ok in H as [Hn ->].
  assert (Hlr : s !! lr = None /\ s ⊆ s2 /\ s2 !! n = None -> s !! n = None).
  { intros (_ & Hsub & Hn2).
    destruct (s !! n) as [o|] eqn:E; [|reflexivity].
    rewrite (lookup_weaken _ _ _ _ E Hsub) in Hn2. discriminate. }
  assert (Hs2 : s !! lr = None /\ s ⊆ s2).
  { destruct (decide (i_reachable at_ = i_array at_)).
    - injection H2 as <- <-. split; [exact Hla|].
      apply insert_subseteq_r; [exact Hla|reflexivity].
    - apply alloc_Ok in H2 as [Hlr2 ->].
      assert (Hlr0 : s !! lr = None).
      { destruct (s !! lr) as [o|] eqn:E; [|reflexivity].
        rewrite lookup_insert_ne in Hlr2 by congruence. congruence. }
      split; [exact Hlr0|].
      apply insert_subseteq_r; [exact Hlr0|].
      apply insert_subseteq_r; [exact Hla|reflexivity]. }
  destruct Hs2 as [Hlr0 Hsub].
  pose proof (Hlr (conj Hlr0 (conj Hsub Hn))) as Hn0.
  split; [exact Hn0|]. split.
  - split; [apply insert_subseteq_r; assumption|].
    eexists. rewrite lookup_insert_eq. split; [reflexivity|]. simpl. auto.
  - eexists. unfold view, seq, get_instance, get_items.
    rewrite Hat, Ha, Hr. reflexivity.
Qed.

(** ** C9: the transition leaves the board it starts from unchanged *)

(** C9. When [create_new_map_by_move] returns, the board it returns is
    an object that did not exist before, its cell array and its
    reachability grid are objects that did not exist before, and every
    object that existed before is unchanged: the board [self], seen as a
    value (cells, counts, character position, reachability grid), is the
    same before and after the call. *)
Theorem create_new_map_by_move_frame (s s' : heap) (self nm : loc)
  (x y : Z) (direction : Dir) :
  create_new_map_by_move self x y direction s = Ok (nm, s') ->
  s !! nm = None /\ s ⊆ s' /\
  (exists at_, s' !! nm = Some (Instance at_) /\
               s !! i_array at_ = None /\ s !! i_reachable at_ = None) /\
  (exists b, view self s = Ok (b, s) /\ view self s' = Ok (b, s')).
Proof.
  intros H. unfold create_new_map_by_move in H.
  apply seq_Ok in H as (n & s1 & Hcopy & H).
  destruct (deepcopy_spec self n s s1 Hcopy) as (Hn & Hk & b & Hb).
  destruct (after_copy s n Hn x y direction s1 s' nm Hk H)
    as [[Hsub Hat] ->].
  split; [exact Hn|]. split; [exact Hsub|]. split; [exact Hat|].
  exists b. split; [exact Hb|]. apply (view_weaken self s s' b Hsub Hb).
Qed.

End Store.

(** A heap holding board [m]: its cells at address 1, its grid at 2 and the
    board at 3. *)
Definition heap_m : Store.heap :=
  <[3%positive := Store.Instance
      (Store.mk_instance (height board_m) (width board_m) 1%positive
         (box board_m) (dest board_m) (unsolved board_m)
         (character board_m) 2%positive)]>
  (<[2%positive := Store.Array (reachable board_m)]>
   (<[1%positive := Store.Array (array board_m)]> ∅)).

Lemma create_new_map_by_move_frame_witness :
  exists nm s',
    Store.create_new_map_by_move 3%positive 2 5 RIGHT heap_m = Ok (nm, s') /\
    heap_m !! nm = None /\ heap_m ⊆ s' /\
    (exists at_, s' !! nm = Some (Store.Instance at_) /\
                 heap_m !! Store.i_array at_ = None /\
                 heap_m !! Store.i_reachable at_ = None) /\
    (exists b, Store.view 3%positive heap_m = Ok (b, heap_m) /\
               Store.view 3%positive s' = Ok (b, s')).
Proof.
  assert (E : exists nm s',
             Store.create_new_map_by_move 3%positive 2 5 RIGHT heap_m
             = Ok (nm, s')).
  { vm_compute. eexists. eexists. reflexivity. }
  destruct E as (nm & s' & E). exists nm, s'. split; [exact E|].
  exact (Store.create_new_map_by_move_frame heap_m s' 3%positive nm 2 5 RIGHT
           E).
Defined.

(** ** The two transitions agree *)

(** The object at [n] holds the board [b], in two arrays of its own. *)
Definition represents (s : Store.heap) (n : Store.loc) (b : skb_map) : Prop :=
  exists la lr, la <> lr /\
    s !! n = Some (Store.Instance
                     (Store.mk_instance (height b) (width b) la (box b)
                        (dest b) (unsolved b) (character b) lr)) /\
    s !! la = Some (Store.Array (array b)) /\
    s !! lr = Some (Store.Array (reachable b)).

(** The outcome on values and the outcome on the heap are the same
    failure, or two results related by [rel]. *)
Definition simulates {A B : Type} (rel : A -> B -> Store.heap -> Prop)
  (r : result A) (o : result (B * Store.heap)) : Prop :=
  match r, o with
  | Ok a, Ok (b, s') => rel a b s'
  | Exit f, Exit f' => f = f'
  | Raise e, Raise e' => e = e'
  | Timeout, Timeout => True
  | _, _ => False
  end.

Lemma simulates_bind {A A' B B' : Type}
  (rel : A -> B -> Store.heap -> Prop) (rel' : A' -> B' -> Store.heap -> Prop)
  (r : result A) (p : Store.prog B) (k : A -> result A')
  (k' : B -> Store.prog B') (s : Store.heap) :
  simulates rel r (p s) ->
  (forall a b s', rel a b s' -> simulates rel' (k a) (k' b s')) ->
  simulates rel' (bind r k) (Store.seq p k' s).
Proof.
  unfold simulates at 1, Store.seq. intros H Hk.
  destruct r as [a|f|e|], (p s) as [[b s']|f'|e'|]; try contradiction;
    simpl; subst; try reflexivity; try exact I.
  apply Hk. exact H.
Qed.

Lemma simulates_lift {A : Type} (r : result A) (s : Store.heap) :
  simulates (fun a b s' => a = b /\ s' = s) r (Store.lift r s).
Proof. destruct r; simpl; auto. Qed.

Lemma represents_element (s : Store.heap) (n : Store.loc) (b : skb_map)
  (x y : Z) :
  represents s n b ->
  simulates (fun a a' s' => a = a' /\ s' = s)
            (element b x y) (Store.element n x y s).
Proof.
  intros (la & lr & Hne & Hn & Hla & Hlr).
  unfold Store.element, Store.seq, Store.get_instance, Store.get_items.
  rewrite Hn. simpl. rewrite Hla. apply simulates_lift.
Qed.

Lemma represents_update_element (s : Store.heap) (n : Store.loc)
  (b : skb_map) (x y v : Z) :
  represents s n b ->
  simulates (fun b' _ s' => represents s' n b')
            (update_element b x y v) (Store.update_element n x y v s).
Proof.
  intros (la & lr & Hne & Hn & Hla & Hlr).
  unfold Store.update_element, Store.seq, Store.get_instance,
    Store.get_items, update_element.
  rewrite Hn. simpl. rewrite Hla. unfold Store.lift.
  destruct (setitem (array b) (x + y * width b) v) as [a'|f|e|]; simpl;
    try reflexivity; try exact I.
  exists la, lr. split; [exact Hne|].
  assert (Hnl : la <> n) by congruence.
  rewrite lookup_insert_ne by exact Hnl.
  rewrite lookup_insert_eq, lookup_insert_ne by exact Hne. auto.
Qed.

Lemma represents_set_unsolved (s : Store.heap) (n : Store.loc)
  (b : skb_map) (c : bool) (f : Z -> Z) :
  represents s n b ->
  simulates (fun b' _ s' => represents s' n b')
    (Ok (if c then set_unsolved b (f (unsolved b)) else b))
    ((if c
      then Store.seq (Store.get_instance n)
             (fun at_ => Store.set_unsolved n (f (Store.i_unsolved at_)))
      else Store.ret tt) s).
Proof.
  intros (la & lr & Hne & Hn & Hla & Hlr). destruct c; simpl.
  - cbv [Store.seq Store.get_instance Store.set_unsolved Store.put].
    rewrite Hn. simpl. rewrite Hn. simpl.
    exists la, lr. split; [exact Hne|].
    assert (Hnl : la <> n) by congruence.
    assert (Hnr : lr <> n) by congruence.
    rewrite lookup_insert_eq, !lookup_insert_ne by congruence. auto.
  - exists la, lr. auto.
Qed.

Lemma represents_set_character (s : Store.heap) (n : Store.loc)
  (b : skb_map) (c : Z * Z) :
  represents s n b ->
  simulates (fun b' _ s' => represents s' n b')
    (Ok (set_character b (Some c))) (Store.set_character n c s).
Proof.
  intros (la & lr & Hne & Hn & Hla & Hlr).
  unfold Store.set_character, Store.seq, Store.get_instance, Store.put.
  rewrite Hn. simpl.
  exists la, lr. split; [exact Hne|].
  assert (Hnl : la <> n) by congruence.
  assert (Hnr : lr <> n) by congruence.
  rewrite lookup_insert_eq, !lookup_insert_ne by congruence. auto.
Qed.

Lemma represents_view (s : Store.heap) (n : Store.loc) (b : skb_map) :
  represents s n b -> Store.view n s = Ok (b, s).
Proof.
  intros (la & lr & Hne & Hn & Hla & Hlr).
  unfold Store.view, Store.seq, Store.get_instance, Store.get_items,
    Store.ret.
  rewrite Hn. simpl. rewrite Hla, Hlr. destruct b; reflexivity.
Qed.

Lemma represents_resolve_reachable (s : Store.heap) (n : Store.loc)
  (b : skb_map) :
  represents s n b ->
  simulates (fun b' _ s' => represents s' n b')
    (resolve_reachable b) (Store.resolve_reachable n s).
Proof.
  intros Hrep. pose proof (represents_view s n b Hrep) as Hview.
  destruct Hrep as (la & lr & Hne & Hn & Hla & Hlr).
  unfold Store.resolve_reachable, Store.seq. rewrite Hview.
  unfold Store.lift.
  destruct (resolve_reachable b) as [b'|f|e|] eqn:Hres; simpl;
    try reflexivity; try exact I.
  assert (Hb' : b' = set_reachable b (reachable b')).
  { unfold resolve_reachable in Hres.
    apply bind_Ok in Hres as (st0 & _ & Hres).
    apply bind_Ok in Hres as (st & _ & Hres). injection Hres as <-.
    reflexivity. }
  generalize (is_fresh (dom s)). generalize (fresh (dom s)). intros l Hfresh.
  assert (Hl : s !! l = None) by (apply not_elem_of_dom; exact Hfresh).
  assert (Hln : l <> n) by (intros E; rewrite E in Hl; congruence).
  assert (Hlla : l <> la) by (intros E; rewrite E in Hl; congruence).
  unfold Store.get_instance.
  rewrite (lookup_insert_ne s l n _ Hln). rewrite Hn. simpl.
  exists la, l. split; [congruence|].
  rewrite lookup_insert_eq.
  assert (Hnla : n <> la) by congruence.
  rewrite (lookup_insert_ne _ n la _ Hnla).
  rewrite (lookup_insert_ne _ l la _ Hlla).
  rewrite (lookup_insert_ne _ n l) by congruence.
  rewrite lookup_insert_eq.
  rewrite Hb' at 1 2 3 4 5 6 7. simpl. auto.
Qed.

Lemma represents_validate_true (s : Store.heap) (n : Store.loc)
  (b : skb_map) :
  represents s n b ->
  simulates (fun b' _ s' => represents s' n b')
    (validate true b) (Store.validate_true n s).
Proof.
  intros Hrep. pose proof (represents_view s n b Hrep) as Hview.
  unfold Store.validate_true, Store.seq. rewrite Hview.
  unfold Store.lift.
  destruct (validate true b) as [b'|f|e|] eqn:Hv; simpl;
    try reflexivity; try exact I.
  apply validate_true_same in Hv. subst b'. exact Hrep.
Qed.

Lemma represents_deepcopy (s : Store.heap) (self : Store.loc)
  (b : skb_map) :
  represents s self b ->
  exists n s1, Store.deepcopy self s = Ok (n, s1) /\ represents s1 n b.
Proof.
  intros (la & lr & Hne & Hn & Hla & Hlr).
  unfold Store.deepcopy, Store.seq, Store.get_instance, Store.get_items,
    Store.alloc.
  rewrite Hn. simpl. rewrite Hla, Hlr.
  destruct (decide (lr = la)) as [Heq|_]; [congruence|].
  set (l1 := fresh (dom s)).
  set (s1 := <[l1 := Store.Array (array b)]> s).
  set (l2 := fresh (dom s1)).
  set (s2 := <[l2 := Store.Array (reachable b)]> s1).
  set (l3 := fresh (dom s2)).
  eexists _, _. split; [reflexivity|].
  assert (H1 : s !! l1 = None) by (apply not_elem_of_dom, is_fresh).
  assert (H2 : s1 !! l2 = None) by (apply not_elem_of_dom, is_fresh).
  assert (H3 : s2 !! l3 = None) by (apply not_elem_of_dom, is_fresh).
  assert (H12 : l1 <> l2).
  { intros E. rewrite <- E in H2. unfold s1 in H2.
    rewrite lookup_insert_eq in H2. discriminate. }
  assert (H13 : l1 <> l3).
  { intros E. rewrite <- E in H3. unfold s2, s1 in H3.
    rewrite lookup_insert_ne, lookup_insert_eq in H3 by congruence.
    discriminate. }
  assert (H23 : l2 <> l3).
  { intros E. rewrite <- E in H3. unfold s2 in H3.
    rewrite lookup_insert_eq in H3. discriminate. }
  exists l1, l2. split; [exact H12|].
  rewrite lookup_insert_eq.
  rewrite !lookup_insert_ne by congruence.
  unfold s2, s1.
  rewrite lookup_insert_ne, lookup_insert_eq by congruence.
  rewrite lookup_insert_eq. auto.
Qed.

Lemma simulates_let {A A' B B' : Type}
  (rel : A -> B -> Store.heap -> Prop) (rel' : A' -> B' -> Store.heap -> Prop)
  (a0 : A) (p : Store.prog B) (k : A -> result A')
  (k' : B -> Store.prog B') (s : Store.heap) :
  simulates rel (Ok a0) (p s) ->
  (forall a b s', rel a b s' -> simulates rel' (k a) (k' b s')) ->
  simulates rel' (k a0) (Store.seq p k' s).
Proof. intros H Hk. exact (simulates_bind rel rel' (Ok a0) p k k' s H Hk). Qed.

(** A step in which the board changes without a call that can fail. *)
Ltac sim_let b0 H :=
  match goal with
  | |- simulates ?R ?pure (Store.seq ?p ?k' ?s) =>
      let pat := eval pattern b0 in pure in
      match pat with
      | ?f _ => apply (simulates_let _ R b0 p f k' s H)
      end
  end.

Lemma move_box_simulates (s : Store.heap) (n : Store.loc) (b : skb_map)
  (x y : Z) (d : Dir) :
  represents s n b ->
  simulates (fun b' _ s' => represents s' n b')
    (move_box b x y d) (Store.move_box n x y d s).
Proof.
  intros Hrep. unfold move_box, Store.move_box.
  eapply simulates_bind; [apply represents_element; exact Hrep|].
  intros e e' s' [He Hs]. subst e' s'. cbv beta.
  destruct (Z.land e 64 =? 0); [reflexivity|].
  pose proof Hrep as (la & lr & Hne & Hn & Hla & Hlr).
  unfold Store.seq at 1, Store.get_instance at 1. rewrite Hn.
  cbn [Store.i_character].
  eapply simulates_bind; [apply simulates_lift|].
  intros [cx cy] c' s' [He Hs]. subst c' s'. cbn [fst snd].
  eapply simulates_bind; [apply represents_element; exact Hrep|].
  intros e1 e' s' [He Hs]. subst e' s'.
  eapply simulates_bind; [apply represents_update_element; exact Hrep|].
  intros b1 u1 s1 Hrep1. cbv beta in Hrep1.
  eapply simulates_bind; [apply represents_element; exact Hrep1|].
  intros e2 e' s' [He Hs]. subst e' s'.
  eapply simulates_bind; [apply represents_update_element; exact Hrep1|].
  intros b2 u2 s2 Hrep2. cbv beta in Hrep2.
  eapply simulates_bind; [apply represents_element; exact Hrep2|].
  intros e3 e' s' [He Hs]. subst e' s'.
  generalize (match d with
              | UP => (x, y - 1)
              | RIGHT => (x + 1, y)
              | DOWN => (x, y + 1)
              | LEFT => (x - 1, y)
              end).
  intros [nx ny]. cbn [fst snd].
  remember (if negb (Z.land e3 32 =? 0)
            then set_unsolved b2 (unsolved b2 + 1) else b2) as b3 eqn:Hb3.
  pose proof (represents_set_unsolved s2 n b2 (negb (Z.land e3 32 =? 0))
                (fun u => u + 1) Hrep2) as H3.
  cbv beta in H3. rewrite <- Hb3 in H3. clear Hb3. sim_let b3 H3.
  intros b3' u3 s3 Hrep3. cbv beta in Hrep3.
  eapply simulates_bind; [apply represents_element; exact Hrep3|].
  intros e4 e' s' [He Hs]. subst e' s'.
  eapply simulates_bind; [apply represents_update_element; exact Hrep3|].
  intros b4 u4 s4 Hrep4. cbv beta in Hrep4.
  eapply simulates_bind; [apply represents_element; exact Hrep4|].
  intros e5 e' s' [He Hs]. subst e' s'.
  remember (if negb (Z.land e5 32 =? 0)
            then set_unsolved b4 (unsolved b4 - 1) else b4) as b5 eqn:Hb5.
  pose proof (represents_set_unsolved s4 n b4 (negb (Z.land e5 32 =? 0))
                (fun u => u - 1) Hrep4) as H5.
  cbv beta in H5. rewrite <- Hb5 in H5. clear Hb5. sim_let b5 H5.
  intros b5' u5 s5 Hrep5. cbv beta in Hrep5.
  remember (set_character b5' (Some (x, y))) as b6 eqn:Hb6.
  pose proof (represents_set_character s5 n b5' (x, y) Hrep5) as H6.
  rewrite <- Hb6 in H6. clear Hb6. sim_let b6 H6.
  intros b6' u6 s6 Hrep6. cbv beta in Hrep6.
  eapply simulates_bind; [apply represents_element; exact Hrep6|].
  intros e6 e' s' [He Hs]. subst e' s'.
  apply represents_update_element. exact Hrep6.
Qed.

(** The transition on the heap and the transition on values run alike:
    they fail alike, and when they return, the new object holds the new
    board. *)
Lemma create_new_map_by_move_simulates (s : Store.heap) (self : Store.loc)
  (b : skb_map) (x y : Z) (d : Dir) :
  represents s self b ->
  simulates (fun b' nm s' => represents s' nm b')
    (create_new_map_by_move b x y d)
    (Store.create_new_map_by_move self x y d s).
Proof.
  intros Hrep.
  destruct (represents_deepcopy s self b Hrep) as (n & s1 & Hcopy & Hrep1).
  unfold Store.create_new_map_by_move, Store.seq at 1. rewrite Hcopy.
  unfold create_new_map_by_move.
  eapply simulates_bind; [apply move_box_simulates; exact Hrep1|].
  intros b2 u2 s2 Hrep2. cbv beta in Hrep2.
  eapply simulates_bind; [apply represents_resolve_reachable; exact Hrep2|].
  intros b3 u3 s3 Hrep3. cbv beta in Hrep3.
  eapply simulates_bind; [apply represents_validate_true; exact Hrep3|].
  intros b4 u4 s4 Hrep4. cbv beta in Hrep4. exact Hrep4.
Qed.
